(** * MyCache (geecache): a shallow embedding and its verified properties

    The development follows the packages of the repository:

    - [ConsistentHash]  geecache/consistenthash/consistenthash.go
    - [LRU]             geecache/lru/lru.go
    - [Singleflight]    geecache/singleflight/singleflight.go
    - [GeeCache]        geecache/geecache.go, geecache/byteview.go

    Go [int] and [int64] are 64-bit two's complement integers; they are
    embedded in [Z] and the wrap-around of the arithmetic the code performs
    is written out with [wrap64].  Strings and byte slices are sequences of
    bytes and are embedded as [string]. *)

From Stdlib Require Import ZArith Lia Ascii.
From stdpp Require Import base decidable option numbers functions list strings gmap sorting.

Local Open Scope Z_scope.

(** ** Machine integers *)

Definition min_int64 : Z := - 2 ^ 63.
Definition max_int64 : Z := 2 ^ 63 - 1.

(** Two's complement wrap-around of a 64-bit signed result. *)
Definition wrap64 (x : Z) : Z := (x + 2 ^ 63) mod 2 ^ 64 - 2 ^ 63.

(** ** Package consistenthash *)

Module ConsistentHash.

(** [type Hash func(data []byte) uint32]; the [uint32] result is read as
    an [int] ([int(m.hash(...))]), a value of [Z]. *)
Definition Hash : Type := string → Z.

(** *** Library functions the package calls *)

(** [strconv.Itoa] on the loop counter (never negative). *)
Definition digit (d : nat) : ascii := ascii_of_nat (48 + d).

Fixpoint itoa_loop (fuel n : nat) (acc : string) : string :=
  match fuel with
  | O => acc
  | S fuel' =>
      let acc' := String (digit (n `mod` 10)%nat) acc in
      if decide (n `div` 10 = 0)%nat then acc'
      else itoa_loop fuel' (n `div` 10)%nat acc'
  end.

Definition Itoa (n : nat) : string := itoa_loop (S n) n "".

(** [crc32.ChecksumIEEE]: the reflected CRC-32 with polynomial
    0xEDB88320, bit by bit. *)
Definition crc_bit (crc : Z) : Z :=
  if Z.testbit crc 0 then Z.lxor (Z.shiftr crc 1) 0xEDB88320
  else Z.shiftr crc 1.

Definition crc_byte (crc : Z) (b : ascii) : Z :=
  Nat.iter 8 crc_bit (Z.lxor crc (Z.of_nat (nat_of_ascii b))).

Definition ChecksumIEEE : Hash := λ data,
  Z.lxor (foldl crc_byte 0xFFFFFFFF (String.list_ascii_of_string data)) 0xFFFFFFFF.

(** [sort.Search]: binary search for the least index in [[0, n)] at
    which [f] holds, [n] when there is none.  The loop halves [j - i], so
    [n] rounds of fuel are never used up. *)
Fixpoint search_loop (fuel : nat) (f : nat → bool) (i j : nat) : nat :=
  match fuel with
  | O => i
  | S fuel' =>
      if decide (i < j)%nat then
        let h := ((i + j) `div` 2)%nat in
        if negb (f h) then search_loop fuel' f (h + 1)%nat j
        else search_loop fuel' f i h
      else i
  end.

Definition Search (n : nat) (f : nat → bool) : nat := search_loop n f 0%nat n.

(** [sort.Ints]: the ascending rearrangement of the slice. *)
Definition sort_Ints (l : list Z) : list Z := merge_sort Z.le l.

(** *** The ring *)

Record Map : Type := mkMap {
  hash : Hash;
  replicas : Z;
  keys : list Z;             (* Sorted *)
  hashMap : gmap Z string
}.

(** [New]: a missing hash ([nil]) defaults to CRC-32. *)
Definition New (replicas : Z) (fn : option Hash) : Map :=
  {| replicas := replicas;
     hash := default ChecksumIEEE fn;
     keys := [];
     hashMap := ∅ |}.

(** One round of the inner loop of [Add]: virtual node [i] of [key]. *)
Definition add_replica (key : string) (m : Map) (i : nat) : Map :=
  let h := hash m (Itoa i +:+ key) in
  {| replicas := replicas m;
     hash := hash m;
     keys := keys m ++ [h];
     hashMap := <[h := key]> (hashMap m) |}.

(** The inner loop [for i := 0; i < m.replicas; i++]. *)
Definition add_node (m : Map) (key : string) : Map :=
  foldl (add_replica key) m (seq 0 (Z.to_nat (replicas m))).

Definition Add (m : Map) (ks : list string) : Map :=
  let m' := foldl add_node m ks in
  {| replicas := replicas m';
     hash := hash m';
     keys := sort_Ints (keys m');
     hashMap := hashMap m' |}.

Definition Get (m : Map) (key : string) : string :=
  if decide (length (keys m) = 0%nat) then ""
  else
    let h := hash m key in
    let idx := Search (length (keys m))
                      (λ i, bool_decide (h ≤ keys m !!! i)) in
    default "" (hashMap m !! (keys m !!! (idx `mod` length (keys m))%nat)).

(** The ring states of the package: [New] followed by calls of [Add]. *)
Definition ring (replicas : Z) (fn : option Hash) (adds : list (list string)) : Map :=
  foldl Add (New replicas fn) adds.

(** *** A hash that reads its input as a decimal integer *)
Definition digit_val (c : ascii) : Z := Z.of_nat (nat_of_ascii c) - 48.

Definition atoi_hash : Hash := λ data,
  foldl (λ acc c, 10 * acc + digit_val c) 0 (String.list_ascii_of_string data)
    `mod` 2 ^ 32.

(** *** The ring as a specification reads it *)

(** [owner ks h p]: [p] is the smallest stored position at or after [h],
    or, when every stored position is before [h], the smallest stored
    position. *)
Definition owner (ks : list Z) (h p : Z) : Prop :=
  p ∈ ks ∧
  ((h ≤ p ∧ ∀ q, q ∈ ks → h ≤ q → p ≤ q) ∨
   ((∀ q, q ∈ ks → q < h) ∧ ∀ q, q ∈ ks → p ≤ q)).

(** The position [Get] reads on a sorted, non-empty slice of keys. *)
Definition Get_position (ks : list Z) (h : Z) : Z :=
  ks !!! (Search (length ks) (λ i, bool_decide (h ≤ ks !!! i)%Z) `mod` length ks)%nat.

(** The positions [Add] computes for one node. *)
Definition positions (m : Map) (key : string) : list Z :=
  (λ i, hash m (Itoa i +:+ key)) <$> seq 0 (Z.to_nat (replicas m)).

(** Every stored position has a node. *)
Definition mapped (m : Map) : Prop := ∀ p, p ∈ keys m → is_Some (hashMap m !! p).

Definition ring_ok (m : Map) : Prop := StronglySorted Z.le (keys m) ∧ mapped m.

(** The ring with replicas = 3, the decimal hash and the nodes "6", "4",
    "2". *)
Definition test_ring : Map := ring 3 (Some atoi_hash) [["6"; "4"; "2"]].

(** Two maps with the same fields, the keys up to their order. *)
Definition same_ring (m1 m2 : Map) : Prop :=
  hash m1 = hash m2 ∧ replicas m1 = replicas m2 ∧
  hashMap m1 = hashMap m2 ∧ keys m1 ≡ₚ keys m2.

(** The nodes of a map: the values of [hashMap]. *)
Definition nodes_in (m : Map) (ns : list string) : Prop :=
  ∀ p n, hashMap m !! p = Some n → n ∈ ns.

End ConsistentHash.

(** ** Package lru *)

Module LRU.

(** [type Value interface { Len() int }]: anything with a reported byte
    length.  A length is never negative. *)
Class Value (V : Type) : Type := {
  Len : V → Z;
  Len_nonneg : ∀ v, 0 ≤ Len v
}.

(** [time.Time] as the offset from the zero instant (January 1, year 1),
    [time.Duration] as a number of nanoseconds.  The zero value of
    [time.Time] is the zero instant. *)
Definition Time : Type := Z.
Definition Duration : Type := Z.

Definition zeroTime : Time := 0.
Definition IsZero (t : Time) : bool := bool_decide (t = 0).
Definition After (t u : Time) : bool := bool_decide (u < t).
Definition Before (t u : Time) : bool := bool_decide (t < u).
Definition Time_Add (t : Time) (d : Duration) : Time := t + d.

(** [type expireItem struct { expireAt time.Time; key string }] *)
Record expireItem : Type := mkItem {
  item_expireAt : Time;
  item_key : string
}.

Global Instance expireItem_inhabited : Inhabited expireItem :=
  populate (mkItem zeroTime "").

(** [type expireHeap []expireItem] with the methods of
    [heap.Interface].  Indices are in range wherever [container/heap]
    and [CleanExpired] call these methods. *)
Module ExpireHeap.
Definition t : Type := list expireItem.

Definition Len (h : t) : nat := length h.

Definition Less (h : t) (i j : nat) : bool :=
  Before (item_expireAt (h !!! i)) (item_expireAt (h !!! j)).

Definition Swap (h : t) (i j : nat) : t :=
  <[i := h !!! j]> (<[j := h !!! i]> h).

Definition Push (h : t) (x : expireItem) : t := h ++ [x].

(** [Pop] removes and returns the last item. *)
Definition Pop (h : t) : expireItem * t :=
  let n := length h in
  (h !!! (n - 1)%nat, take (n - 1) h).
End ExpireHeap.

(** The functions of [container/heap] the package calls. *)
Module Heap.
Import ExpireHeap.

(** [up]: the parent index [(j - 1) / 2] is [0] for [j = 0], as in Go,
    and is smaller than [j] otherwise: [j + 1] rounds always do. *)
Fixpoint up_loop (fuel : nat) (h : t) (j : nat) : t :=
  match fuel with
  | O => h
  | S fuel' =>
      let i := ((j - 1) `div` 2)%nat in
      if bool_decide (i = j) || negb (Less h j i) then h
      else up_loop fuel' (Swap h i j) i
  end.

Definition up (h : t) (j : nat) : t := up_loop (S j) h j.

(** [down]: the index grows in every round and stays below [n]. *)
Fixpoint down_loop (fuel : nat) (h : t) (i n : nat) : t :=
  match fuel with
  | O => h
  | S fuel' =>
      let j1 := (2 * i + 1)%nat in
      if bool_decide (n ≤ j1)%nat then h
      else
        let j2 := (j1 + 1)%nat in
        let j := if bool_decide (j2 < n)%nat && Less h j2 j1 then j2 else j1 in
        if negb (Less h j i) then h
        else down_loop fuel' (Swap h i j) j n
  end.

Definition down (h : t) (i0 n : nat) : t := down_loop n h i0 n.

(** [Init]: [for i := n/2 - 1; i >= 0; i-- { down(h, i, n) }]. *)
Definition Init (h : t) : t :=
  let n := Len h in
  foldl (λ h i, down h i n) h (reverse (seq 0 (n `div` 2))).

Definition Push (h : t) (x : expireItem) : t :=
  let h := ExpireHeap.Push h x in
  up h (Len h - 1).

Definition Pop (h : t) : expireItem * t :=
  let n := (Len h - 1)%nat in
  let h := Swap h 0 n in
  let h := down h 0 n in
  ExpireHeap.Pop h.
End Heap.

(** *** Heap order *)

(** The expiry of the item at an index. *)
Definition at_index (h : ExpireHeap.t) (j : nat) : Time := item_expireAt (h !!! j).

(** The index of the parent in [container/heap]. *)
Definition parent (j : nat) : nat := ((j - 1) `div` 2)%nat.

(** The first [n] items are in heap order: no item is before its
    parent. *)
Definition heap_ok_upto (h : ExpireHeap.t) (n : nat) : Prop :=
  ∀ k : nat, (0 < k < n)%nat → at_index h (parent k) ≤ at_index h k.

Definition heap_ok (h : ExpireHeap.t) : Prop := heap_ok_upto h (length h).

(** Heap order but for the item at [j], which may be before its parent;
    its children are not before its parent. *)
Definition up_ok (h : ExpireHeap.t) (j : nat) : Prop :=
  (j < length h)%nat ∧
  (∀ k : nat, (0 < k < length h)%nat → k ≠ j →
              at_index h (parent k) ≤ at_index h k) ∧
  (∀ k : nat, (0 < k < length h)%nat → parent k = j → (0 < j)%nat →
              at_index h (parent j) ≤ at_index h k).

(** Heap order among the first [n] items but for the item at [i], which
    may be after its children; they are not before its parent. *)
Definition down_ok (h : ExpireHeap.t) (i n : nat) : Prop :=
  (n ≤ length h)%nat ∧
  (∀ k : nat, (0 < k < n)%nat → parent k ≠ i →
              at_index h (parent k) ≤ at_index h k) ∧
  (∀ k : nat, (0 < k < n)%nat → parent k = i → (0 < i)%nat →
              at_index h (parent i) ≤ at_index h k).

Section cache.
Context {V : Type} `{!Value V}.

(** [type entry struct { key string; value Value; expireAt time.Time }] *)
Record entry : Type := mkEntry {
  key : string;
  value : V;
  expireAt : Time
}.

(** [type Cache struct].  The recency list [ll] is a list of entries,
    front first.  The map [cache] from a key to its list element is the
    index of that list: [cache[key]] is the element of [ll] that holds
    [key], found by [lookup], and an element is named by its position.
    [OnEvicted] tells whether a callback is set; the calls made to it
    are recorded, oldest first, in [evicted]. *)
Record Cache : Type := mkCache {
  maxBytes : Z;
  nbytes : Z;
  ll : list entry;
  expireHeap : ExpireHeap.t;
  OnEvicted : bool;
  evicted : list (string * V)
}.

Definition with_nbytes (c : Cache) (n : Z) : Cache :=
  mkCache (maxBytes c) n (ll c) (expireHeap c) (OnEvicted c) (evicted c).
Definition with_ll (c : Cache) (l : list entry) : Cache :=
  mkCache (maxBytes c) (nbytes c) l (expireHeap c) (OnEvicted c) (evicted c).
Definition with_expireHeap (c : Cache) (h : ExpireHeap.t) : Cache :=
  mkCache (maxBytes c) (nbytes c) (ll c) h (OnEvicted c) (evicted c).
Definition with_evicted (c : Cache) (l : list (string * V)) : Cache :=
  mkCache (maxBytes c) (nbytes c) (ll c) (expireHeap c) (OnEvicted c) l.

(** [len(key)] in bytes. *)
Definition len (s : string) : Z := Z.of_nat (String.length s).

(** [c.cache[key]]: the position and the entry of the element. *)
Definition lookup (c : Cache) (k : string) : option (nat * entry) :=
  list_find (λ e, key e = k) (ll c).

Definition New (maxBytes : Z) (onEvicted : bool) : Cache :=
  {| maxBytes := maxBytes;
     nbytes := 0;
     ll := [];
     expireHeap := Heap.Init [];
     OnEvicted := onEvicted;
     evicted := [] |}.

(** [removeElement]: unlink the element at position [i], drop its key
    from the index, give its bytes back and call [OnEvicted]. *)
Definition removeElement (c : Cache) (i : nat) : Cache :=
  match ll c !! i with
  | None => c
  | Some kv =>
      let c := with_ll c (delete i (ll c)) in
      let c := with_nbytes c
                 (wrap64 (nbytes c - wrap64 (len (key kv) + Len (value kv)))) in
      if OnEvicted c then with_evicted c (evicted c ++ [(key kv, value kv)])
      else c
  end.

(** [RemoveOldest]: [c.ll.Back()] is the last element, if any. *)
Definition RemoveOldest (c : Cache) : Cache :=
  match ll c with
  | [] => c
  | _ => removeElement c (length (ll c) - 1)
  end.

(** The body of [Add] before its eviction loop; [now] is the reading
    of [time.Now()]. *)
Definition store (c : Cache) (k : string) (v : V) (ttl : Duration)
    (now : Time) : Cache :=
  let expireAt := if bool_decide (0 < ttl) then Time_Add now ttl else zeroTime in
  match lookup c k with
  | Some (i, kv) =>
      let c := with_ll c (mkEntry (key kv) v expireAt :: delete i (ll c)) in
      let c := with_nbytes c (wrap64 (nbytes c + wrap64 (Len v - Len (value kv)))) in
      if negb (IsZero expireAt)
      then with_expireHeap c (Heap.Push (expireHeap c) (mkItem expireAt k))
      else c
  | None =>
      let c := with_ll c (mkEntry k v expireAt :: ll c) in
      let c := with_nbytes c (wrap64 (nbytes c + wrap64 (len k + Len v))) in
      if negb (IsZero expireAt)
      then with_expireHeap c (Heap.Push (expireHeap c) (mkItem expireAt k))
      else c
  end.

(** [for c.maxBytes != 0 && c.maxBytes < c.nbytes { c.RemoveOldest() }].
    A round on an empty list changes nothing, so the loop that has not
    stopped after one round more than there are elements never stops:
    that is the result [None]. *)
Fixpoint evict (fuel : nat) (c : Cache) : option Cache :=
  if bool_decide (maxBytes c ≠ 0) && bool_decide (maxBytes c < nbytes c) then
    match fuel with
    | O => None
    | S fuel' => evict fuel' (RemoveOldest c)
    end
  else Some c.

Definition Add (c : Cache) (k : string) (v : V) (ttl : Duration)
    (now : Time) : option Cache :=
  let c := store c k v ttl now in
  evict (S (length (ll c))) c.

(** [Get]: the cache after the call and the value on a hit. *)
Definition Get (c : Cache) (k : string) (now : Time) : Cache * option V :=
  match lookup c k with
  | Some (i, kv) =>
      if negb (IsZero (expireAt kv)) && After now (expireAt kv)
      then (removeElement c i, None)
      else (with_ll c (kv :: delete i (ll c)), Some (value kv))
  | None => (c, None)
  end.

(** [CleanExpired]: every round pops one item, so as many rounds as the
    heap has items always do. *)
Fixpoint clean (fuel : nat) (now : Time) (c : Cache) : Cache :=
  match fuel with
  | O => c
  | S fuel' =>
      if bool_decide (0 < ExpireHeap.Len (expireHeap c))%nat then
        let item := expireHeap c !!! 0%nat in
        if After now (item_expireAt item) then
          let c := with_expireHeap c (Heap.Pop (expireHeap c)).2 in
          let c := match lookup c (item_key item) with
                   | Some (i, _) => removeElement c i
                   | None => c
                   end in
          clean fuel' now c
        else c
      else c
  end.

Definition CleanExpired (c : Cache) (now : Time) : Cache :=
  clean (ExpireHeap.Len (expireHeap c)) now c.

Definition Cache_Len (c : Cache) : nat := length (ll c).

(** *** Sequences of operations *)

Inductive op : Type :=
| OpAdd (k : string) (v : V) (ttl : Duration) (now : Time)
| OpGet (k : string) (now : Time)
| OpRemoveOldest
| OpCleanExpired (now : Time).

Definition step (c : Cache) (o : op) : option Cache :=
  match o with
  | OpAdd k v ttl now => Add c k v ttl now
  | OpGet k now => Some (Get c k now).1
  | OpRemoveOldest => Some (RemoveOldest c)
  | OpCleanExpired now => Some (CleanExpired c now)
  end.

(** The store after the operations, [None] when one of them does not
    return. *)
Fixpoint run (ops : list op) (c : Cache) : option Cache :=
  match ops with
  | [] => Some c
  | o :: ops' =>
      match step c o with
      | Some c' => run ops' c'
      | None => None
      end
  end.

(** The bytes of an entry and of the live entries. *)
Definition entry_bytes (e : entry) : Z := len (key e) + Len (value e).

Definition live_bytes (c : Cache) : Z := foldr (λ e s, entry_bytes e + s) 0 (ll c).

(** The bytes the operations hand to [Add]. *)
Definition op_bytes (o : op) : Z :=
  match o with
  | OpAdd k v _ _ => len k + Len v
  | _ => 0
  end.

Definition total_bytes (ops : list op) : Z := foldr (λ o s, op_bytes o + s) 0 ops.

(** *** What the proofs say about a store *)

(** The bytes of a list of entries. *)
Definition lbytes (l : list entry) : Z := foldr (λ e s, entry_bytes e + s) 0 l.

(** [accounted B c]: the counter is the sum over the live entries, and
    that sum is at most [B]. *)
Definition accounted (B : Z) (c : Cache) : Prop :=
  nbytes c = live_bytes c ∧ live_bytes c ≤ B.

(** What [OnEvicted] is told about an entry. *)
Definition report (e : entry) : string * V := (key e, value e).

(** The keys of the index: one element of the list for each. *)
Definition keys_of (c : Cache) : list string := key <$> ll c.

(** The expiry [Add] gives an entry. *)
Definition expiry (ttl : Duration) (now : Time) : Time :=
  if bool_decide (0 < ttl) then Time_Add now ttl else zeroTime.

(** Every entry with an expiry has its item on the heap. *)
Definition covered (c : Cache) : Prop :=
  ∀ e : entry, e ∈ ll c → expireAt e ≠ zeroTime →
               mkItem (expireAt e) (key e) ∈ expireHeap c.

(** The heap is in heap order, it covers the entries, and no key has
    two entries. *)
Definition timed (c : Cache) : Prop :=
  heap_ok (expireHeap c) ∧ covered c ∧ NoDup (keys_of c).

(** One round of [CleanExpired] that pops. *)
Definition pop_round (c : Cache) : Cache :=
  let item := expireHeap c !!! 0%nat in
  let c1 := with_expireHeap c (Heap.Pop (expireHeap c)).2 in
  match lookup c1 (item_key item) with
  | Some (i, _) => removeElement c1 i
  | None => c1
  end.

(** The item was pushed by an [Add] among the operations. *)
Definition pushed (ops : list op) (x : expireItem) : Prop :=
  ∃ v ttl t, OpAdd (item_key x) v ttl t ∈ ops ∧
             expiry ttl t ≠ zeroTime ∧ item_expireAt x = expiry ttl t.

End cache.

Arguments entry V : clear implicits.
Arguments Cache V : clear implicits.
Arguments op V : clear implicits.

(** Strings as values: a [type String string] with [Len() = len(d)]. *)
Global Instance String_Value : Value string :=
  {| Len s := Z.of_nat (String.length s);
     Len_nonneg s := Nat2Z.is_nonneg (String.length s) |}.

(** *** Stores of strings used as examples *)

Definition three_adds : list (op string) :=
  [OpAdd "a" "12345" 0 1; OpAdd "b" "12345" 0 2; OpAdd "c" "1" 0 3].

Definition after_three_adds : Cache string :=
  default (New 10 true) (run three_adds (New 10 true)).

Definition after_fourth_add : Cache string :=
  default after_three_adds (Add after_three_adds "d" "123456" 0 4).

(** Four entries with expiries at 110, 105, 107 and 102. *)
Definition timed_adds : list (op string) :=
  [OpAdd "k" "v" 10 100; OpAdd "j" "v" 5 100; OpAdd "i" "v" 7 100;
   OpAdd "h" "v" 2 100].

Definition after_timed_adds : Cache string :=
  default (New 0 true) (run timed_adds (New 0 true)).

Definition two_items : ExpireHeap.t := [mkItem 102 "h"; mkItem 105 "j"].

Definition readd_without_ttl : list (op string) :=
  [OpAdd "k" "v" 10 100; OpAdd "k" "v" 0 105].

Definition readded : Cache string :=
  default (New 0 true) (run readd_without_ttl (New 0 true)).

End LRU.

(** ** Package singleflight *)

Module Singleflight.

(** A Go [error] is its message; [nil] is [None]. *)
Definition error : Type := string.

Section singleflight.
(** [A]: the values [fn] returns as [interface{}]. *)
Context {A : Type}.

(** What [fn] and [Do] return: [(interface{}, error)]. *)
Definition result : Type := option A * option error.

(** [type call struct]: [wg] is the counter of the [sync.WaitGroup]. *)
Record call : Type := mkCall {
  wg : nat;
  val : option A;
  err : option error
}.

(** [type Group struct].  [mu] holds the thread that has locked the
    mutex.  The map [m] is [nil] until the first call; a [*call] is the
    index of the record in [calls], the records allocated so far. *)
Record Group : Type := mkGroup {
  mu : option nat;
  m : option (gmap string nat);
  calls : list call
}.

Definition zero : Group := mkGroup None None [].

(** *** The statements of [Do] *)

(** [g.mu.Lock()] by thread [t]: possible when the mutex is free. *)
Definition Lock (t : nat) (g : Group) : option Group :=
  match mu g with
  | None => Some (mkGroup (Some t) (m g) (calls g))
  | Some _ => None
  end.

(** [g.mu.Unlock()] *)
Definition Unlock (g : Group) : Group := mkGroup None (m g) (calls g).

(** [if g.m == nil { g.m = make(map[string]*call) }] *)
Definition init_m (g : Group) : Group :=
  mkGroup (mu g) (Some (default ∅ (m g))) (calls g).

(** [c, ok := g.m[key]] *)
Definition lookup (g : Group) (key : string) : option nat :=
  m g ≫= (λ mp, mp !! key).

(** [c := new(call); c.wg.Add(1)] *)
Definition new_call (g : Group) : nat * Group :=
  (length (calls g), mkGroup (mu g) (m g) (calls g ++ [mkCall 1 None None])).

(** [g.m[key] = c] *)
Definition install (g : Group) (key : string) (c : nat) : Group :=
  mkGroup (mu g) ((λ mp, <[key := c]> mp) <$> m g) (calls g).

(** [c.val, c.err = fn()], given what [fn] returned *)
Definition assign (g : Group) (c : nat) (r : result) : Group :=
  mkGroup (mu g) (m g)
          (alter (λ cl, mkCall (wg cl) r.1 r.2) c (calls g)).

(** [c.wg.Done()] *)
Definition Done (g : Group) (c : nat) : Group :=
  mkGroup (mu g) (m g)
          (alter (λ cl, mkCall (wg cl - 1) (val cl) (err cl)) c (calls g)).

(** [delete(g.m, key)] *)
Definition delete_key (g : Group) (key : string) : Group :=
  mkGroup (mu g) ((λ mp, delete key mp) <$> m g) (calls g).

(** [c.wg.Wait()] returns when the counter is zero. *)
Definition waited (g : Group) (c : nat) : bool :=
  match calls g !! c with
  | Some cl => bool_decide (wg cl = 0%nat)
  | None => false
  end.

(** [c.val, c.err] *)
Definition read (g : Group) (c : nat) : result :=
  match calls g !! c with
  | Some cl => (val cl, err cl)
  | None => (None, None)
  end.

(** *** Concurrent callers

    Every thread makes one call [Do(key_of t, fn)].  A thread is at one
    of the following points of [Do]; a step of a thread runs the
    statement at its point.  The function [fn] is a closure with state
    of its own: what an invocation returns depends on the caller and
    on the number of invocations made before it. *)
Inductive pc : Type :=
| Idle                            (* has not called [Do] yet *)
| Entered                         (* in [Do], before [g.mu.Lock()] *)
| Locked                          (* holds [mu], before the lookup *)
| Found (c : nat)                 (* found [c], before [g.mu.Unlock()] *)
| Waiting (c : nat)               (* at [c.wg.Wait()] *)
| Woken (c : nat)                 (* before [return c.val, c.err] *)
| Missing                         (* found nothing, before [new(call)] *)
| Installed (c : nat)             (* [g.m[key] = c] done, before [Unlock] *)
| Calling (c : nat)               (* before the call of [fn] *)
| Running (c : nat) (n : nat)     (* in [fn], invocation number [n] *)
| Assigned (c : nat)              (* [c.val, c.err] set, before [Done] *)
| Relock (c : nat)                (* before the second [g.mu.Lock()] *)
| Deleting (c : nat)              (* holds [mu], before [delete] *)
| Deleted (c : nat)               (* before the second [Unlock] *)
| Returning (c : nat)             (* before [return c.val, c.err] *)
| Returned (c : nat) (r : result) (* returned [r], read from record [c] *).

(** The state of a run: the group, the point of every thread, and the
    invocations of [fn] in the order they were made, each with its
    caller and the record it was made for. *)
Record state : Type := mkState {
  grp : Group;
  pcs : nat → pc;
  invoked : list (nat * nat)
}.

Definition init : state := mkState zero (λ _, Idle) [].

Section machine.
Variable key_of : nat → string.
Variable fn : nat → nat → result.

Definition goto (s : state) (t : nat) (p : pc) (g : Group) : state :=
  mkState g (<[t := p]> (pcs s)) (invoked s).

(** One step of thread [t]; [None] when the thread is blocked (on
    the mutex or the wait group) or has returned. *)
Definition step (t : nat) (s : state) : option state :=
  let g := grp s in
  match pcs s t with
  | Idle => Some (goto s t Entered g)
  | Entered => goto s t Locked <$> Lock t g
  | Locked =>
      let g := init_m g in
      match lookup g (key_of t) with
      | Some c => Some (goto s t (Found c) g)
      | None => Some (goto s t Missing g)
      end
  | Found c => Some (goto s t (Waiting c) (Unlock g))
  | Waiting c => if waited g c then Some (goto s t (Woken c) g) else None
  | Woken c => Some (goto s t (Returned c (read g c)) g)
  | Missing =>
      let '(c, g) := new_call g in
      Some (goto s t (Installed c) (install g (key_of t) c))
  | Installed c => Some (goto s t (Calling c) (Unlock g))
  | Calling c =>
      let n := length (invoked s) in
      Some (mkState g (<[t := Running c n]> (pcs s)) (invoked s ++ [(t, c)]))
  | Running c n => Some (goto s t (Assigned c) (assign g c (fn t n)))
  | Assigned c => Some (goto s t (Relock c) (Done g c))
  | Relock c => goto s t (Deleting c) <$> Lock t g
  | Deleting c => Some (goto s t (Deleted c) (delete_key g (key_of t)))
  | Deleted c => Some (goto s t (Returning c) (Unlock g))
  | Returning c => Some (goto s t (Returned c (read g c)) g)
  | Returned _ _ => None
  end.

(** A run under a schedule: the scheduled thread takes a step when it
    can. *)
Definition exec (sched : list nat) (s : state) : state :=
  foldl (λ s t, default s (step t s)) s sched.

(** A call is in flight from its entry into [Do] to its return. *)
Definition in_flight (p : pc) : bool :=
  match p with
  | Idle | Returned _ _ => false
  | _ => true
  end.

Definition returned (p : pc) : option result :=
  match p with
  | Returned _ r => Some r
  | _ => None
  end.
(** *** What a point of [Do] says about the caller *)

Implicit Types (s : state) (g : Group) (p : pc) (t c n : nat).

(** The caller holds the mutex. *)
Definition holds_lock p : Prop :=
  match p with
  | Locked | Found _ | Missing | Installed _ | Deleting _ | Deleted _ => True
  | _ => False
  end.

(** The caller has installed record [c] and not yet signalled the
    wait group. *)
Definition armed p c : Prop :=
  match p with
  | Installed c' | Calling c' | Running c' _ | Assigned c' => c' = c
  | _ => False
  end.

(** The caller has installed record [c], which is still in the map. *)
Definition in_map p c : Prop :=
  match p with
  | Installed c' | Calling c' | Running c' _ | Assigned c'
  | Relock c' | Deleting c' => c' = c
  | _ => False
  end.

(** The caller is the one that installed record [c]. *)
Definition owns p c : Prop :=
  match p with
  | Installed c' | Calling c' | Running c' _ | Assigned c'
  | Relock c' | Deleting c' | Deleted c' | Returning c' => c' = c
  | _ => False
  end.

(** The caller has passed the signal of the wait group of [c]. *)
Definition released p c : Prop :=
  match p with
  | Woken c' | Relock c' | Deleting c' | Deleted c' | Returning c' => c' = c
  | _ => False
  end.

(** The caller refers to record [c]. *)
Definition refers p c : Prop :=
  match p with
  | Found c' | Waiting c' | Woken c' | Installed c' | Calling c'
  | Running c' _ | Assigned c' | Relock c' | Deleting c' | Deleted c'
  | Returning c' | Returned c' _ => c' = c
  | _ => False
  end.

(** The caller has not invoked [fn] yet. *)
Definition before_fn p c : Prop :=
  match p with
  | Installed c' | Calling c' => c' = c
  | _ => False
  end.

Definition wg_of g c : option nat := wg <$> calls g !! c.

Record inv s : Prop := mkInv {
  inv_lock : ∀ t, holds_lock (pcs s t) ↔ mu (grp s) = Some t;
  inv_map_owner : ∀ k c, lookup (grp s) k = Some c →
                         ∃ t, key_of t = k ∧ in_map (pcs s t) c;
  inv_owner_map : ∀ t c, in_map (pcs s t) c → lookup (grp s) (key_of t) = Some c;
  inv_missing : ∀ t, pcs s t = Missing →
                     is_Some (m (grp s)) ∧ lookup (grp s) (key_of t) = None;
  inv_unique : ∀ t1 t2 c, owns (pcs s t1) c → owns (pcs s t2) c → t1 = t2;
  inv_fresh : ∀ t c, refers (pcs s t) c → (c < length (calls (grp s)))%nat;
  inv_armed : ∀ t c, armed (pcs s t) c → wg_of (grp s) c = Some 1%nat;
  inv_released : ∀ t c, released (pcs s t) c → wg_of (grp s) c = Some 0%nat;
  inv_returned : ∀ t c r, pcs s t = Returned c r →
                          calls (grp s) !! c = Some (mkCall 0 r.1 r.2);
  inv_result : ∀ c cl, calls (grp s) !! c = Some cl → wg cl = 0%nat →
                       ∃ t n, invoked s !! n = Some (t, c) ∧
                              (val cl, err cl) = fn t n;
  inv_assigned : ∀ t c, pcs s t = Assigned c →
                        ∃ n cl, invoked s !! n = Some (t, c) ∧
                                calls (grp s) !! c = Some cl ∧
                                (val cl, err cl) = fn t n;
  inv_running : ∀ t c n, pcs s t = Running c n → invoked s !! n = Some (t, c);
  inv_once : NoDup (invoked s).*2;
  inv_before_fn : ∀ t c, before_fn (pcs s t) c → c ∉ (invoked s).*2;
  inv_invoked_fresh : ∀ t c, (t, c) ∈ invoked s →
                             (c < length (calls (grp s)))%nat
}.

(** *** Progress and roles of the callers *)

(** A wait group that is not down to zero has a caller that will
    signal it. *)
Definition live s : Prop :=
  ∀ c n, wg_of (grp s) c = Some (S n) → ∃ t, armed (pcs s t) c.

(** The steps a caller has left, at most. *)
Definition todo p : nat :=
  match p with
  | Idle => 12 | Entered => 11 | Locked => 10
  | Found _ => 3 | Waiting _ => 2 | Woken _ => 1
  | Missing => 9 | Installed _ => 8 | Calling _ => 7 | Running _ _ => 6
  | Assigned _ => 5 | Relock _ => 4 | Deleting _ => 3 | Deleted _ => 2
  | Returning _ => 1 | Returned _ _ => 0
  end.

Definition pending (T : list nat) s : nat := sum_list ((λ t, todo (pcs s t)) <$> T).

(** The caller has invoked [fn] for record [c] and not returned yet. *)
Definition after_fn p c : Prop :=
  match p with
  | Running c' _ | Assigned c' | Relock c' | Deleting c' | Deleted c'
  | Returning c' => c' = c
  | _ => False
  end.

(** The caller has found record [c], or returned with its values. *)
Definition attached p c : Prop :=
  match p with
  | Found c' | Waiting c' | Woken c' | Returned c' _ => c' = c
  | _ => False
  end.

(** Who has invoked [fn]: the callers past their call of [fn], for
    the record they made. *)
Definition roles s : Prop :=
  (∀ t c, (t, c) ∈ invoked s →
          after_fn (pcs s t) c ∨ ∃ r, pcs s t = Returned c r) ∧
  (∀ t c, after_fn (pcs s t) c → (t, c) ∈ invoked s).

(** Caller [t2] has taken the mutex while the record [c] of caller
    [t1] is in the map under its key, or has attached to [c]; it has
    not invoked [fn]. *)
Definition suppressed (t1 t2 c : nat) s : Prop :=
  (t2 ∉ (invoked s).*1) ∧
  ((pcs s t2 = Locked ∧ lookup (grp s) (key_of t2) = Some c) ∨
   attached (pcs s t2) c) ∧
  refers (pcs s t1) c ∧
  (before_fn (pcs s t1) c ∨ (t1, c) ∈ invoked s).

End machine.

End singleflight.

Arguments result A : clear implicits.
Arguments call A : clear implicits.
Arguments Group A : clear implicits.
Arguments pc A : clear implicits.
Arguments state A : clear implicits.

(** *** Two overlapping calls for one key *)

Definition overlap_sched : list nat :=
  [0;0;0;0;0;0; 1; 0;0;0;0;0; 1;1;1;1;1;1;1;1;1;1;1;1; 0]%nat.
Definition count_fn : nat → nat → result nat := λ _ n, (Some n, None).
Definition same_key : nat → string := λ _, "k".

(** *** A caller that finds the record of a call in flight *)

(** Caller 0 installs its record and enters [fn]; caller 1 takes the
    mutex.  Then caller 1 finds the record and waits, caller 0 runs to
    its return, and caller 1 wakes up and returns. *)
Definition attach_sched : list nat := [0;0;0;0;0;0; 1;1]%nat.
Definition attach_rest : list nat := [1;1; 0;0;0;0;0;0; 1;1]%nat.

End Singleflight.

(** ** Package geecache *)

Module GeeCache.

Definition error : Type := Singleflight.error.

(** *** byteview.go *)

(** [type ByteView struct { b []byte }] *)
Record ByteView : Type := mkByteView { b : string }.

Definition ByteView_Len (v : ByteView) : Z := Z.of_nat (String.length (b v)).

(** [cloneBytes]: a fresh slice with the same bytes. *)
Definition cloneBytes (x : string) : string := x.

Definition ByteSlice (v : ByteView) : string := cloneBytes (b v).

Definition ByteView_String (v : ByteView) : string := b v.

(** [ByteView] implements [lru.Value]. *)
Global Instance ByteView_Value : LRU.Value ByteView :=
  {| LRU.Len := ByteView_Len;
     LRU.Len_nonneg v := Nat2Z.is_nonneg (String.length (b v)) |}.

(** *** The guarded cache *)

(** Modelled from the spec: the type [cache] and its methods [add], [get]
    and [cleanExpired] (cache.go) are not among the sources.  The
    specification describes a mutex-wrapped facade over the LRU store
    that lazily constructs the store on first use with the configured
    [maxBytes]; the mutex has no effect on calls made one after the
    other. *)
Record cache : Type := mkcache {
  cacheBytes : Z;
  lru : option (LRU.Cache ByteView)
}.

(** The store behind the facade, constructed on first use. *)
Definition store_of (c : cache) : LRU.Cache ByteView :=
  default (LRU.New (cacheBytes c) false) (lru c).

Definition cache_add (c : cache) (key : string) (value : ByteView)
    (ttl : LRU.Duration) (now : LRU.Time) : option cache :=
  mkcache (cacheBytes c) ∘ Some <$> LRU.Add (store_of c) key value ttl now.

Definition cache_get (c : cache) (key : string) (now : LRU.Time)
    : cache * option ByteView :=
  let '(l, v) := LRU.Get (store_of c) key now in
  (mkcache (cacheBytes c) (Some l), v).

Definition cache_cleanExpired (c : cache) (now : LRU.Time) : cache :=
  mkcache (cacheBytes c) (Some (LRU.CleanExpired (store_of c) now)).

(** *** peers.go and the collaborators of a group *)

(** Modelled from the spec: the messages [pb.Request] and [pb.Response]
    (package geecachepb) are not among the sources.  The specification
    gives a request the fields [group] and [key] and a response the
    field [value]. *)
Record Request : Type := mkRequest { Request_Group : string; Request_Key : string }.
Record Response : Type := mkResponse { Response_Value : string }.

(** What a group does to the outside, in order. *)
Inductive event : Type :=
| EvGetter (key : string)         (* [g.getter.Get(key)] *)
| EvPickPeer (key : string)       (* [g.peers.PickPeer(key)] *)
| EvPeerGet (req : Request)       (* [peer.Get(req, res)] *)
| EvLog (msg : string).           (* [log.Println] *)

(** The collaborators are arbitrary objects: what a call returns may
    depend on everything that happened before it.

    [Getter.Get(key) ([]byte, error)],
    [PeerGetter.Get(in, out) error] with the response it writes to [out],
    [PeerPicker.PickPeer(key) (peer, ok)]. *)
Definition Getter : Type := list event → string → string * option error.
Definition PeerGetter : Type := list event → Request → Response * option error.
Definition PeerPicker : Type := list event → string → option PeerGetter.

(** *** geecache.go *)

Record Group : Type := mkGroup {
  name : string;
  getter : Getter;
  mainCache : cache;
  peers : option PeerPicker;
  loader : Singleflight.Group ByteView
}.

Definition with_mainCache (g : Group) (c : cache) : Group :=
  mkGroup (name g) (getter g) c (peers g) (loader g).
Definition with_loader (g : Group) (l : Singleflight.Group ByteView) : Group :=
  mkGroup (name g) (getter g) (mainCache g) (peers g) l.

(** A method runs on a group and the events so far.  It leaves the
    events made, and, when it returns, its result and the group. *)
Definition M (A : Type) : Type :=
  Group → list event → option (A * Group) * list event.

Global Instance M_ret : MRet M := λ A a g tr, (Some (a, g), tr).

Global Instance M_bind : MBind M := λ A B f x g tr,
  match x g tr with
  | (Some (a, g'), tr') => f a g' tr'
  | (None, tr') => (None, tr')
  end.

(** A call that does not return. *)
Definition stuck {A} : M A := λ g tr, (None, tr).

(** The receiver [g]. *)
Definition this : M Group := λ g tr, (Some (g, g), tr).

Definition emit {A} (a : A) (e : event) : M A := λ g tr, (Some (a, g), tr ++ [e]).

Definition log_Println (msg : string) : M unit := emit () (EvLog msg).

Definition getter_Get (key : string) : M (string * option error) := λ g tr,
  emit (getter g tr key) (EvGetter key) g tr.

Definition PickPeer (p : PeerPicker) (key : string) : M (option PeerGetter) :=
  λ g tr, emit (p tr key) (EvPickPeer key) g tr.

Definition peer_Get (peer : PeerGetter) (req : Request)
    : M (Response * option error) := λ g tr,
  emit (peer tr req) (EvPeerGet req) g tr.

Definition mainCache_get (key : string) (now : LRU.Time) : M (option ByteView) :=
  λ g tr,
  let '(c, v) := cache_get (mainCache g) key now in
  (Some (v, with_mainCache g c), tr).

Definition mainCache_add (key : string) (value : ByteView) (ttl : LRU.Duration)
    (now : LRU.Time) : M unit := λ g tr,
  match cache_add (mainCache g) key value ttl now with
  | Some c => (Some ((), with_mainCache g c), tr)
  | None => (None, tr)
  end.

(** A statement of [singleflight.Group.Do] on the loader. *)
Definition on_loader
    (f : Singleflight.Group ByteView → Singleflight.Group ByteView) : M unit :=
  λ g tr, (Some ((), with_loader g (f (loader g))), tr).

(** [g.mu.Lock()] on the loader, by the one thread there is: it does not
    return when the mutex is taken. *)
Definition loader_Lock : M unit := λ g tr,
  match Singleflight.Lock 0 (loader g) with
  | Some l => (Some ((), with_loader g l), tr)
  | None => (None, tr)
  end.

(** [c.wg.Wait()]: it does not return when the counter is not zero, as no
    other thread is there to bring it down. *)
Definition loader_Wait (c : nat) : M unit := λ g tr,
  if Singleflight.waited (loader g) c then (Some ((), g), tr) else (None, tr).

(** [singleflight.Group.Do] for a caller that runs alone: the statements
    of [Do] in their order.  The function [fn] is a closure: it is given
    the variables it captures and returns them as it leaves them. *)
Definition loader_Do {X} (key : string)
    (fn : X → M (Singleflight.result ByteView * X)) (x : X)
    : M (Singleflight.result ByteView * X) :=
  loader_Lock;;
  on_loader Singleflight.init_m;;
  g ← this;
  match Singleflight.lookup (loader g) key with
  | Some c =>
      on_loader Singleflight.Unlock;;
      loader_Wait c;;
      g ← this;
      mret (Singleflight.read (loader g) c, x)
  | None =>
      let c := (Singleflight.new_call (loader g)).1 in
      on_loader (λ l, (Singleflight.new_call l).2);;
      on_loader (λ l, Singleflight.install l key c);;
      on_loader Singleflight.Unlock;;
      '(r, x) ← fn x;
      on_loader (λ l, Singleflight.assign l c r);;
      on_loader (λ l, Singleflight.Done l c);;
      loader_Lock;;
      on_loader (λ l, Singleflight.delete_key l key);;
      on_loader Singleflight.Unlock;;
      g ← this;
      mret (Singleflight.read (loader g) c, x)
  end.

(** [NewGroup] without the registry and the sweeper it starts: [None]
    is the panic on a [nil] getter. *)
Definition NewGroup (name : string) (cacheBytes : Z) (getter : option Getter)
    : option Group :=
  match getter with
  | None => None
  | Some getter =>
      Some {| name := name;
              getter := getter;
              mainCache := mkcache cacheBytes None;
              peers := None;
              loader := Singleflight.zero |}
  end.

(** [RegisterPeers]: [None] is the panic on a second call. *)
Definition RegisterPeers (g : Group) (p : PeerPicker) : option Group :=
  match peers g with
  | Some _ => None
  | None => Some (mkGroup (name g) (getter g) (mainCache g) (Some p) (loader g))
  end.

(** [now] is the reading of [time.Now()] in the store. *)
Definition populateCache (key : string) (value : ByteView) (now : LRU.Time)
    : M unit :=
  mainCache_add key value 0 now.

(** The method [Set]. *)
Definition Group_Set (key : string) (value : string) (ttl : LRU.Duration)
    (now : LRU.Time) : M unit :=
  let view := mkByteView (cloneBytes value) in
  mainCache_add key view ttl now.

Definition getLocally (key : string) (now : LRU.Time)
    : M (ByteView * option error) :=
  '(bytes, err) ← getter_Get key;
  match err with
  | Some e => mret (mkByteView "", Some e)
  | None =>
      let value := mkByteView (cloneBytes bytes) in
      populateCache key value now;;
      mret (value, None)
  end.

Definition getFromPeer (peer : PeerGetter) (key : string)
    : M (ByteView * option error) :=
  g ← this;
  let req := mkRequest (name g) key in
  '(res, err) ← peer_Get peer req;
  match err with
  | Some e => mret (mkByteView "", Some e)
  | None => mret (mkByteView (Response_Value res), None)
  end.

(** The results [value] and [err] of [load]: the function that [load]
    hands to [Do] captures and assigns them. *)
Definition load_vars : Type := ByteView * option error.

(** The function literal in [load]. *)
Definition load_fn (key : string) (now : LRU.Time) (vars : load_vars)
    : M (Singleflight.result ByteView * load_vars) :=
  g ← this;
  let locally (vars : load_vars) : M (Singleflight.result ByteView * load_vars) :=
    '(v, e) ← getLocally key now;
    mret ((Some v, e), vars) in
  match peers g with
  | Some p =>
      peer ← PickPeer p key;
      match peer with
      | Some peer =>
          vars ← getFromPeer peer key;
          match vars.2 with
          | None => mret ((Some vars.1, None), vars)
          | Some e =>
              log_Println ("[GeeCache] Failed to get from peer " +:+ e);;
              locally vars
          end
      | None => locally vars
      end
  | None => locally vars
  end.

(** [load]: [value] and [err] are zero at entry.  [viewi, err := Do(...)]
    assigns [err]; [value] is as the function literal left it.  A
    [viewi] that holds no [ByteView] makes the type assertion panic. *)
Definition load (key : string) (now : LRU.Time) : M (ByteView * option error) :=
  '((viewi, err), (value, _)) ←
      loader_Do key (load_fn key now) (mkByteView "", None);
  match err with
  | None =>
      match viewi with
      | Some view => mret (view, None)
      | None => stuck
      end
  | Some e => mret (value, Some e)
  end.

Definition Get (key : string) (now : LRU.Time) : M (ByteView * option error) :=
  if decide (key = "") then mret (mkByteView "", Some "key is required")
  else
    v ← mainCache_get key now;
    match v with
    | Some v =>
        log_Println "[GeeCache] hit";;
        mret (v, None)
    | None => load key now
    end.

(** *** A group between two calls *)

(** No call is in flight and the mutex is free. *)
Definition at_rest (l : Singleflight.Group ByteView) : Prop :=
  Singleflight.mu l = None ∧ ∀ k, Singleflight.lookup l k = None.

(** The loader while the function handed to [Do] runs. *)
Definition flying (l : Singleflight.Group ByteView) (key : string)
    : Singleflight.Group ByteView :=
  Singleflight.mkGroup None
    (Some (<[key := length (Singleflight.calls l)]> (default ∅ (Singleflight.m l))))
    (Singleflight.calls l ++ [Singleflight.mkCall 1 None None]).

(** The loader after the call. *)
Definition landed (l : Singleflight.Group ByteView) (key : string)
    (r : Singleflight.result ByteView) : Singleflight.Group ByteView :=
  Singleflight.mkGroup None
    (Some (delete key (<[key := length (Singleflight.calls l)]>
                         (default ∅ (Singleflight.m l)))))
    (Singleflight.calls l ++ [Singleflight.mkCall 0 r.1 r.2]).

Definition peer_failed (e : error) : event :=
  EvLog ("[GeeCache] Failed to get from peer " +:+ e).

(** The load of [key] goes to the local data source: no picker is
    registered, or the picker names no peer, or the peer fails.  The
    result is the events made when the getter is reached. *)
Definition local_load (g : Group) (tr : list event) (key : string)
    : option (list event) :=
  match peers g with
  | None => Some tr
  | Some p =>
      match p tr key with
      | None => Some (tr ++ [EvPickPeer key])
      | Some peer =>
          let req := mkRequest (name g) key in
          match (peer (tr ++ [EvPickPeer key]) req).2 with
          | None => None
          | Some e => Some (tr ++ [EvPickPeer key; EvPeerGet req; peer_failed e])
          end
      end
  end.

(** The load of [key] is answered by a remote peer, with this
    response. *)
Definition remote_load (g : Group) (tr : list event) (key : string)
    : option Response :=
  match peers g with
  | None => None
  | Some p =>
      match p tr key with
      | None => None
      | Some peer =>
          let req := mkRequest (name g) key in
          match peer (tr ++ [EvPickPeer key]) req with
          | (res, None) => Some res
          | (_, Some _) => None
          end
      end
  end.

(** A group between two calls: the loader is at rest, and no key has two
    elements in the store. *)
Definition group_ok (g : Group) : Prop :=
  at_rest (loader g) ∧ NoDup (LRU.keys_of (store_of (mainCache g))).

(** The store of the group's cache has been reached from a fresh one by
    [ops]. *)
Definition cache_reached (ops : list (LRU.op ByteView)) (c : cache) : Prop :=
  LRU.run ops (LRU.New (cacheBytes c) false) = Some (store_of c).

(** An entry of these bytes fits the cache. *)
Definition fits (c : cache) (key bytes : string) : Prop :=
  cacheBytes c = 0 ∨ LRU.len key + ByteView_Len (mkByteView bytes) ≤ cacheBytes c.

(** *** Groups used as examples *)

(** A data source that fails, one that answers, a peer that answers. *)
Definition failing_getter : Getter := λ _ _, ("", Some "boom").
Definition local_getter : Getter := λ _ key, ("local:" +:+ key, None).
Definition remote_peer : PeerGetter := λ _ _, (mkResponse "remote", None).
Definition remote_picker : PeerPicker := λ _ _, Some remote_peer.

(** A fresh group without peers, and one with a peer for every key. *)
Definition fresh_group (getter : Getter) : Group :=
  mkGroup "scores" getter (mkcache 1024 None) None Singleflight.zero.
Definition peered_group (getter : Getter) : Group :=
  mkGroup "scores" getter (mkcache 1024 None) (Some remote_picker)
          Singleflight.zero.

(** A peer that fails, and a group that picks it for every key. *)
Definition broken_peer : PeerGetter := λ _ _, (mkResponse "", Some "down").
Definition broken_picker : PeerPicker := λ _ _, Some broken_peer.
Definition broken_group (getter : Getter) : Group :=
  mkGroup "scores" getter (mkcache 1024 None) (Some broken_picker)
          Singleflight.zero.

(** The group after [Set("k", "old", 10)] at time 100. *)
Definition after_Set (g : Group) : Group :=
  match Group_Set "k" "old" 10 100 g [] with
  | (Some (_, g'), _) => g'
  | _ => g
  end.

Definition group_after (r : option ((ByteView * option error) * Group) * list event)
    (g : Group) : Group :=
  match r with
  | (Some (_, g'), _) => g'
  | _ => g
  end.

End GeeCache.

Module ConsistentHashProofs.
Import ConsistentHash.

(** *** Binary search *)

Section search.
Variables (n : nat) (f : nat → bool).
Hypothesis f_mono : ∀ x y : nat, (x ≤ y)%nat → (y < n)%nat → f x = true → f y = true.

Lemma search_loop_spec fuel i j :
  (j - i ≤ fuel)%nat → (i ≤ j)%nat → (j ≤ n)%nat →
  (∀ x, (x < i)%nat → f x = false) →
  (∀ x, (j ≤ x)%nat → (x < n)%nat → f x = true) →
  let r := search_loop fuel f i j in
  (r ≤ n)%nat ∧ (∀ x, (x < r)%nat → f x = false) ∧
  (∀ x, (r ≤ x)%nat → (x < n)%nat → f x = true).
Proof.
  revert i j. induction fuel as [|fuel IH]; intros i j Hfuel Hij Hjn Hlo Hhi; cbn [search_loop].
  - assert (i = j) as -> by lia. auto.
  - case_decide as Hlt; [|assert (i = j) as -> by lia; auto].
    pose proof (Nat.div_mod_eq (i + j) 2) as Hdm.
    pose proof (Nat.mod_upper_bound (i + j) 2 ltac:(lia)) as Hm.
    set (h := ((i + j) `div` 2)%nat) in *.
    destruct (f h) eqn:Hfh; cbn [negb].
    + apply IH; [lia..| |]; auto.
      intros x Hx Hxn. destruct (decide (j ≤ x)%nat); [auto|].
      apply (f_mono h x); [lia|lia|done].
    + apply IH; [lia..| |]; auto.
      intros x Hx. destruct (decide (x < i)%nat); [auto|].
      destruct (f x) eqn:Hfx; [|done].
      rewrite (f_mono x h) in Hfh; [done|lia|lia|done].
Qed.

Lemma Search_spec :
  let r := Search n f in
  (r ≤ n)%nat ∧ (∀ x, (x < r)%nat → f x = false) ∧
  (∀ x, (r ≤ x)%nat → (x < n)%nat → f x = true).
Proof.
  apply search_loop_spec; [lia..| |]; intros; lia.
Qed.
End search.

(** *** Sorted slices *)

Lemma StronglySorted_lookup_le (l : list Z) (i j : nat) (a b : Z) :
  StronglySorted Z.le l → (i ≤ j)%nat → l !! i = Some a → l !! j = Some b → a ≤ b.
Proof.
  intros Hs. revert i j. induction Hs as [|x l Hs IH Hall]; intros i j Hij Hi Hj.
  - done.
  - destruct i as [|i], j as [|j]; simplify_eq/=; try lia.
    + rewrite Forall_forall in Hall. apply Hall. by eapply list_elem_of_lookup_2.
    + eapply IH; [|done..]. lia.
Qed.

Lemma sort_Ints_sorted l : StronglySorted Z.le (sort_Ints l).
Proof. apply StronglySorted_merge_sort; apply _. Qed.

Lemma elem_of_sort_Ints l p : p ∈ sort_Ints l ↔ p ∈ l.
Proof. unfold sort_Ints. by rewrite merge_sort_Permutation. Qed.

(** *** The position that owns a hash *)

Lemma owner_unique ks h p1 p2 : owner ks h p1 → owner ks h p2 → p1 = p2.
Proof.
  intros [Hp1 [[H1 H1']|[H1 H1']]] [Hp2 [[H2 H2']|[H2 H2']]].
  - pose proof (H1' _ Hp2 H2). pose proof (H2' _ Hp1 H1). lia.
  - pose proof (H2 _ Hp1). lia.
  - pose proof (H1 _ Hp2). lia.
  - pose proof (H1' _ Hp2). pose proof (H2' _ Hp1). lia.
Qed.

Lemma owner_subset ks ks' h p :
  (∀ q, q ∈ ks → q ∈ ks') → p ∈ ks → owner ks' h p → owner ks h p.
Proof.
  intros Hsub Hp [_ [[H1 H2]|[H1 H2]]]; (split; [done|]); [left|right]; naive_solver.
Qed.

Lemma Get_position_owner ks h :
  StronglySorted Z.le ks → ks ≠ [] → owner ks h (Get_position ks h).
Proof.
  intros Hs Hne. unfold Get_position.
  set (f := λ i : nat, bool_decide (h ≤ ks !!! i)).
  assert (0 < length ks)%nat as Hlen by (destruct ks; simpl; [done|lia]).
  assert (∀ i, (i < length ks)%nat → ks !! i = Some (ks !!! i)) as Hlk.
  { intros i Hi. by apply list_lookup_lookup_total_lt. }
  destruct (Search_spec (length ks) f) as (Hr & Hlo & Hhi).
  { intros x y Hxy Hy. unfold f. rewrite !bool_decide_eq_true. intros Hx.
    pose proof (StronglySorted_lookup_le ks x y _ _ Hs Hxy
                  (Hlk x ltac:(lia)) (Hlk y Hy)). lia. }
  set (r := Search (length ks) f) in *.
  destruct (decide (r < length ks)%nat) as [Hlt|Hge].
  - rewrite Nat.mod_small by done. split.
    + eapply list_elem_of_lookup_2, Hlk, Hlt.
    + left. split.
      * specialize (Hhi r ltac:(lia) Hlt). unfold f in Hhi.
        by apply bool_decide_eq_true in Hhi.
      * intros q [x Hx]%list_elem_of_lookup_1 Hq.
        pose proof (lookup_lt_Some _ _ _ Hx) as Hxn.
        destruct (decide (x < r)%nat) as [Hxr|Hxr].
        -- specialize (Hlo x Hxr). unfold f in Hlo.
           apply bool_decide_eq_false in Hlo.
           rewrite (list_lookup_total_correct _ _ _ Hx) in Hlo. lia.
        -- eapply (StronglySorted_lookup_le ks r x); [done| |by apply Hlk|done]. lia.
  - assert (r = length ks) as -> by lia.
    rewrite Nat.Div0.mod_same. split.
    + eapply list_elem_of_lookup_2, Hlk, Hlen.
    + right. split.
      * intros q [x Hx]%list_elem_of_lookup_1.
        pose proof (lookup_lt_Some _ _ _ Hx) as Hxn.
        specialize (Hlo x Hxn). unfold f in Hlo.
        apply bool_decide_eq_false in Hlo.
        rewrite (list_lookup_total_correct _ _ _ Hx) in Hlo. lia.
      * intros q [x Hx]%list_elem_of_lookup_1.
        eapply (StronglySorted_lookup_le ks 0 x); [done| |by apply Hlk|done]. lia.
Qed.

Lemma ring_Get_unfold m key :
  Get m key =
    if decide (keys m = []) then ""
    else default "" (hashMap m !! Get_position (keys m) (hash m key)).
Proof.
  unfold Get, Get_position.
  destruct (keys m) as [|k ks]; simpl; [done|].
  repeat case_decide; done.
Qed.

(** *** What [Add] does to the ring *)

Lemma add_replicas_fields key (idxs : list nat) m :
  let m' := foldl (add_replica key) m idxs in
  hash m' = hash m ∧ replicas m' = replicas m ∧
  keys m' = keys m ++ ((λ i, hash m (Itoa i +:+ key)) <$> idxs) ∧
  ∀ p, hashMap m' !! p =
       if decide (p ∈ (λ i, hash m (Itoa i +:+ key)) <$> idxs) then Some key
       else hashMap m !! p.
Proof.
  revert m. induction idxs as [|i idxs IH]; intros m; simpl.
  - rewrite app_nil_r. do 3 (split; [done|]).
    done.
  - destruct (IH (add_replica key m i)) as (Hh & Hr & Hk & Hm).
    simpl in *. rewrite Hh, Hr, Hk, <- app_assoc. do 3 (split; [done|]).
    intros p. rewrite Hm. clear.
    rewrite lookup_insert.
    repeat case_decide; try done; exfalso;
      rewrite ?elem_of_cons in *; naive_solver.
Qed.

Lemma add_node_fields m key :
  let m' := add_node m key in
  hash m' = hash m ∧ replicas m' = replicas m ∧
  keys m' = keys m ++ positions m key ∧
  ∀ p, hashMap m' !! p =
       if decide (p ∈ positions m key) then Some key else hashMap m !! p.
Proof. apply add_replicas_fields. Qed.

Lemma add_node_mapped m key : mapped m → mapped (add_node m key).
Proof.
  intros Hm p. destruct (add_node_fields m key) as (_ & _ & -> & ->).
  rewrite elem_of_app. intros [Hp|Hp]; case_decide; naive_solver.
Qed.

Lemma add_nodes_mapped ks m : mapped m → mapped (foldl add_node m ks).
Proof.
  revert m. induction ks as [|k ks IH]; intros m Hm; simpl; [done|].
  by apply IH, add_node_mapped.
Qed.

Lemma Add_ok m ks : mapped m → ring_ok (Add m ks).
Proof.
  intros Hm. split; simpl.
  - apply sort_Ints_sorted.
  - intros p. unfold Add; simpl. rewrite elem_of_sort_Ints.
    by apply add_nodes_mapped.
Qed.

Lemma New_ok replicas fn : ring_ok (New replicas fn).
Proof. split; simpl; [constructor|]. intros p Hp. by apply elem_of_nil in Hp. Qed.

Lemma ring_snoc replicas fn adds ks :
  ring replicas fn (adds ++ [ks]) = Add (ring replicas fn adds) ks.
Proof. unfold ring. by rewrite foldl_snoc. Qed.

Lemma ring_is_ok replicas fn adds : ring_ok (ring replicas fn adds).
Proof.
  induction adds as [|ks adds IH] using rev_ind.
  - apply New_ok.
  - rewrite ring_snoc. apply Add_ok, IH.
Qed.

Lemma Get_ok m key :
  ring_ok m →
  (keys m = [] → Get m key = "") ∧
  (keys m ≠ [] →
   ∃ p, owner (keys m) (hash m key) p ∧ hashMap m !! p = Some (Get m key)).
Proof.
  intros [Hs Hm]. rewrite ring_Get_unfold. split; intros Hk; case_decide; try done.
  exists (Get_position (keys m) (hash m key)).
  pose proof (Get_position_owner _ (hash m key) Hs Hk) as Ho. split; [done|].
  destruct (Hm _ (proj1 Ho)) as [s ->]. done.
Qed.

(** C6.  On every ring state (any calls of [Add] after [New]) and every
    key: [Get] on a ring without positions returns the empty identity;
    otherwise it returns the node mapped at the smallest stored position
    that is at least [hash key], or, when no stored position is at least
    [hash key], the node mapped at the smallest stored position. *)
Theorem Get_returns_owner replicas fn adds key :
  let m := ring replicas fn adds in
  let h := hash m key in
  (keys m = [] → Get m key = "") ∧
  (keys m ≠ [] →
   ∃ p, p ∈ keys m ∧ hashMap m !! p = Some (Get m key) ∧
        ((h ≤ p ∧ ∀ q, q ∈ keys m → h ≤ q → p ≤ q) ∨
         ((∀ q, q ∈ keys m → q < h) ∧ ∀ q, q ∈ keys m → p ≤ q))).
Proof.
  intros m h. destruct (Get_ok m key (ring_is_ok _ _ _)) as [He Hn].
  split; [done|]. intros Hk. destruct (Hn Hk) as (p & [Hp Ho] & Hg).
  exists p. auto.
Qed.

(** C7, as the specification states it, fails: on that ring the key
    "27" is past every stored position, wraps to position 2 and is
    answered by node "2", not by "4". *)
Lemma test_ring_27_not_4 :
  ¬ (Get test_ring "2" = "2" ∧ Get test_ring "11" = "2" ∧
     Get test_ring "27" = "4").
Proof. vm_compute. intros (_ & _ & H). discriminate H. Qed.

(** C7, amended.  With replicas = 3, the decimal hash and the nodes "6",
    "4", "2" added in that order, [Get "2"] and [Get "11"] return "2" and
    [Get "27"] wraps around to the first position and returns "2". *)
Theorem test_ring_Get :
  Get test_ring "2" = "2" ∧ Get test_ring "11" = "2" ∧
  Get test_ring "27" = "2".
Proof. vm_compute. done. Qed.

Lemma Add_one_fields m n :
  hash (Add m [n]) = hash m ∧
  (∀ q, q ∈ keys (Add m [n]) ↔ q ∈ keys m ∨ q ∈ positions m n) ∧
  ∀ p, hashMap (Add m [n]) !! p =
       if decide (p ∈ positions m n) then Some n else hashMap m !! p.
Proof.
  destruct (add_node_fields m n) as (Hh & _ & Hk & Hm).
  unfold Add; simpl. split; [done|]. split; [|done].
  intros q. by rewrite elem_of_sort_Ints, Hk, elem_of_app.
Qed.

(** C8.  On every ring state [R], for every node [n] and every key:
    [Get] after [Add n] returns what [Get] returned on [R], or [n]. *)
Theorem Add_moves_keys_to_new_node_only replicas fn adds n key :
  let R := ring replicas fn adds in
  Get (Add R [n]) key = Get R key ∨ Get (Add R [n]) key = n.
Proof.
  intros R.
  pose proof (ring_is_ok replicas fn adds) as HR. fold R in HR.
  pose proof (Add_ok R [n] (proj2 HR)) as HR'.
  destruct (Add_one_fields R n) as (Hh & Hk & Hm).
  destruct (Get_ok _ key HR') as [He' Hn'].
  destruct (Get_ok _ key HR) as [He Hn].
  destruct (decide (keys (Add R [n]) = [])) as [Hk'|Hk'].
  - left. rewrite He' by done. symmetry. apply He.
    destruct (keys R) as [|q qs] eqn:Hq; [done|].
    assert (q ∈ keys (Add R [n])) as Hin by (apply Hk; left; set_solver).
    rewrite Hk' in Hin. by apply elem_of_nil in Hin.
  - destruct (Hn' Hk') as (p' & Ho' & Hg'). rewrite Hm, Hh in *.
    case_decide as Hp'; [right; congruence|left].
    assert (p' ∈ keys R) as Hin.
    { destruct Ho' as [Hin _]. apply Hk in Hin. naive_solver. }
    assert (keys R ≠ []) as HkR.
    { intros Heq. rewrite Heq in Hin. by apply elem_of_nil in Hin. }
    destruct (Hn HkR) as (p & Ho & Hg).
    assert (p = p') as ->.
    { eapply owner_unique; [done|]. eapply owner_subset; [|done..].
      intros q Hq. apply Hk. by left. }
    congruence.
Qed.

(** *** The ring under [Add] *)

Lemma sort_Ints_Permutation l1 l2 : l1 ≡ₚ l2 → sort_Ints l1 = sort_Ints l2.
Proof.
  intros Hp. apply (StronglySorted_unique Z.le); [apply sort_Ints_sorted..|].
  unfold sort_Ints. by rewrite !merge_sort_Permutation.
Qed.

Lemma positions_same m1 m2 n :
  hash m1 = hash m2 → replicas m1 = replicas m2 → positions m1 n = positions m2 n.
Proof. unfold positions. by intros -> ->. Qed.

Lemma add_node_hashMap m n :
  hashMap (add_node m n) = foldr (λ p mp, <[p := n]> mp) (hashMap m) (reverse (positions m n)).
Proof.
  unfold add_node, positions.
  generalize (seq 0 (Z.to_nat (replicas m))). intros idxs.
  assert (∀ m0, hash m0 = hash m →
            hashMap (foldl (add_replica n) m0 idxs) =
            foldr (λ p mp, <[p := n]> mp) (hashMap m0)
                  (reverse ((λ i, hash m (Itoa i +:+ n)) <$> idxs))) as H;
    [|by apply H].
  induction idxs as [|i idxs IH]; intros m0 Hh; simpl; [done|].
  rewrite IH by done. rewrite reverse_cons, foldr_app. simpl. by rewrite Hh.
Qed.

Lemma add_node_same m1 m2 n :
  same_ring m1 m2 → same_ring (add_node m1 n) (add_node m2 n).
Proof.
  intros (Hh & Hr & Hm & Hk).
  destruct (add_node_fields m1 n) as (Hh1 & Hr1 & Hk1 & _).
  destruct (add_node_fields m2 n) as (Hh2 & Hr2 & Hk2 & _).
  split; [congruence|]. split; [congruence|]. split.
  - rewrite !add_node_hashMap, Hm. by rewrite (positions_same m1 m2).
  - rewrite Hk1, Hk2, (positions_same m1 m2) by done. by rewrite Hk.
Qed.

Lemma add_nodes_same ks : ∀ m1 m2,
  same_ring m1 m2 → same_ring (foldl add_node m1 ks) (foldl add_node m2 ks).
Proof.
  induction ks as [|n ks IH]; intros m1 m2 H; simpl; [done|].
  by apply IH, add_node_same.
Qed.

Lemma Add_same m ks : same_ring (Add m ks) (foldl add_node m ks).
Proof.
  unfold Add, same_ring. simpl. do 3 (split; [done|]).
  unfold sort_Ints. apply merge_sort_Permutation.
Qed.

(** X9.  Adding nodes in two calls of [Add] gives the same map as adding
    them in one call. *)
Theorem Add_in_two_calls_is_Add_in_one m ks1 ks2 :
  Add (Add m ks1) ks2 = Add m (ks1 ++ ks2).
Proof.
  pose proof (add_nodes_same ks2 _ _ (Add_same m ks1)) as (Hh & Hr & Hm & Hk).
  unfold Add at 1 3. rewrite foldl_app.
  rewrite Hh, Hr, Hm. f_equal. by apply sort_Ints_Permutation.
Qed.

Lemma add_nodes_fields ks : ∀ m,
  let m' := foldl add_node m ks in
  hash m' = hash m ∧ replicas m' = replicas m ∧
  length (keys m') = (length (keys m) + Z.to_nat (replicas m) * length ks)%nat ∧
  ∀ ns, nodes_in m ns → nodes_in m' (ns ++ ks).
Proof.
  induction ks as [|n ks IH]; intros m; simpl.
  - do 2 (split; [done|]). split; [lia|]. intros ns. by rewrite app_nil_r.
  - destruct (IH (add_node m n)) as (Hh & Hr & Hl & Hn).
    destruct (add_node_fields m n) as (Hh1 & Hr1 & Hk1 & Hm1).
    split; [congruence|]. split; [congruence|]. split.
    + rewrite Hl, Hr1, Hk1, length_app. unfold positions.
      rewrite length_fmap, length_seq. lia.
    + intros ns Hns. rewrite (assoc_L _ ns [n] ks : ns ++ n :: ks = (ns ++ [n]) ++ ks).
      apply Hn. intros p n'. rewrite Hm1. case_decide.
      * intros [= <-]. set_solver.
      * intros ?%Hns. set_solver.
Qed.

Lemma ring_fields replicas fn adds :
  let m := ring replicas fn adds in
  hash m = default ChecksumIEEE fn ∧ ConsistentHash.replicas m = replicas ∧
  length (keys m) = (Z.to_nat replicas * length (concat adds))%nat ∧
  nodes_in m (concat adds).
Proof.
  induction adds as [|ks adds IH] using rev_ind.
  - simpl. do 2 (split; [done|]). split; [lia|]. intros p n. simpl.
    by rewrite lookup_empty.
  - rewrite ring_snoc. destruct IH as (Hh & Hr & Hl & Hn).
    destruct (add_nodes_fields ks (ring replicas fn adds)) as (Hh' & Hr' & Hl' & Hn').
    unfold Add. simpl. split; [congruence|]. split; [congruence|]. split.
    + unfold sort_Ints. rewrite merge_sort_Permutation, Hl', Hl, Hr.
      rewrite concat_app, length_app. simpl. rewrite app_nil_r. lia.
    + rewrite concat_app. simpl. rewrite app_nil_r. by apply Hn'.
Qed.

(** X10.  After [New] and any calls of [Add], the keys are sorted, and
    there are [replicas] of them for every node added, a node added twice
    counted twice. *)
Theorem ring_keys_are_sorted_and_counted replicas fn adds :
  let m := ring replicas fn adds in
  StronglySorted Z.le (keys m) ∧
  length (keys m) = (Z.to_nat replicas * length (concat adds))%nat.
Proof.
  intros m. split; [apply ring_is_ok|apply ring_fields].
Qed.

(** X11.  With [replicas > 0] and at least one node added, [Get] returns
    one of the nodes added, for every key. *)
Theorem Get_returns_an_added_node replicas fn adds key :
  0 < replicas → concat adds ≠ [] →
  Get (ring replicas fn adds) key ∈ concat adds.
Proof.
  intros Hr Hne.
  destruct (ring_fields replicas fn adds) as (_ & _ & Hl & Hn).
  destruct (Get_ok (ring replicas fn adds) key (ring_is_ok _ _ _)) as [_ Hg].
  destruct Hg as (p & _ & Hp).
  - intros Hk. rewrite Hk in Hl. simpl in Hl.
    destruct (concat adds); [done|]. simpl in Hl. lia.
  - by eapply Hn.
Qed.

(** X12.  With [replicas <= 0], [Add] adds no position and [Get] returns
    the empty string for every key. *)
Theorem ring_without_replicas_answers_nothing replicas fn adds key :
  replicas ≤ 0 →
  keys (ring replicas fn adds) = [] ∧ Get (ring replicas fn adds) key = "".
Proof.
  intros Hr. destruct (ring_fields replicas fn adds) as (_ & _ & Hl & _).
  assert (keys (ring replicas fn adds) = []) as Hk.
  { apply length_zero_iff_nil. rewrite Hl. replace (Z.to_nat replicas) with 0%nat by lia. done. }
  split; [done|].
  by destruct (Get_ok (ring replicas fn adds) key (ring_is_ok _ _ _)) as [-> _].
Qed.

(** X13.  A key whose hash is a stored position is answered by the node
    at that position. *)
Theorem Get_at_a_stored_position replicas fn adds key :
  let m := ring replicas fn adds in
  hash m key ∈ keys m → hashMap m !! hash m key = Some (Get m key).
Proof.
  intros m Hin.
  destruct (Get_ok m key (ring_is_ok _ _ _)) as [_ Hg].
  destruct Hg as (p & [Hp Ho] & Hm).
  - intros Hk. rewrite Hk in Hin. by apply elem_of_nil in Hin.
  - assert (p = hash m key) as <-; [|done].
    destruct Ho as [[H1 H2]|[H1 _]].
    + pose proof (H2 _ Hin). lia.
    + pose proof (H1 _ Hin). lia.
Qed.

(** X11 on the ring of the nodes "6", "4", "2". *)
Lemma Get_returns_an_added_node_witness :
  0 < 3 ∧ concat [["6"; "4"; "2"]] ≠ [] ∧
  Get (ring 3 (Some atoi_hash) [["6"; "4"; "2"]]) "27" ∈ concat [["6"; "4"; "2"]].
Proof.
  split; [lia|]. split; [done|].
  apply (Get_returns_an_added_node 3 (Some atoi_hash) [["6"; "4"; "2"]] "27");
    [lia|done].
Defined.

(** X12 on a ring made with no replicas. *)
Lemma ring_without_replicas_answers_nothing_witness :
  0 ≤ 0 ∧ keys (ring 0 None [["a"; "b"]]) = [] ∧ Get (ring 0 None [["a"; "b"]]) "k" = "".
Proof.
  split; [lia|].
  apply (ring_without_replicas_answers_nothing 0 None [["a"; "b"]] "k"). lia.
Defined.

(** X13 on the ring of the nodes "6", "4", "2": the key "14" hashes to
    the second position of node "4". *)
Lemma Get_at_a_stored_position_witness :
  hash test_ring "14" ∈ keys test_ring ∧
  hashMap test_ring !! hash test_ring "14" = Some (Get test_ring "14").
Proof.
  assert (hash test_ring "14" ∈ keys test_ring) as Hin.
  { apply (bool_decide_unpack _). vm_compute. exact I. }
  split; [exact Hin|].
  exact (Get_at_a_stored_position 3 (Some atoi_hash) [["6"; "4"; "2"]] "14" Hin).
Defined.

End ConsistentHashProofs.

Lemma wrap64_id x : min_int64 ≤ x ≤ max_int64 → wrap64 x = x.
Proof.
  unfold wrap64, min_int64, max_int64. intros H.
  rewrite Z.mod_small by lia. lia.
Qed.

Module LRUProofs.
Import LRU.

(** *** The heap of expiry items *)

Section heap.
Import ExpireHeap.

Implicit Types (h : ExpireHeap.t) (i j k n : nat) (x : expireItem).

Lemma parent_lt k : (0 < k)%nat → (parent k < k)%nat.
Proof. unfold parent. intros. pose proof (Nat.div_mod_eq (k - 1) 2). pose proof (Nat.mod_upper_bound (k - 1) 2). lia. Qed.

Lemma parent_children k i :
  (0 < k)%nat → parent k = i ↔ k = (2 * i + 1)%nat ∨ k = (2 * i + 2)%nat.
Proof.
  unfold parent. intros Hk.
  pose proof (Nat.div_mod_eq (k - 1) 2) as Hd.
  pose proof (Nat.mod_upper_bound (k - 1) 2). lia.
Qed.

Lemma Swap_length h i j : length (Swap h i j) = length h.
Proof. unfold Swap, ExpireHeap.t. by rewrite !length_insert. Qed.

Lemma Swap_lookup h i j k :
  (i < length h)%nat → (j < length h)%nat →
  Swap h i j !!! k =
    if decide (k = i) then h !!! j else if decide (k = j) then h !!! i else h !!! k.
Proof.
  intros Hi Hj. unfold Swap, ExpireHeap.t in *. case_decide as Hki.
  - subst. apply list_lookup_total_insert_eq. by rewrite length_insert.
  - rewrite list_lookup_total_insert_ne by done. case_decide as Hkj.
    + subst. by apply list_lookup_total_insert_eq.
    + by rewrite list_lookup_total_insert_ne.
Qed.

Lemma Swap_Permutation h i j :
  (i < length h)%nat → (j < length h)%nat → Swap h i j ≡ₚ h.
Proof.
  intros Hi Hj. apply Permutation_inj. split; [by rewrite Swap_length|].
  exists (λ k, if decide (k = i) then j else if decide (k = j) then i else k).
  split.
  - intros k1 k2. repeat case_decide; intros; simplify_eq; done.
  - intros k. destruct (decide (k < length h)%nat) as [Hk|Hk].
    + rewrite !list_lookup_lookup_total_lt;
        [|repeat case_decide; lia|by rewrite Swap_length].
      f_equal. rewrite Swap_lookup by done. repeat case_decide; simplify_eq; done.
    + rewrite !lookup_ge_None_2; [done|..].
      * repeat case_decide; lia.
      * rewrite Swap_length. lia.
Qed.

Lemma at_Swap h i j k :
  (i < length h)%nat → (j < length h)%nat →
  at_index (Swap h i j) k =
    if decide (k = i) then at_index h j
    else if decide (k = j) then at_index h i else at_index h k.
Proof. intros. unfold at_index. rewrite Swap_lookup by done. by repeat case_decide. Qed.

Lemma Less_spec h i j : Less h i j = bool_decide (at_index h i < at_index h j).
Proof. done. Qed.

(** *** [up] *)

Lemma up_loop_ok fuel : ∀ h j,
  up_ok h j → (j < fuel)%nat →
  heap_ok (Heap.up_loop fuel h j) ∧ Heap.up_loop fuel h j ≡ₚ h.
Proof.
  induction fuel as [|fuel IH]; intros h j (Hj & H1 & H2) Hf; [lia|].
  cbn [Heap.up_loop]. fold (parent j). rewrite Less_spec.
  destruct (decide (j = 0)%nat) as [->|Hj0].
  { rewrite bool_decide_eq_true_2 by done. simpl. split; [|done].
    intros k Hk. apply H1; lia. }
  assert (parent j < j)%nat as Hp by (apply parent_lt; lia).
  rewrite (bool_decide_eq_false_2 (parent j = j)) by lia. simpl.
  case_bool_decide as Hlt; simpl.
  - assert (up_ok (Swap h (parent j) j) (parent j)) as Hup.
    { split; [rewrite Swap_length; lia|]. rewrite Swap_length. split.
      - intros k Hk Hne. rewrite !at_Swap by lia.
        destruct (decide (k = j)) as [->|Hkj].
        + rewrite decide_True by done. rewrite decide_False by lia. lia.
        + rewrite (decide_False (P:=k = parent j)) by done.
          destruct (decide (parent k = parent j)) as [Hpk|Hpk].
          * specialize (H1 k Hk Hkj). rewrite Hpk in H1. lia.
          * destruct (decide (parent k = j)) as [Hpj|Hpj]; [|by apply H1].
            apply H2; [done|done|lia].
      - intros k Hk Hpk Hpos. rewrite !at_Swap by lia.
        assert (parent (parent j) < parent j)%nat by (apply parent_lt; lia).
        rewrite (decide_False (P:=parent (parent j) = parent j)) by lia.
        rewrite (decide_False (P:=parent (parent j) = j)) by lia.
        rewrite (decide_False (P:=k = parent j))
          by (pose proof (parent_lt k); lia).
        pose proof (H1 (parent j)) as Hpp.
        destruct (decide (k = j)) as [->|Hkj]; [apply Hpp; lia|].
        pose proof (H1 k Hk Hkj) as Hk1. rewrite Hpk in Hk1.
        specialize (Hpp ltac:(lia) ltac:(lia)). lia. }
    destruct (IH _ _ Hup ltac:(lia)) as [Hok Hperm].
    split; [done|]. rewrite Hperm. apply Swap_Permutation; lia.
  - split; [|done]. intros k Hk. destruct (decide (k = j)) as [->|Hkj]; [lia|].
    by apply H1.
Qed.

Lemma heap_ok_nil : heap_ok [].
Proof. intros k. simpl. lia. Qed.

Lemma at_index_app_l h x k : (k < length h)%nat → at_index (h ++ [x]) k = at_index h k.
Proof.
  intros Hk. unfold at_index. f_equal. unfold ExpireHeap.t in *.
  by rewrite lookup_total_app_l.
Qed.

Lemma Push_ok h x :
  heap_ok h → heap_ok (Heap.Push h x) ∧ Heap.Push h x ≡ₚ x :: h.
Proof.
  intros Hh. unfold Heap.Push, Heap.up, ExpireHeap.Push, Len.
  rewrite length_app. simpl.
  replace (length h + 1 - 1)%nat with (length h) by lia.
  destruct (up_loop_ok (S (length h)) (h ++ [x]) (length h)) as [Hok Hperm].
  - split; [rewrite length_app; simpl; lia|]. rewrite length_app. simpl. split.
    + intros k Hk Hne. pose proof (parent_lt k).
      rewrite !at_index_app_l by lia. apply Hh. lia.
    + intros k Hk Hpk. pose proof (parent_lt k). lia.
  - lia.
  - split; [done|]. rewrite Hperm. by rewrite Permutation_app_comm.
Qed.

Ltac swap_at :=
  rewrite ?at_Swap by lia;
  repeat first [rewrite decide_True by (first [done|lia|congruence])
               |rewrite decide_False by (first [done|lia|congruence])].

(** *** [down] *)

Lemma down_loop_ok n fuel : ∀ h i,
  down_ok h i n → (n ≤ fuel + i)%nat →
  heap_ok_upto (Heap.down_loop fuel h i n) n ∧
  Heap.down_loop fuel h i n ≡ₚ h ∧
  ∀ k, (n ≤ k)%nat → Heap.down_loop fuel h i n !!! k = h !!! k.
Proof.
  induction fuel as [|fuel IH]; intros h i (Hn & H1 & H2) Hf.
  { simpl. split; [|done]. intros k Hk. apply H1; [done|].
    pose proof (parent_lt k). lia. }
  cbn [Heap.down_loop]. case_bool_decide as Hj1; simpl.
  { split; [|done]. intros k Hk. apply H1; [done|].
    intros Hp%parent_children; lia. }
  set (j1 := (2 * i + 1)%nat) in *. set (j2 := (j1 + 1)%nat).
  set (j := if bool_decide (j2 < n)%nat && Less h j2 j1 then j2 else j1).
  assert ((j = j1 ∨ j = j2) ∧ (j < n)%nat ∧ at_index h j ≤ at_index h j1 ∧
          ((j2 < n)%nat → at_index h j ≤ at_index h j2)) as (Hj & Hjn & Hm1 & Hm2).
  { unfold j. rewrite Less_spec.
    destruct (bool_decide (j2 < n)%nat) eqn:Hb; simpl.
    - apply bool_decide_eq_true in Hb. case_bool_decide; (split; [auto|]); lia.
    - apply bool_decide_eq_false in Hb. split; [auto|]. lia. }
  assert (parent j = i) as Hpj by (apply parent_children; unfold j1, j2 in *; lia).
  assert (∀ k, (0 < k)%nat → parent k = i → k = j1 ∨ k = j2) as Hch.
  { intros k Hk Hp%parent_children; [|done]. unfold j2, j1. lia. }
  rewrite Less_spec. case_bool_decide as Hlt; simpl;
    [change (at_index h j < at_index h i) in Hlt
    |change (¬ at_index h j < at_index h i) in Hlt].
  - change (heap_ok_upto (Heap.down_loop fuel (Swap h i j) j n) n ∧
            Heap.down_loop fuel (Swap h i j) j n ≡ₚ h ∧
            ∀ k, (n ≤ k)%nat → Heap.down_loop fuel (Swap h i j) j n !!! k = h !!! k).
    assert (i < j)%nat as Hij by (unfold j1, j2 in *; lia).
    assert (down_ok (Swap h i j) j n) as Hd.
    { split; [rewrite Swap_length; lia|]. split.
      - intros k Hk Hne. pose proof (parent_lt k ltac:(lia)) as Hpk.
        destruct (decide (parent k = i)) as [Hpi|Hpi].
        + destruct (decide (k = j)) as [->|Hkj]; [swap_at; lia|].
          swap_at.
          destruct (Hch k ltac:(lia) Hpi) as [Hk1|Hk2];
            [rewrite Hk1; exact Hm1|rewrite Hk2; apply Hm2; lia].
        + destruct (decide (k = i)) as [->|Hki].
          { swap_at. apply (H2 j); [lia|done|lia]. }
          assert (k ≠ j) by congruence.
          swap_at. by apply H1.
      - intros k Hk Hpk _. pose proof (parent_lt k ltac:(lia)).
        rewrite Hpj. swap_at.
        pose proof (H1 k Hk ltac:(lia)) as Hk1. by rewrite Hpk in Hk1. }
    destruct (IH _ _ Hd ltac:(lia)) as (Hok & Hperm & Hrest).
    split; [done|]. split.
    + rewrite Hperm. apply Swap_Permutation; lia.
    + intros k Hk. rewrite Hrest by done. rewrite Swap_lookup by lia.
      rewrite !decide_False by lia. done.
  - split; [|done]. intros k Hk.
    destruct (decide (parent k = i)) as [Hpi|Hpi]; [|by apply H1].
    rewrite Hpi. destruct (Hch k ltac:(lia) Hpi) as [Hk1|Hk2].
    + rewrite Hk1. lia.
    + rewrite Hk2. rewrite Hk2 in Hk. specialize (Hm2 ltac:(lia)). lia.
Qed.

(** *** [Pop] *)

Lemma heap_ok_root h k : heap_ok h → (k < length h)%nat → at_index h 0 ≤ at_index h k.
Proof.
  intros Hh. induction k as [k IH] using lt_wf_ind. intros Hk.
  destruct (decide (k = 0)%nat) as [->|Hk0]; [lia|].
  pose proof (parent_lt k ltac:(lia)).
  specialize (IH (parent k) ltac:(lia) ltac:(lia)).
  specialize (Hh k ltac:(lia)). lia.
Qed.

Lemma Pop_ok h :
  heap_ok h → h ≠ [] →
  (Heap.Pop h).1 = h !!! 0%nat ∧
  heap_ok (Heap.Pop h).2 ∧
  h ≡ₚ (Heap.Pop h).1 :: (Heap.Pop h).2.
Proof.
  intros Hh Hne. unfold Heap.Pop, Heap.down, ExpireHeap.Pop, Len.
  assert (0 < length h)%nat as Hlen by (destruct h; simpl; [done|lia]).
  set (n := (length h - 1)%nat).
  destruct (down_loop_ok n n (Swap h 0 n) 0) as (Hok & Hperm & Hrest).
  { split; [rewrite Swap_length; lia|]. split; [|lia].
    intros k Hk Hp. pose proof (parent_lt k ltac:(lia)).
    rewrite !at_Swap by lia. rewrite !decide_False by lia. apply Hh. lia. }
  { lia. }
  set (h2 := Heap.down_loop n (Swap h 0 n) 0 n) in *.
  assert (length h2 = S n) as Hl2.
  { rewrite (Permutation_length Hperm), Swap_length. lia. }
  cbn zeta. simpl. rewrite Hl2. replace (S n - 1)%nat with n by lia.
  assert (h2 !!! n = h !!! 0%nat) as Hlast.
  { rewrite Hrest by done. rewrite Swap_lookup by lia.
    case_decide; [by subst; replace n with 0%nat by lia|].
    by rewrite decide_True. }
  split; [done|]. split.
  - intros k. rewrite length_take, Hl2. intros Hk.
    unfold at_index, ExpireHeap.t in *.
    pose proof (parent_lt k ltac:(lia)).
    rewrite !lookup_total_take. rewrite !decide_True by lia.
    apply (Hok k). lia.
  - etrans; [symmetry; apply (Swap_Permutation h 0 n); lia|].
    etrans; [symmetry; exact Hperm|].
    rewrite <- (take_drop n h2) at 1.
    rewrite Permutation_app_comm.
    assert (drop n h2 = [h2 !!! n]) as ->; [|done].
    unfold ExpireHeap.t in *.
    rewrite (drop_S h2 (h2 !!! n) n) by (apply list_lookup_lookup_total_lt; lia).
    by rewrite drop_ge by lia.
Qed.
End heap.

Section accounting.
Context {V : Type} `{!Value V}.
Implicit Types (c : Cache V) (e kv : entry V) (l : list (entry V)).

Lemma len_nonneg s : 0 ≤ len s.
Proof. unfold len. lia. Qed.

Lemma entry_bytes_nonneg e : 0 ≤ entry_bytes e.
Proof.
  unfold entry_bytes. pose proof (len_nonneg (key e)).
  pose proof (Len_nonneg (value e)). lia.
Qed.

Lemma lbytes_nonneg l : 0 ≤ lbytes l.
Proof.
  induction l as [|e l IH]; simpl; [done|].
  pose proof (entry_bytes_nonneg e). lia.
Qed.

Lemma lbytes_delete l i kv :
  l !! i = Some kv → lbytes (delete i l) = lbytes l - entry_bytes kv.
Proof.
  revert i. induction l as [|e l IH]; intros [|i] Hi; simplify_eq/=; [lia|].
  rewrite (IH _ Hi). lia.
Qed.

Lemma lbytes_lookup_le l i kv : l !! i = Some kv → entry_bytes kv ≤ lbytes l.
Proof.
  intros Hi. pose proof (lbytes_delete _ _ _ Hi).
  pose proof (lbytes_nonneg (delete i l)). lia.
Qed.

Lemma lookup_Some c k i kv :
  lookup c k = Some (i, kv) → ll c !! i = Some kv ∧ key kv = k.
Proof. unfold lookup. intros (? & ? & _)%list_find_Some. done. Qed.

Lemma accounted_mono B B' c : B ≤ B' → accounted B c → accounted B' c.
Proof. intros ? [? ?]. split; [done|lia]. Qed.

Ltac fields := unfold with_nbytes, with_ll, with_expireHeap, with_evicted; simpl.

Lemma removeElement_fields c i kv :
  ll c !! i = Some kv →
  let c' := removeElement c i in
  ll c' = delete i (ll c) ∧
  nbytes c' = wrap64 (nbytes c - wrap64 (entry_bytes kv)) ∧
  maxBytes c' = maxBytes c ∧ expireHeap c' = expireHeap c ∧
  OnEvicted c' = OnEvicted c ∧
  evicted c' = if OnEvicted c then evicted c ++ [(key kv, value kv)]
               else evicted c.
Proof.
  intros Hi. unfold removeElement. rewrite Hi. fields.
  destruct (OnEvicted c); done.
Qed.

Lemma removeElement_accounted B c i :
  B ≤ max_int64 → accounted B c → accounted B (removeElement c i).
Proof.
  intros HB [Hn Hl].
  destruct (ll c !! i) as [kv|] eqn:Hi;
    [|unfold removeElement; rewrite Hi; done].
  destruct (removeElement_fields c i kv Hi) as (Hll & Hnb & _).
  unfold accounted, live_bytes in *. rewrite Hll, Hnb, Hn.
  fold (lbytes (ll c)) in *. fold (lbytes (delete i (ll c))).
  pose proof (lbytes_delete _ _ _ Hi) as Hd.
  pose proof (lbytes_nonneg (delete i (ll c))).
  pose proof (entry_bytes_nonneg kv).
  assert (min_int64 = - max_int64 - 1 ∧ 0 ≤ max_int64) as [? ?]
    by (unfold min_int64, max_int64; lia).
  rewrite (wrap64_id (entry_bytes kv)) by lia.
  rewrite wrap64_id by lia. lia.
Qed.

Lemma RemoveOldest_accounted B c :
  B ≤ max_int64 → accounted B c → accounted B (RemoveOldest c).
Proof.
  intros. unfold RemoveOldest. destruct (ll c); [done|].
  by apply removeElement_accounted.
Qed.

Lemma RemoveOldest_maxBytes c : maxBytes (RemoveOldest c) = maxBytes c.
Proof.
  unfold RemoveOldest. destruct (ll c) as [|e l] eqn:Hl; [done|].
  unfold removeElement. destruct (ll c !! _); [|done]. fields.
  destruct (OnEvicted c); done.
Qed.

Lemma RemoveOldest_length c :
  length (ll (RemoveOldest c)) = (length (ll c) - 1)%nat.
Proof.
  unfold RemoveOldest. destruct (ll c) as [|e l] eqn:Hl; [by rewrite Hl|].
  rewrite <- Hl.
  assert (length (ll c) - 1 < length (ll c))%nat as Hlt
    by (rewrite Hl; simpl; lia).
  destruct (lookup_lt_is_Some_2 _ _ Hlt) as [kv Hkv].
  destruct (removeElement_fields c _ kv Hkv) as (-> & _).
  rewrite length_delete by eauto. done.
Qed.

(** The body of [Add] before the loop. *)
Lemma store_ll c k v ttl now :
  ∃ exp,
    ll (store c k v ttl now) =
      match lookup c k with
      | Some (i, kv) => mkEntry (key kv) v exp :: delete i (ll c)
      | None => mkEntry k v exp :: ll c
      end.
Proof.
  unfold store. eexists.
  destruct (lookup c k) as [[i kv]|]; destruct (negb _); fields; done.
Qed.

Lemma store_fields c k v ttl now :
  let c' := store c k v ttl now in
  maxBytes c' = maxBytes c ∧ OnEvicted c' = OnEvicted c ∧
  evicted c' = evicted c.
Proof.
  unfold store.
  destruct (lookup c k) as [[i kv]|]; destruct (negb _); fields; done.
Qed.

Lemma store_nbytes c k v ttl now :
  nbytes (store c k v ttl now) =
    match lookup c k with
    | Some (i, kv) => wrap64 (nbytes c + wrap64 (Len v - Len (value kv)))
    | None => wrap64 (nbytes c + wrap64 (len k + Len v))
    end.
Proof.
  unfold store.
  destruct (lookup c k) as [[i kv]|]; destruct (negb _); fields; done.
Qed.

Lemma store_accounted B c k v ttl now :
  B + (len k + Len v) ≤ max_int64 → accounted B c →
  accounted (B + (len k + Len v)) (store c k v ttl now).
Proof.
  intros HB [Hn Hl].
  pose proof (len_nonneg k). pose proof (Len_nonneg v).
  assert (min_int64 = - max_int64 - 1 ∧ 0 ≤ max_int64) as [? ?]
    by (unfold min_int64, max_int64; lia).
  unfold accounted, live_bytes in *. fold (lbytes (ll c)) in *.
  pose proof (lbytes_nonneg (ll c)).
  destruct (store_ll c k v ttl now) as [exp ->]. rewrite store_nbytes.
  destruct (lookup c k) as [[i kv]|] eqn:Hlk.
  - apply lookup_Some in Hlk as [Hi Hk].
    pose proof (lbytes_delete _ _ _ Hi) as Hd.
    pose proof (lbytes_nonneg (delete i (ll c))).
    pose proof (Len_nonneg (value kv)).
    simpl. fold (lbytes (delete i (ll c))).
    unfold entry_bytes in *. simpl. rewrite Hk in *.
    rewrite (wrap64_id (Len v - _)) by lia. rewrite wrap64_id by lia. lia.
  - simpl. fold (lbytes (ll c)). unfold entry_bytes. simpl.
    rewrite (wrap64_id (len k + _)) by lia. rewrite wrap64_id by lia. lia.
Qed.

Lemma evict_accounted B fuel c c' :
  B ≤ max_int64 → accounted B c → evict fuel c = Some c' →
  accounted B c' ∧ maxBytes c' = maxBytes c ∧
  (maxBytes c = 0 ∨ nbytes c' ≤ maxBytes c).
Proof.
  intros HB. revert c. induction fuel as [|fuel IH]; intros c Hc; simpl.
  - destruct (bool_decide (maxBytes c ≠ 0)) eqn:H0;
      destruct (bool_decide (maxBytes c < nbytes c)) eqn:H1; simpl;
      intros ?; simplify_eq; (split; [done|split; [done|]]).
    + apply bool_decide_eq_false in H1. right. lia.
    + apply bool_decide_eq_false in H0. left.
      destruct (decide (maxBytes c' = 0)); [done|]. by destruct H0.
    + apply bool_decide_eq_false in H1. right. lia.
  - destruct (bool_decide (maxBytes c ≠ 0)) eqn:H0;
      destruct (bool_decide (maxBytes c < nbytes c)) eqn:H1; simpl;
      intros Hev; simplify_eq; try (split; [done|split; [done|]]).
    + apply IH in Hev; [|by apply RemoveOldest_accounted].
      by rewrite RemoveOldest_maxBytes in Hev.
    + apply bool_decide_eq_false in H1. right. lia.
    + apply bool_decide_eq_false in H0. left.
      destruct (decide (maxBytes c' = 0)); [done|]. by destruct H0.
    + apply bool_decide_eq_false in H1. right. lia.
Qed.

(** The loop stops when the bound is not negative: an empty list has
    no bytes. *)
Lemma evict_returns B fuel c :
  B ≤ max_int64 → accounted B c → 0 ≤ maxBytes c →
  (length (ll c) < fuel)%nat → is_Some (evict fuel c).
Proof.
  intros HB. revert c. induction fuel as [|fuel IH]; intros c Hc Hmax Hlen;
    [lia|]. simpl.
  destruct (bool_decide (maxBytes c ≠ 0)) eqn:H0;
    destruct (bool_decide (maxBytes c < nbytes c)) eqn:H1; simpl; try done.
  apply bool_decide_eq_true in H1.
  destruct (ll c) as [|e l] eqn:Hl.
  - destruct Hc as [Hn _]. unfold live_bytes in Hn. rewrite Hl in Hn.
    simpl in Hn. lia.
  - apply IH.
    + by apply RemoveOldest_accounted.
    + by rewrite RemoveOldest_maxBytes.
    + rewrite RemoveOldest_length, Hl in *. simpl in *. lia.
Qed.

(** A loop that runs out of rounds never stops: the list is empty, the
    condition holds, and a further round changes nothing. *)
Lemma evict_None fuel c :
  (length (ll c) < fuel)%nat → evict fuel c = None →
  ∃ c', ll c' = [] ∧ RemoveOldest c' = c' ∧
        maxBytes c' ≠ 0 ∧ maxBytes c' < nbytes c'.
Proof.
  revert c. induction fuel as [|fuel IH]; intros c Hlen; [lia|]. simpl.
  destruct (bool_decide (maxBytes c ≠ 0)) eqn:H0;
    destruct (bool_decide (maxBytes c < nbytes c)) eqn:H1; simpl; try done.
  apply bool_decide_eq_true in H0, H1.
  destruct (ll c) as [|e l] eqn:Hl.
  - intros _. exists c. unfold RemoveOldest. rewrite Hl. done.
  - apply IH. rewrite RemoveOldest_length, Hl in *. simpl in *. lia.
Qed.

Lemma Add_accounted B c k v ttl now c' :
  B + (len k + Len v) ≤ max_int64 → accounted B c →
  Add c k v ttl now = Some c' → accounted (B + (len k + Len v)) c'.
Proof.
  intros HB Hc Hadd. unfold Add in Hadd.
  eapply evict_accounted in Hadd; [by destruct Hadd|done|].
  by apply store_accounted.
Qed.

Lemma Add_returns B c k v ttl now :
  B + (len k + Len v) ≤ max_int64 → accounted B c → 0 ≤ maxBytes c →
  is_Some (Add c k v ttl now).
Proof.
  intros HB Hc Hmax. unfold Add.
  eapply evict_returns; [done|by apply store_accounted| |lia].
  by destruct (store_fields c k v ttl now) as (-> & _).
Qed.

Lemma Get_accounted B c k now :
  B ≤ max_int64 → accounted B c → accounted B (Get c k now).1.
Proof.
  intros HB Hc. unfold Get.
  destruct (lookup c k) as [[i kv]|] eqn:Hlk; [|done].
  destruct (negb _ && _); simpl; [by apply removeElement_accounted|].
  apply lookup_Some in Hlk as [Hi _].
  destruct Hc as [Hn Hl]. unfold accounted, live_bytes in *. simpl.
  fold (lbytes (ll c)) in *. fold (lbytes (delete i (ll c))).
  rewrite (lbytes_delete _ _ _ Hi). split; lia.
Qed.

Lemma clean_accounted B fuel now c :
  B ≤ max_int64 → accounted B c → accounted B (clean fuel now c).
Proof.
  intros HB. revert c. induction fuel as [|fuel IH]; intros c Hc; simpl;
    [done|].
  destruct (bool_decide _); [|done]. destruct (After _ _); [|done].
  apply IH. destruct (lookup _ _) as [[i kv]|].
  - by apply removeElement_accounted.
  - done.
Qed.

Lemma step_accounted B c o c' :
  B + op_bytes o ≤ max_int64 → accounted B c → step c o = Some c' →
  accounted (B + op_bytes o) c'.
Proof.
  intros HB Hc. destruct o as [k v ttl now|k now| |now]; simpl in *;
    intros Hs; simplify_eq; rewrite ?Z.add_0_r in *.
  - by eapply Add_accounted.
  - by apply Get_accounted.
  - by apply RemoveOldest_accounted.
  - by apply clean_accounted.
Qed.

Lemma removeElement_maxBytes c i : maxBytes (removeElement c i) = maxBytes c.
Proof.
  unfold removeElement. destruct (ll c !! i); [|done]. fields.
  destruct (OnEvicted c); done.
Qed.

Lemma evict_maxBytes fuel c c' : evict fuel c = Some c' → maxBytes c' = maxBytes c.
Proof.
  revert c. induction fuel as [|fuel IH]; intros c; simpl;
    destruct (_ && _); intros Hev; simplify_eq; try done.
  apply IH in Hev. by rewrite RemoveOldest_maxBytes in Hev.
Qed.

Lemma clean_maxBytes fuel now c : maxBytes (clean fuel now c) = maxBytes c.
Proof.
  revert c. induction fuel as [|fuel IH]; intros c; simpl; [done|].
  destruct (bool_decide _); [|done]. destruct (After _ _); [|done].
  rewrite IH. destruct (lookup _ _) as [[i kv]|]; [|done].
  by rewrite removeElement_maxBytes.
Qed.

Lemma step_maxBytes c o c' : step c o = Some c' → maxBytes c' = maxBytes c.
Proof.
  destruct o as [k v ttl now|k now| |now]; simpl; intros Hs; simplify_eq.
  - unfold Add in Hs. apply evict_maxBytes in Hs. rewrite Hs.
    by destruct (store_fields c k v ttl now) as (-> & _).
  - unfold Get. destruct (lookup c k) as [[i kv]|]; [|done].
    destruct (_ && _); simpl; [by rewrite removeElement_maxBytes|done].
  - apply RemoveOldest_maxBytes.
  - apply clean_maxBytes.
Qed.

Lemma op_bytes_nonneg (o : op V) : 0 ≤ op_bytes o.
Proof.
  destruct o as [k v ? ?| | |]; simpl; try done.
  pose proof (len_nonneg k). pose proof (Len_nonneg v). lia.
Qed.

Lemma total_bytes_cons (o : op V) ops :
  total_bytes (o :: ops) = op_bytes o + total_bytes ops.
Proof. done. Qed.

Lemma total_bytes_nonneg (ops : list (op V)) : 0 ≤ total_bytes ops.
Proof.
  induction ops as [|o ops IH]; [done|]. rewrite total_bytes_cons.
  pose proof (op_bytes_nonneg o). lia.
Qed.

Lemma step_returns B c o :
  B + op_bytes o ≤ max_int64 → accounted B c → 0 ≤ maxBytes c →
  is_Some (step c o).
Proof.
  intros HB Hc Hmax. destruct o; simpl; try done.
  by eapply Add_returns.
Qed.

Lemma run_accounted ops B c :
  B + total_bytes ops ≤ max_int64 → accounted B c →
  (0 ≤ maxBytes c → is_Some (run ops c)) ∧
  ∀ c', run ops c = Some c' →
        accounted (B + total_bytes ops) c' ∧ maxBytes c' = maxBytes c.
Proof.
  revert B c. induction ops as [|o ops IH]; intros B c HB Hc.
  - split; [done|]. simpl. intros c' ?; simplify_eq.
    unfold total_bytes. simpl. by rewrite Z.add_0_r.
  - rewrite total_bytes_cons in *. simpl.
    pose proof (total_bytes_nonneg ops). pose proof (op_bytes_nonneg o).
    split.
    + intros Hmax. destruct (step_returns B c o) as [c1 Hs]; [lia|done..|].
      rewrite Hs.
      apply (IH (B + op_bytes o)); [lia| |].
      * eapply step_accounted; [lia|done..].
      * by rewrite (step_maxBytes _ _ _ Hs).
    + intros c'. destruct (step c o) as [c1|] eqn:Hs; [|done].
      intros Hr. apply (IH (B + op_bytes o)) in Hr as [Hr Hm]; [|lia|].
      * rewrite Z.add_assoc. split; [done|].
        by rewrite Hm, (step_maxBytes _ _ _ Hs).
      * eapply step_accounted; [lia|done..].
Qed.

Lemma New_accounted maxB onEv : accounted 0 (New (V:=V) maxB onEv).
Proof. split; done. Qed.

(** C3.  For every sequence of [Add], [Get], [RemoveOldest] and
    [CleanExpired] on a fresh store (handing [Add] no more bytes than an
    [int64] counts): the sequence returns when [maxBytes] is not
    negative, and whenever it returns, [nbytes] is the sum of
    [len(key) + value.Len()] over the live entries.  Every prefix of a
    sequence is a sequence, so this holds between any two operations. *)
Theorem nbytes_is_sum_of_live_entries maxB onEv (ops : list (op V)) :
  total_bytes ops ≤ max_int64 →
  (0 ≤ maxB → is_Some (run ops (New maxB onEv))) ∧
  (∀ c, run ops (New maxB onEv) = Some c → nbytes c = live_bytes c).
Proof.
  intros HB.
  destruct (run_accounted ops 0 (New maxB onEv)) as [Hret Hacc];
    [lia|apply New_accounted|].
  split; [done|]. intros c Hr. by destruct (Hacc c Hr) as [[? _] _].
Qed.

Lemma elem_of_delete_or l i kv e :
  l !! i = Some kv → e ∈ l → e = kv ∨ e ∈ delete i l.
Proof.
  revert i. induction l as [|x l IH]; intros [|i] Hi He; simplify_eq/=.
  - apply elem_of_cons in He as [->|He]; auto.
  - apply elem_of_cons in He as [->|He]; [right; left|].
    destruct (IH _ Hi He); [by left|right; by right].
Qed.

Lemma store_keeps_keys c k v ttl now e :
  e ∈ ll c → key e ∈ key <$> ll (store c k v ttl now).
Proof.
  intros He. destruct (store_ll c k v ttl now) as [exp ->].
  destruct (lookup c k) as [[i kv]|] eqn:Hlk.
  - apply lookup_Some in Hlk as [Hi Hk]. rewrite fmap_cons. simpl.
    destruct (elem_of_delete_or _ _ _ _ Hi He) as [->|Hd]; [left|right].
    by apply list_elem_of_fmap_2.
  - rewrite fmap_cons. right. by apply list_elem_of_fmap_2.
Qed.

(** C2.  On every store reached from a fresh one: with [maxBytes > 0]
    an [Add] returns and leaves [nbytes <= maxBytes]; with
    [maxBytes = 0] an [Add] returns the store as the insertion or
    update left it, without a call of [RemoveOldest]: nothing is
    reported evicted and every key that was live is still live. *)
Theorem Add_keeps_nbytes_within_maxBytes maxB onEv (ops : list (op V))
    c k v ttl now :
  run ops (New maxB onEv) = Some c →
  total_bytes ops + (len k + Len v) ≤ max_int64 →
  (0 < maxB → ∃ c', Add c k v ttl now = Some c' ∧ nbytes c' ≤ maxB) ∧
  (maxB = 0 →
   ∃ c', Add c k v ttl now = Some c' ∧ c' = store c k v ttl now ∧
         evicted c' = evicted c ∧
         ∀ e, e ∈ ll c → key e ∈ key <$> ll c').
Proof.
  intros Hr HB.
  pose proof (len_nonneg k). pose proof (Len_nonneg v).
  destruct (run_accounted ops 0 (New maxB onEv)) as [_ Hacc];
    [simpl; lia|apply New_accounted|].
  destruct (Hacc c Hr) as [Hc Hmax]. simpl in Hc, Hmax.
  split.
  - intros Hpos.
    destruct (Add_returns _ c k v ttl now HB Hc) as [c' Hc']; [lia|].
    exists c'. split; [done|]. unfold Add in Hc'.
    eapply evict_accounted in Hc' as (_ & _ & Hb);
      [| |by apply store_accounted]; [|done].
    destruct (store_fields c k v ttl now) as (Hm & _).
    rewrite Hm, Hmax in Hb. lia.
  - intros ->. exists (store c k v ttl now).
    destruct (store_fields c k v ttl now) as (Hm & _ & Hev).
    split; [|split; [done|split; [done|]]].
    + unfold Add. simpl. rewrite Hm, Hmax. done.
    + intros e. apply store_keeps_keys.
Qed.

Lemma RemoveOldest_snoc c l x :
  ll c = l ++ [x] →
  let c' := RemoveOldest c in
  ll c' = l ∧ maxBytes c' = maxBytes c ∧ OnEvicted c' = OnEvicted c ∧
  evicted c' = if OnEvicted c then evicted c ++ [report x] else evicted c.
Proof.
  intros Hl.
  assert (RemoveOldest c = removeElement c (length (ll c) - 1)) as ->.
  { unfold RemoveOldest. destruct (ll c); [by destruct l|done]. }
  assert (length (ll c) - 1 = length l + 0)%nat as ->
    by (rewrite Hl, length_app; simpl; lia).
  assert (ll c !! (length l + 0)%nat = Some x) as Hx
    by (rewrite Hl; apply list_lookup_middle; lia).
  destruct (removeElement_fields c _ x Hx) as (H1 & _ & H2 & _ & H3 & H4).
  cbv zeta. rewrite H1, H2, H3, H4, Hl, Nat.add_0_r, delete_middle, app_nil_r. done.
Qed.

(** The loop of [Add] on a store whose front entry alone exceeds the
    bound removes every entry, the front one last. *)
Lemma evict_oversized B rest : ∀ fuel c ek,
  B ≤ max_int64 → accounted B c → ll c = ek :: rest →
  0 < maxBytes c → maxBytes c < entry_bytes ek →
  (S (length rest) < fuel)%nat →
  ∃ c', evict fuel c = Some c' ∧ ll c' = [] ∧ nbytes c' = 0 ∧
        evicted c' = if OnEvicted c
                     then evicted c ++ (report <$> reverse (ek :: rest))
                     else evicted c.
Proof.
  induction rest as [|x rest IH] using rev_ind;
    intros fuel c ek HB Hc Hl Hpos Hbig Hfuel.
  - destruct fuel as [|fuel]; [lia|]. simpl.
    assert (nbytes c = entry_bytes ek) as Hn.
    { destruct Hc as [-> _]. unfold live_bytes. rewrite Hl. simpl. lia. }
    rewrite bool_decide_eq_true_2, bool_decide_eq_true_2 by lia. simpl.
    pose proof (RemoveOldest_accounted B c HB Hc) as [Hn' _].
    destruct (RemoveOldest_snoc c [] ek Hl) as (Hl' & Hm' & _ & He').
    unfold live_bytes in Hn'. rewrite Hl' in Hn'. simpl in Hn'.
    exists (RemoveOldest c). split; [|done].
    destruct fuel; simpl; rewrite Hm', Hn';
      rewrite (bool_decide_eq_false_2 (maxBytes c < 0)) by lia;
      by rewrite andb_false_r.
  - destruct fuel as [|fuel]; [lia|]. simpl.
    assert (maxBytes c < nbytes c) as Hn.
    { destruct Hc as [-> _]. unfold live_bytes. rewrite Hl. simpl.
      fold (lbytes (rest ++ [x])). pose proof (lbytes_nonneg (rest ++ [x])).
      lia. }
    rewrite bool_decide_eq_true_2, bool_decide_eq_true_2 by lia. simpl.
    destruct (RemoveOldest_snoc c (ek :: rest) x) as (Hl' & Hm' & Ho' & He');
      [by rewrite Hl|].
    destruct (IH fuel (RemoveOldest c) ek) as (c' & Hev & H1 & H2 & H3);
      [done|by apply RemoveOldest_accounted|done|by rewrite Hm'..| |].
    { rewrite length_app in Hfuel. simpl in Hfuel. lia. }
    exists c'. split; [done|]. split; [done|]. split; [done|].
    rewrite H3, Ho', He'. destruct (OnEvicted c); [|done].
    rewrite <- app_assoc. f_equal.
    rewrite !reverse_cons, reverse_app, reverse_singleton, !fmap_app.
    simpl. by rewrite <- ?app_assoc.
Qed.

(** C10.  On every store reached from a fresh one with [maxBytes > 0]:
    an [Add] of an entry with [len(key) + value.Len() > maxBytes]
    returns and leaves the store empty; when a callback is set it is
    called for every entry that was live and, last, for the added key
    with the added value; a [Get] of the key then misses. *)
Theorem Add_oversized_leaves_store_empty maxB onEv (ops : list (op V))
    c k v ttl now :
  run ops (New maxB onEv) = Some c →
  total_bytes ops + (len k + Len v) ≤ max_int64 →
  0 < maxB → maxB < len k + Len v →
  ∃ c', Add c k v ttl now = Some c' ∧
        ll c' = [] ∧ nbytes c' = 0 ∧
        (OnEvicted c = true →
         (∀ e, e ∈ ll c → key e ≠ k → report e ∈ evicted c') ∧
         last (evicted c') = Some (k, v)) ∧
        ∀ now', (Get c' k now').2 = None.
Proof.
  intros Hr HB Hpos Hbig.
  destruct (run_accounted ops 0 (New maxB onEv)) as [_ Hacc];
    [pose proof (len_nonneg k); pose proof (Len_nonneg v); simpl; lia
    |apply New_accounted|].
  destruct (Hacc c Hr) as [Hc Hmax]. simpl in Hc, Hmax.
  pose proof (store_accounted _ c k v ttl now HB Hc) as Hc1.
  destruct (store_fields c k v ttl now) as (Hm1 & Ho1 & He1).
  destruct (store_ll c k v ttl now) as [exp Hl1].
  set (rest := match lookup c k with
               | Some (i, _) => delete i (ll c) | None => ll c end).
  assert (ll (store c k v ttl now) = mkEntry k v exp :: rest) as Hl.
  { rewrite Hl1. unfold rest.
    destruct (lookup c k) as [[i kv]|] eqn:Hlk; [|done].
    apply lookup_Some in Hlk as [_ ->]. done. }
  destruct (evict_oversized _ rest (S (length (ll (store c k v ttl now))))
              (store c k v ttl now) (mkEntry k v exp) HB Hc1 Hl)
    as (c' & Hev & Hll & Hnb & Hevd).
  { by rewrite Hm1, Hmax. }
  { rewrite Hm1, Hmax. done. }
  { rewrite Hl. simpl. lia. }
  exists c'. split; [done|]. split; [done|]. split; [done|]. split.
  - intros Hon. rewrite Ho1, Hon, He1 in Hevd. rewrite Hevd.
    rewrite reverse_cons, fmap_app. simpl. split.
    + intros e He Hne. apply elem_of_app. right. apply elem_of_app. left.
      apply list_elem_of_fmap_2, elem_of_reverse. unfold rest.
      destruct (lookup c k) as [[i kv]|] eqn:Hlk; [|done].
      apply lookup_Some in Hlk as [Hi Hk].
      destruct (elem_of_delete_or _ _ _ _ Hi He) as [->|Hd]; done.
    + rewrite app_assoc. apply last_snoc.
  - intros now'. unfold Get, lookup. rewrite Hll. done.
Qed.

(** *** The index of the list: one element for a key *)

Lemma lookup_None c k : lookup c k = None ↔ k ∉ keys_of c.
Proof.
  unfold lookup, keys_of. rewrite list_find_None, Forall_forall, list_elem_of_fmap.
  split.
  - intros H (e & -> & He). by apply (H e).
  - intros H e He Hk. apply H. by exists e.
Qed.

Lemma NoDup_delete_lookup {A} (l : list A) i x :
  NoDup l → l !! i = Some x → (x ∉ delete i l) ∧ NoDup (delete i l).
Proof.
  intros Hnd. revert i. induction Hnd as [|y l Hy Hnd IH]; intros [|i] Hi;
    simplify_eq/=; [done|].
  destruct (IH _ Hi) as [Hx Hd]. split.
  - rewrite not_elem_of_cons. split; [|done].
    intros ->. apply Hy. by eapply list_elem_of_lookup_2.
  - apply NoDup_cons. split; [|done].
    intros Hin. apply Hy. eapply elem_of_sublist; [done|apply sublist_delete].
Qed.

Lemma keys_delete l i kv :
  NoDup (key <$> l) → l !! i = Some kv →
  (key kv ∉ key <$> delete i l) ∧ NoDup (key <$> delete i l).
Proof.
  intros Hnd Hi. rewrite list_fmap_delete.
  apply NoDup_delete_lookup; [done|]. by rewrite list_lookup_fmap, Hi.
Qed.

Lemma removeElement_NoDup c i :
  NoDup (keys_of c) → NoDup (keys_of (removeElement c i)).
Proof.
  intros Hnd. destruct (ll c !! i) as [kv|] eqn:Hi;
    [|unfold removeElement; rewrite Hi; done].
  unfold keys_of. destruct (removeElement_fields c i kv Hi) as (-> & _).
  by apply (keys_delete _ _ kv).
Qed.

Lemma removeElement_lookup c k i kv :
  NoDup (keys_of c) → lookup c k = Some (i, kv) →
  lookup (removeElement c i) k = None.
Proof.
  intros Hnd [Hi <-]%lookup_Some. apply lookup_None.
  unfold keys_of. destruct (removeElement_fields c i kv Hi) as (-> & _).
  by apply keys_delete.
Qed.

Lemma RemoveOldest_NoDup c : NoDup (keys_of c) → NoDup (keys_of (RemoveOldest c)).
Proof.
  intros. unfold RemoveOldest. destruct (ll c); [done|].
  by apply removeElement_NoDup.
Qed.

Lemma store_NoDup c k v ttl now :
  NoDup (keys_of c) → NoDup (keys_of (store c k v ttl now)).
Proof.
  intros Hnd. unfold keys_of in *.
  destruct (store_ll c k v ttl now) as [exp ->].
  destruct (lookup c k) as [[i kv]|] eqn:Hlk.
  - apply lookup_Some in Hlk as [Hi _]. rewrite fmap_cons. simpl.
    apply NoDup_cons. by apply keys_delete.
  - apply lookup_None in Hlk. rewrite fmap_cons. simpl.
    by apply NoDup_cons.
Qed.

Lemma evict_NoDup fuel c c' :
  NoDup (keys_of c) → evict fuel c = Some c' → NoDup (keys_of c').
Proof.
  revert c. induction fuel as [|fuel IH]; intros c Hnd; simpl;
    destruct (_ && _); intros Hev; simplify_eq; try done.
  eapply IH; [|done]. by apply RemoveOldest_NoDup.
Qed.

Lemma Add_NoDup c k v ttl now c' :
  NoDup (keys_of c) → Add c k v ttl now = Some c' → NoDup (keys_of c').
Proof. intros Hnd. apply evict_NoDup. by apply store_NoDup. Qed.

Lemma Get_NoDup c k now : NoDup (keys_of c) → NoDup (keys_of (Get c k now).1).
Proof.
  intros Hnd. unfold Get. destruct (lookup c k) as [[i kv]|] eqn:Hlk; [|done].
  destruct (_ && _); simpl; [by apply removeElement_NoDup|].
  apply lookup_Some in Hlk as [Hi _]. unfold keys_of. simpl.
  apply NoDup_cons. by apply keys_delete.
Qed.

Lemma clean_NoDup fuel now c :
  NoDup (keys_of c) → NoDup (keys_of (clean fuel now c)).
Proof.
  revert c. induction fuel as [|fuel IH]; intros c Hnd; simpl; [done|].
  destruct (bool_decide _); [|done]. destruct (After _ _); [|done].
  apply IH. destruct (lookup _ _) as [[i kv]|]; [|done].
  by apply removeElement_NoDup.
Qed.

(** After a sequence of operations on a fresh store no key has two
    elements: the map from keys to elements is the index of the
    list. *)
Lemma run_NoDup ops c c' :
  NoDup (keys_of c) → run ops c = Some c' → NoDup (keys_of c').
Proof.
  revert c. induction ops as [|o ops IH]; intros c Hnd; simpl;
    [by intros ?; simplify_eq|].
  destruct (step c o) as [c1|] eqn:Hs; [|done]. apply IH.
  destruct o as [k v ttl now|k now| |now]; simpl in Hs; simplify_eq.
  - by eapply Add_NoDup.
  - by apply Get_NoDup.
  - by apply RemoveOldest_NoDup.
  - by apply clean_NoDup.
Qed.

(** A miss leaves no element for the key. *)
Lemma Get_miss_lookup c k now :
  NoDup (keys_of c) → (Get c k now).2 = None →
  lookup (Get c k now).1 k = None.
Proof.
  intros Hnd. unfold Get. destruct (lookup c k) as [[i kv]|] eqn:Hlk; [|done].
  destruct (_ && _); simpl; [|done]. intros _.
  by eapply removeElement_lookup.
Qed.

(** A key without an element is a miss that changes nothing. *)
Lemma Get_absent c k now : lookup c k = None → Get c k now = (c, None).
Proof. intros Hlk. unfold Get. by rewrite Hlk. Qed.

(** *** The list, the index and the policy *)

(** *** Reachable stores *)

Lemma reachable_accounted maxB onEv (ops : list (op V)) c :
  run ops (New maxB onEv) = Some c → total_bytes ops ≤ max_int64 →
  accounted (total_bytes ops) c ∧ maxBytes c = maxB ∧ NoDup (keys_of c).
Proof.
  intros Hrun Hb.
  destruct (run_accounted ops 0 (New maxB onEv)) as [_ Hacc];
    [lia|apply New_accounted|].
  destruct (Hacc c Hrun) as [Ha Hm]. split; [done|]. split; [done|].
  eapply run_NoDup; [|done]. constructor.
Qed.

(** *** The recency list under [Add] *)

Lemma store_front c k v ttl now :
  ll (store c k v ttl now) =
    mkEntry k v (expiry ttl now) ::
      match lookup c k with
      | Some (i, _) => delete i (ll c)
      | None => ll c
      end.
Proof.
  unfold store, expiry. destruct (lookup c k) as [[i kv]|] eqn:Hlk.
  - apply lookup_Some in Hlk as [_ ->].
    by destruct (negb _).
  - by destruct (negb _).
Qed.

Lemma RemoveOldest_ll c : ll (RemoveOldest c) = take (length (ll c) - 1) (ll c).
Proof.
  destruct (ll c) as [|x l _] eqn:Hl using rev_ind.
  - unfold RemoveOldest. by rewrite Hl.
  - destruct (RemoveOldest_snoc c l x Hl) as [-> _].
    rewrite length_app. simpl.
    replace (length l + 1 - 1)%nat with (length l) by lia.
    by rewrite take_app_length.
Qed.

Lemma RemoveOldest_evicted c :
  evicted (RemoveOldest c) =
    if OnEvicted c
    then evicted c ++ (report <$> reverse (drop (length (ll c) - 1) (ll c)))
    else evicted c.
Proof.
  destruct (ll c) as [|x l _] eqn:Hl using rev_ind.
  - unfold RemoveOldest. rewrite Hl. simpl. destruct (OnEvicted c); [|done].
    by rewrite app_nil_r.
  - destruct (RemoveOldest_snoc c l x Hl) as (_ & _ & _ & ->).
    rewrite length_app. simpl.
    replace (length l + 1 - 1)%nat with (length l) by lia.
    by rewrite drop_app_length.
Qed.

Lemma RemoveOldest_OnEvicted c : OnEvicted (RemoveOldest c) = OnEvicted c.
Proof.
  destruct (ll c) as [|x l _] eqn:Hl using rev_ind.
  - unfold RemoveOldest. by rewrite Hl.
  - by destruct (RemoveOldest_snoc c l x Hl) as (_ & _ & -> & _).
Qed.

(** The loop of [Add] drops a suffix of the list, and reports it from
    the back. *)
Lemma evict_suffix fuel : ∀ c c',
  evict fuel c = Some c' →
  ∃ n, (n ≤ length (ll c))%nat ∧ ll c' = take n (ll c) ∧
       evicted c' = if OnEvicted c
                    then evicted c ++ (report <$> reverse (drop n (ll c)))
                    else evicted c.
Proof.
  induction fuel as [|fuel IH]; intros c c'; simpl.
  - case_match; [done|]. intros [= <-]. exists (length (ll c)).
    rewrite take_ge, drop_ge by done. simpl.
    split; [done|]. split; [done|]. destruct (OnEvicted c); [|done].
    by rewrite app_nil_r.
  - case_match.
    + intros (n & Hn & Hl & He)%IH.
      rewrite RemoveOldest_ll in Hl, Hn, He.
      rewrite RemoveOldest_evicted, RemoveOldest_OnEvicted in He.
      rewrite length_take in Hn.
      exists n. split; [lia|]. rewrite take_take in Hl.
      replace (n `min` (length (ll c) - 1))%nat with n in Hl by lia.
      split; [done|]. rewrite He. destruct (OnEvicted c); [|done].
      rewrite <- app_assoc. f_equal. rewrite <- fmap_app, <- reverse_app.
      do 2 f_equal.
      rewrite <- (take_drop (length (ll c) - 1 - n) (drop n (ll c))) at 1.
      f_equal.
      * rewrite take_drop_commute. f_equal. f_equal. lia.
      * rewrite drop_drop. f_equal. lia.
    + intros [= <-]. exists (length (ll c)).
      rewrite take_ge, drop_ge by done. simpl.
      split; [done|]. split; [done|]. destruct (OnEvicted c); [|done].
      by rewrite app_nil_r.
Qed.

(** The loop of [Add] keeps the front entry when it fits. *)
Lemma evict_keeps_front B fuel : ∀ c c' e rest,
  B ≤ max_int64 → accounted B c → ll c = e :: rest →
  maxBytes c = 0 ∨ entry_bytes e ≤ maxBytes c →
  evict fuel c = Some c' → ∃ rest', ll c' = e :: rest'.
Proof.
  induction fuel as [|fuel IH]; intros c c' e rest HB Hc Hl Hfit; simpl.
  - case_match; [done|]. intros [= <-]. eauto.
  - case_match eqn:Hcond; [|intros [= <-]; eauto].
    apply andb_true_iff in Hcond as [Hne Hlt].
    apply bool_decide_eq_true in Hne. apply bool_decide_eq_true in Hlt.
    destruct Hfit as [?|Hfit]; [done|].
    destruct rest as [|x rest _] using rev_ind.
    { destruct Hc as [Hn _]. unfold live_bytes in Hn. rewrite Hl in Hn.
      simpl in Hn. lia. }
    destruct (RemoveOldest_snoc c (e :: rest) x) as (Hl' & Hm' & _);
      [by rewrite Hl|].
    apply (IH (RemoveOldest c) c' e rest HB);
      [by apply RemoveOldest_accounted|done|rewrite Hm'; by right].
Qed.

Lemma lookup_front c e rest :
  ll c = e :: rest → lookup c (key e) = Some (0%nat, e).
Proof.
  intros Hl. unfold lookup. rewrite Hl. simpl. by rewrite decide_True.
Qed.

(** *** [Get] and the other keys *)

Lemma filter_delete_other (P : entry V → Prop) `{!∀ e, Decision (P e)} l i kv :
  l !! i = Some kv → ¬ P kv → filter P (delete i l) = filter P l.
Proof.
  revert i. induction l as [|x l IH]; intros [|i] Hi Hn; simplify_eq/=.
  - by rewrite filter_cons_False.
  - rewrite !filter_cons. by rewrite (IH i).
Qed.

(** *** The loop of [Add] under a negative [maxBytes] *)

Lemma evict_negative B fuel : ∀ c,
  B ≤ max_int64 → accounted B c → maxBytes c < 0 → evict fuel c = None.
Proof.
  induction fuel as [|fuel IH]; intros c HB Hc Hneg; simpl.
  - destruct Hc as [Hn _]. pose proof (lbytes_nonneg (ll c)).
    unfold live_bytes in Hn. fold (lbytes (ll c)) in Hn.
    by rewrite !bool_decide_eq_true_2 by lia.
  - destruct Hc as [Hn Hle]. pose proof (lbytes_nonneg (ll c)).
    unfold live_bytes in Hn. fold (lbytes (ll c)) in Hn.
    rewrite !bool_decide_eq_true_2 by lia. simpl.
    apply IH; [done|apply RemoveOldest_accounted; [done|by split]|].
    by rewrite RemoveOldest_maxBytes.
Qed.

Lemma lbytes_app l1 l2 : lbytes (l1 ++ l2) = lbytes l1 + lbytes l2.
Proof. unfold lbytes. induction l1 as [|x l1 IH]; simpl; [done|]. rewrite IH. lia. Qed.

Lemma Add_front maxB onEv (ops : list (op V)) c k v ttl now :
  run ops (New maxB onEv) = Some c →
  total_bytes ops + (len k + Len v) ≤ max_int64 →
  maxB = 0 ∨ len k + Len v ≤ maxB →
  ∃ c' rest, Add c k v ttl now = Some c' ∧
             ll c' = mkEntry k v (expiry ttl now) :: rest ∧
             accounted (total_bytes ops + (len k + Len v)) c'.
Proof.
  intros Hrun Hb Hfit.
  pose proof (len_nonneg k). pose proof (Len_nonneg v).
  destruct (reachable_accounted _ _ _ _ Hrun) as (Hacc & Hm & _); [lia|].
  destruct (Add_returns (total_bytes ops) c k v ttl now) as [c' HAdd];
    [done|done|rewrite Hm; lia|].
  pose proof (store_accounted _ c k v ttl now Hb Hacc) as Hst.
  pose proof HAdd as Hev. unfold Add in Hev. cbv zeta in Hev.
  assert (∃ rest, ll c' = mkEntry k v (expiry ttl now) :: rest) as [rest Hl].
  { eapply evict_keeps_front;
      [exact Hb|exact Hst|apply store_front| |exact Hev].
    destruct (store_fields c k v ttl now) as (-> & _). by rewrite Hm. }
  exists c', rest. split; [done|]. split; [done|].
  by eapply Add_accounted.
Qed.

(** X2.  On every store reached from a fresh one, an [Add] of an entry
    that fits ([maxBytes = 0], or [len(key) + value.Len() <= maxBytes])
    returns, and a [Get] of the key no later than the expiry (any time
    when [ttl <= 0]) returns the value added and leaves the list as it
    is: the entry is at the front already. *)
Theorem Add_then_Get_returns_the_value maxB onEv (ops : list (op V))
    c k v ttl now now' :
  run ops (New maxB onEv) = Some c →
  total_bytes ops + (len k + Len v) ≤ max_int64 →
  maxB = 0 ∨ len k + Len v ≤ maxB →
  ttl ≤ 0 ∨ now' ≤ now + ttl →
  ∃ c', Add c k v ttl now = Some c' ∧ (Get c' k now').2 = Some v ∧
        ll (Get c' k now').1 = ll c'.
Proof.
  intros Hrun Hb Hfit Hlive.
  destruct (Add_front _ _ _ _ k v ttl now Hrun Hb Hfit)
    as (c' & rest & HAdd & Hl & _).
  exists c'. split; [done|]. unfold Get.
  pose proof (lookup_front c' _ rest Hl) as Hlk. simpl in Hlk.
  rewrite Hlk. simpl.
  assert (negb (IsZero (expiry ttl now)) && After now' (expiry ttl now) = false)
    as ->.
  { unfold expiry, IsZero, After, Time_Add, zeroTime.
    destruct (bool_decide (0 < ttl)) eqn:Httl.
    - apply bool_decide_eq_true in Httl.
      rewrite (bool_decide_eq_false_2 (now + ttl < now')) by lia.
      apply andb_false_r.
    - by rewrite bool_decide_eq_true_2. }
  simpl. by rewrite Hl.
Qed.

(** X3.  After an [Add] with [ttl > 0] of an entry that fits, a [Get] of
    the key later than [now + ttl] (when that instant is not the zero
    time) misses, removes the entry, gives its bytes back and tells
    [OnEvicted]. *)
Theorem Get_after_expiry_removes_the_entry maxB onEv (ops : list (op V))
    c k v ttl now now' :
  run ops (New maxB onEv) = Some c →
  total_bytes ops + (len k + Len v) ≤ max_int64 →
  maxB = 0 ∨ len k + Len v ≤ maxB →
  0 < ttl → now + ttl ≠ 0 → now + ttl < now' →
  ∃ c', Add c k v ttl now = Some c' ∧
        (Get c' k now').2 = None ∧
        ll (Get c' k now').1 = tail (ll c') ∧
        (k ∉ keys_of (Get c' k now').1) ∧
        nbytes (Get c' k now').1 = nbytes c' - (len k + Len v) ∧
        evicted (Get c' k now').1 =
          if OnEvicted c' then evicted c' ++ [(k, v)] else evicted c'.
Proof.
  intros Hrun Hb Hfit Httl Hnz Hlate.
  destruct (Add_front _ _ _ _ k v ttl now Hrun Hb Hfit)
    as (c' & rest & HAdd & Hl & Hacc).
  destruct (reachable_accounted _ _ _ _ Hrun) as (_ & _ & Hnd);
    [pose proof (len_nonneg k); pose proof (Len_nonneg v); lia|].
  pose proof (Add_NoDup _ _ _ _ _ _ Hnd HAdd) as Hnd'.
  exists c'. split; [done|]. unfold Get.
  pose proof (lookup_front c' _ rest Hl) as Hlk. simpl in Hlk.
  rewrite Hlk. simpl.
  assert (negb (IsZero (expiry ttl now)) && After now' (expiry ttl now) = true)
    as ->.
  { unfold expiry, IsZero, After, Time_Add, zeroTime.
    rewrite (bool_decide_eq_true_2 (0 < ttl)) by done.
    rewrite (bool_decide_eq_false_2 (now + ttl = 0)) by done.
    by rewrite bool_decide_eq_true_2. }
  simpl.
  destruct (removeElement_fields c' 0 (mkEntry k v (expiry ttl now)))
    as (Hl2 & _ & _ & _ & _ & He2); [by rewrite Hl|].
  pose proof (removeElement_accounted _ c' 0%nat Hb Hacc) as [Hn2 _].
  rewrite Hl in Hl2. simpl in Hl2.
  split; [done|]. split; [by rewrite Hl2, Hl|]. split; [|split; [|done]].
  - unfold keys_of in *. rewrite Hl2. rewrite Hl in Hnd'. simpl in Hnd'.
    by apply NoDup_cons in Hnd' as [? _].
  - rewrite Hn2. destruct Hacc as [-> _]. unfold live_bytes.
    rewrite Hl2, Hl. simpl. unfold entry_bytes at 2. simpl. lia.
Qed.

(** X4.  [Get] leaves the entries of the other keys as they are and in
    their order, and does not touch [maxBytes] or the heap; on a hit the
    entry of the key is at the front with the value returned, and the
    list has the same entries, the counter and the eviction log are
    unchanged. *)
Theorem Get_keeps_the_other_entries_in_order c k now :
  filter (λ e, key e ≠ k) (ll (Get c k now).1)
  = filter (λ e, key e ≠ k) (ll c) ∧
  maxBytes (Get c k now).1 = maxBytes c ∧
  expireHeap (Get c k now).1 = expireHeap c ∧
  ∀ v, (Get c k now).2 = Some v →
       ∃ e, head (ll (Get c k now).1) = Some e ∧ key e = k ∧ value e = v ∧
            nbytes (Get c k now).1 = nbytes c ∧
            evicted (Get c k now).1 = evicted c ∧
            ll (Get c k now).1 ≡ₚ ll c.
Proof.
  unfold Get. destruct (lookup c k) as [[i kv]|] eqn:Hlk; [|done].
  apply lookup_Some in Hlk as [Hi Hk].
  destruct (negb _ && _); simpl.
  - destruct (removeElement_fields c i kv Hi) as (-> & _ & -> & -> & _).
    split; [|done].
    apply (filter_delete_other _ _ _ kv); [done|]. by intros [].
  - split; [|split; [done|split; [done|]]].
    + rewrite filter_cons_False by (by intros []).
      apply (filter_delete_other _ _ _ kv); [done|]. by intros [].
    + intros v [= <-]. exists kv. do 5 (split; [done|]).
      symmetry. by apply delete_Permutation.
Qed.

(** X5.  The entries an [Add] keeps are a front part of the list as the
    insertion left it, and [OnEvicted] is told the rest from the back: the
    least recently used entry first. *)
Theorem Add_evicts_from_the_back c k v ttl now c' :
  Add c k v ttl now = Some c' →
  ∃ n, (n ≤ length (ll (store c k v ttl now)))%nat ∧
       ll c' = take n (ll (store c k v ttl now)) ∧
       evicted c' =
         if OnEvicted c
         then evicted c ++
                (report <$> reverse (drop n (ll (store c k v ttl now))))
         else evicted c.
Proof.
  unfold Add. intros (n & Hn & Hl & He)%evict_suffix.
  destruct (store_fields c k v ttl now) as (_ & Ho & Hev).
  rewrite Ho, Hev in He. by exists n.
Qed.

(** X7.  On a store made with a negative [maxBytes], [Add] never
    returns: whatever number of rounds of its loop is allowed, the loop
    has not stopped (it goes on calling [RemoveOldest] on the empty
    list). *)
Theorem Add_with_negative_maxBytes_never_returns maxB onEv (ops : list (op V))
    c k v ttl now :
  run ops (New maxB onEv) = Some c →
  total_bytes ops + (len k + Len v) ≤ max_int64 →
  maxB < 0 →
  (∀ fuel, evict fuel (store c k v ttl now) = None) ∧
  Add c k v ttl now = None.
Proof.
  intros Hrun Hb Hneg.
  destruct (reachable_accounted _ _ _ _ Hrun) as (Hacc & Hm & _);
    [pose proof (len_nonneg k); pose proof (Len_nonneg v); lia|].
  assert (∀ fuel, evict fuel (store c k v ttl now) = None) as Hev.
  { intros fuel. eapply evict_negative; [exact Hb|by apply store_accounted|].
    destruct (store_fields c k v ttl now) as (-> & _). by rewrite Hm. }
  split; [done|]. apply Hev.
Qed.

(** X8.  On every store reached from a fresh one, [RemoveOldest] on an
    empty store changes nothing; otherwise it removes the element at the
    back of the list and no other, takes its bytes off the counter and
    tells [OnEvicted] its key and value. *)
Theorem RemoveOldest_removes_the_back_entry maxB onEv (ops : list (op V)) c :
  run ops (New maxB onEv) = Some c → total_bytes ops ≤ max_int64 →
  (ll c = [] → RemoveOldest c = c) ∧
  (∀ l x, ll c = l ++ [x] →
          ll (RemoveOldest c) = l ∧
          nbytes (RemoveOldest c) = nbytes c - (len (key x) + Len (value x)) ∧
          evicted (RemoveOldest c) =
            if OnEvicted c then evicted c ++ [(key x, value x)] else evicted c).
Proof.
  intros Hrun Hb.
  destruct (reachable_accounted _ _ _ _ Hrun Hb) as (Hacc & _ & _).
  split.
  - intros Hl. unfold RemoveOldest. by rewrite Hl.
  - intros l x Hl. destruct (RemoveOldest_snoc c l x Hl) as (Hl' & _ & _ & He).
    split; [done|]. split; [|done].
    destruct (RemoveOldest_accounted _ c Hb Hacc) as [-> _].
    destruct Hacc as [-> _]. unfold live_bytes. rewrite Hl', Hl.
    fold (lbytes (l ++ [x])). fold (lbytes l). rewrite lbytes_app.
    change (lbytes [x]) with (entry_bytes x + 0). unfold entry_bytes. lia.
Qed.

(** X1.  In every store reached from a fresh one, no key has two
    elements in the list, and the index leads from the key of every
    element to that element. *)
Theorem store_has_one_entry_per_key maxB onEv (ops : list (op V)) c :
  run ops (New maxB onEv) = Some c →
  NoDup (keys_of c) ∧
  ∀ i e, ll c !! i = Some e → lookup c (key e) = Some (i, e).
Proof.
  intros Hrun.
  assert (NoDup (keys_of c)) as Hnd by (eapply run_NoDup; [|done]; constructor).
  split; [done|]. intros i e Hi. unfold lookup. apply list_find_Some.
  split; [done|]. split; [done|]. intros j y Hj Hlt Hk.
  assert (j = i); [|lia].
  eapply (NoDup_lookup (keys_of c)); [done|..]; unfold keys_of;
    rewrite list_lookup_fmap; [by rewrite Hj|by rewrite Hi; simpl; f_equal].
Qed.

Lemma evict_minimal B fuel : ∀ c c',
  B ≤ max_int64 → accounted B c → evict fuel c = Some c' →
  (length (ll c') < length (ll c))%nat →
  maxBytes c < lbytes (take (S (length (ll c'))) (ll c)).
Proof.
  induction fuel as [|fuel IH]; intros c c' HB Hc; simpl.
  - case_match; [done|]. intros [= <-]. lia.
  - case_match eqn:Hcond; [|intros [= <-]; lia].
    apply andb_true_iff in Hcond as [_ Hlt%bool_decide_eq_true].
    intros Hev Hlen.
    destruct (evict_suffix _ _ _ Hev) as (n & Hn & Hl' & _).
    rewrite RemoveOldest_ll in Hn, Hl'. rewrite length_take in Hn.
    assert (length (ll c') = n) as Hn'.
    { rewrite Hl', !length_take. lia. }
    destruct (decide (n < length (ll c) - 1)%nat) as [Hless|Hge].
    + pose proof (IH (RemoveOldest c) c' HB (RemoveOldest_accounted _ _ HB Hc) Hev)
        as Hmin.
      rewrite RemoveOldest_ll, length_take, RemoveOldest_maxBytes in Hmin.
      rewrite take_take in Hmin.
      replace (S (length (ll c')) `min` (length (ll c) - 1))%nat
        with (S (length (ll c'))) in Hmin by lia.
      apply Hmin. lia.
    + rewrite take_ge by lia. destruct Hc as [Hnb _].
      unfold live_bytes in Hnb. fold (lbytes (ll c)) in Hnb. lia.
Qed.

(** X6.  On every store reached from a fresh one, an [Add] that evicts
    stops as soon as it can: the entries it keeps together with the next
    one it dropped are more than [maxBytes]. *)
Theorem Add_evicts_no_more_than_needed maxB onEv (ops : list (op V))
    c k v ttl now c' :
  run ops (New maxB onEv) = Some c →
  total_bytes ops + (len k + Len v) ≤ max_int64 →
  Add c k v ttl now = Some c' →
  (length (ll c') < length (ll (store c k v ttl now)))%nat →
  maxB < lbytes (take (S (length (ll c'))) (ll (store c k v ttl now))).
Proof.
  intros Hrun Hb HAdd Hlen.
  destruct (reachable_accounted _ _ _ _ Hrun) as (Hacc & Hm & _);
    [pose proof (len_nonneg k); pose proof (Len_nonneg v); lia|].
  pose proof (store_accounted _ c k v ttl now Hb Hacc) as Hst.
  pose proof (evict_minimal _ _ _ _ Hb Hst HAdd Hlen) as Hmin.
  destruct (store_fields c k v ttl now) as (Hmx & _).
  by rewrite Hmx, Hm in Hmin.
Qed.

End accounting.
(** *** Expiry: the heap and the entries *)

Section expiry.
Context {V : Type} `{!Value V}.
Implicit Types (c : Cache V) (e kv : entry V) (l : list (entry V)).

Lemma timed_sub c c' :
  expireHeap c' = expireHeap c → (∀ e, e ∈ ll c' → e ∈ ll c) →
  NoDup (keys_of c') → timed c → timed c'.
Proof.
  intros Hh Hl Hnd (Hok & Hcov & _). split; [by rewrite Hh|]. split; [|done].
  intros e He Hz. rewrite Hh. apply Hcov; [by apply Hl|done].
Qed.

Lemma elem_of_delete {A} (l : list A) i x : x ∈ delete i l → x ∈ l.
Proof. intros Hx. eapply elem_of_sublist; [exact Hx|apply sublist_delete]. Qed.

Lemma removeElement_timed c i : timed c → timed (removeElement c i).
Proof.
  intros Ht. destruct (ll c !! i) as [kv|] eqn:Hi.
  - destruct (removeElement_fields c i kv Hi) as (Hl & _ & _ & Hh & _).
    apply (timed_sub c); [done| |apply removeElement_NoDup, Ht|done].
    intros e. rewrite Hl. apply elem_of_delete.
  - unfold removeElement. by rewrite Hi.
Qed.

Lemma RemoveOldest_timed c : timed c → timed (RemoveOldest c).
Proof.
  intros. unfold RemoveOldest. destruct (ll c); [done|].
  by apply removeElement_timed.
Qed.

Lemma evict_timed fuel : ∀ c c', timed c → evict fuel c = Some c' → timed c'.
Proof.
  induction fuel as [|fuel IH]; intros c c' Ht; simpl;
    destruct (_ && _); intros Hev; simplify_eq; try done.
  eapply IH; [|done]. by apply RemoveOldest_timed.
Qed.

Lemma store_heap c k v ttl now :
  expireHeap (store c k v ttl now) =
    if decide (expiry ttl now = zeroTime) then expireHeap c
    else Heap.Push (expireHeap c) (mkItem (expiry ttl now) k).
Proof.
  unfold store, expiry, IsZero, zeroTime.
  destruct (lookup c k) as [[i kv]|]; case_decide as Hz.
  - by rewrite bool_decide_eq_true_2.
  - by rewrite bool_decide_eq_false_2.
  - by rewrite bool_decide_eq_true_2.
  - by rewrite bool_decide_eq_false_2.
Qed.

Lemma store_timed c k v ttl now : timed c → timed (store c k v ttl now).
Proof.
  intros (Hok & Hcov & Hnd).
  assert (heap_ok (expireHeap (store c k v ttl now)) ∧
          (∀ x, x ∈ expireHeap c → x ∈ expireHeap (store c k v ttl now)) ∧
          (expiry ttl now ≠ zeroTime →
           mkItem (expiry ttl now) k ∈ expireHeap (store c k v ttl now)))
    as (Hok' & Hsub & Hnew).
  { rewrite store_heap. case_decide as Hz; [done|].
    destruct (Push_ok (expireHeap c) (mkItem (expiry ttl now) k) Hok)
      as [Hp Hperm].
    split; [done|]. split.
    - intros x Hx. rewrite Hperm. by right.
    - intros _. rewrite Hperm. by left. }
  split; [done|]. split; [|by apply store_NoDup].
  intros e. rewrite store_front. intros [->|He]%elem_of_cons Hz.
  - by apply Hnew.
  - apply Hsub, Hcov; [|done].
    destruct (lookup c k) as [[i kv]|]; [by eapply elem_of_delete|done].
Qed.

Lemma Add_timed c k v ttl now c' : timed c → Add c k v ttl now = Some c' → timed c'.
Proof. intros Ht. apply evict_timed. by apply store_timed. Qed.

Lemma Get_sub c k now :
  expireHeap (Get c k now).1 = expireHeap c ∧
  ∀ e, e ∈ ll (Get c k now).1 → e ∈ ll c.
Proof.
  unfold Get. destruct (lookup c k) as [[i kv]|] eqn:Hlk; [|done].
  apply lookup_Some in Hlk as [Hi _]. destruct (negb _ && _); simpl.
  - destruct (removeElement_fields c i kv Hi) as (-> & _ & _ & -> & _).
    split; [done|]. intros e. apply elem_of_delete.
  - split; [done|].
    intros e [->|He]%elem_of_cons; [by eapply list_elem_of_lookup_2|].
    by eapply elem_of_delete.
Qed.

Lemma Get_timed c k now : timed c → timed (Get c k now).1.
Proof.
  intros Ht. destruct (Get_sub c k now) as [Hh Hl].
  apply (timed_sub c); [done|done|apply Get_NoDup, Ht|done].
Qed.

Lemma lookup_key_other c k e :
  NoDup (keys_of c) → e ∈ ll c →
  match lookup c k with
  | Some (i, kv) => key kv = k ∧ (e ∈ delete i (ll c) → key e ≠ k) ∧
                    (key e ≠ k → e ∈ delete i (ll c))
  | None => key e ≠ k
  end.
Proof.
  intros Hnd He. destruct (lookup c k) as [[i kv]|] eqn:Hlk.
  - apply lookup_Some in Hlk as [Hi Hk]. split; [done|]. split.
    + intros Hd <-. destruct (keys_delete (ll c) i kv Hnd Hi) as [Hn _].
      apply Hn. rewrite Hk. by apply list_elem_of_fmap_2.
    + intros Hne. destruct (elem_of_delete_or _ _ _ _ Hi He) as [->|?]; done.
  - apply lookup_None in Hlk. intros <-. apply Hlk. by apply list_elem_of_fmap_2.
Qed.

Lemma clean_unfold fuel now c :
  clean (S fuel) now c =
    if bool_decide (0 < length (expireHeap c))%nat then
      if After now (item_expireAt (expireHeap c !!! 0%nat))
      then clean fuel now (pop_round c) else c
    else c.
Proof. done. Qed.

Lemma pop_round_spec c :
  timed c → expireHeap c ≠ [] →
  timed (pop_round c) ∧
  expireHeap c ≡ₚ expireHeap c !!! 0%nat :: expireHeap (pop_round c) ∧
  ∀ e, e ∈ ll c →
       e ∈ ll (pop_round c) ↔ key e ≠ item_key (expireHeap c !!! 0%nat).
Proof.
  intros (Hok & Hcov & Hnd) Hne.
  destruct (Pop_ok (expireHeap c) Hok Hne) as (Hroot & Hok' & Hperm).
  rewrite Hroot in Hperm.
  set (x := expireHeap c !!! 0%nat) in *.
  set (c1 := with_expireHeap c (Heap.Pop (expireHeap c)).2).
  assert (expireHeap (pop_round c) = (Heap.Pop (expireHeap c)).2 ∧
          NoDup (keys_of (pop_round c)) ∧
          ∀ e, e ∈ ll c → e ∈ ll (pop_round c) ↔ key e ≠ item_key x)
    as (Hh & Hnd' & Hl).
  { unfold pop_round. fold x c1.
    assert (NoDup (keys_of c1)) as Hnd1 by done.
    destruct (lookup c1 (item_key x)) as [[i kv]|] eqn:Hlk.
    - pose proof Hlk as [Hi _]%lookup_Some.
      destruct (removeElement_fields c1 i kv Hi) as (Hl & _ & _ & Hh & _).
      split; [done|]. split; [by apply removeElement_NoDup|].
      intros e He. rewrite Hl.
      pose proof (lookup_key_other c1 (item_key x) e Hnd1 He) as Ho.
      rewrite Hlk in Ho. destruct Ho as (_ & ? & ?). by split.
    - split; [done|]. split; [done|]. intros e He.
      pose proof (lookup_key_other c1 (item_key x) e Hnd1 He) as Ho.
      rewrite Hlk in Ho. by split. }
  split; [|split; [by rewrite Hh|done]].
  split; [by rewrite Hh|]. split; [|done].
  intros e He Hz.
  assert (e ∈ ll c) as Hec.
  { unfold pop_round in He. fold x c1 in He.
    destruct (lookup c1 (item_key x)) as [[i kv]|] eqn:Hlk; [|done].
    pose proof Hlk as [Hi _]%lookup_Some.
    destruct (removeElement_fields c1 i kv Hi) as (Hl' & _).
    rewrite Hl' in He. by eapply elem_of_delete. }
  pose proof (Hcov e Hec Hz) as Hin. rewrite Hperm in Hin.
  apply elem_of_cons in Hin as [Heq|Hin]; [|by rewrite Hh].
  apply (Hl e Hec) in He. destruct He. by rewrite <- Heq.
Qed.

Lemma clean_timed now fuel : ∀ c,
  timed c → (length (expireHeap c) ≤ fuel)%nat →
  timed (clean fuel now c) ∧
  ∀ x, x ∈ expireHeap (clean fuel now c) → now ≤ item_expireAt x.
Proof.
  induction fuel as [|fuel IH]; intros c Ht Hf.
  { simpl. split; [done|]. destruct (expireHeap c); [|simpl in Hf; lia].
    by intros x ?%elem_of_nil. }
  rewrite clean_unfold. case_bool_decide as Hlen.
  - destruct (After _ _) eqn:Hafter.
    + assert (expireHeap c ≠ []) as Hne by (intros Hnil; rewrite Hnil in Hlen; simpl in Hlen; lia).
      destruct (pop_round_spec c Ht Hne) as (Ht' & Hperm & _).
      apply IH; [done|]. apply Permutation_length in Hperm. simpl in Hperm. lia.
    + split; [done|]. intros x [k Hk]%list_elem_of_lookup_1.
      apply bool_decide_eq_false in Hafter. destruct Ht as (Hok & _).
      pose proof (heap_ok_root (expireHeap c) k Hok) as Hroot.
      unfold at_index in Hroot.
      rewrite (list_lookup_total_correct _ _ _ Hk) in Hroot.
      specialize (Hroot ltac:(by eapply lookup_lt_Some)). lia.
  - split; [done|]. destruct (expireHeap c); [|simpl in Hlen; lia].
    by intros x ?%elem_of_nil.
Qed.

Lemma clean_keeps now e fuel : ∀ c,
  timed c → e ∈ ll c →
  (∀ x, x ∈ expireHeap c → item_key x = key e → now ≤ item_expireAt x) →
  e ∈ ll (clean fuel now c).
Proof.
  induction fuel as [|fuel IH]; intros c Ht He Hdue; [done|].
  rewrite clean_unfold. case_bool_decide as Hlen; [|done].
  destruct (After _ _) eqn:Hafter; [|done].
  assert (expireHeap c ≠ []) as Hne by (intros Hnil; rewrite Hnil in Hlen; simpl in Hlen; lia).
  destruct (pop_round_spec c Ht Hne) as (Ht' & Hperm & Hl).
  apply bool_decide_eq_true in Hafter.
  apply IH; [done| |].
  - apply Hl; [done|]. intros Hk.
    specialize (Hdue (expireHeap c !!! 0%nat)).
    assert (expireHeap c !!! 0%nat ∈ expireHeap c) as Hin
      by (by apply list_elem_of_lookup_total_2).
    specialize (Hdue Hin (eq_sym Hk)). lia.
  - intros x Hx. apply Hdue. rewrite Hperm. by right.
Qed.

Lemma clean_heap_sub now fuel : ∀ c x,
  timed c → x ∈ expireHeap (clean fuel now c) → x ∈ expireHeap c.
Proof.
  induction fuel as [|fuel IH]; intros c x Ht; [done|].
  rewrite clean_unfold. case_bool_decide as Hlen; [|done].
  destruct (After _ _); [|done].
  assert (expireHeap c ≠ []) as Hne by (intros Hnil; rewrite Hnil in Hlen; simpl in Hlen; lia).
  destruct (pop_round_spec c Ht Hne) as (Ht' & Hperm & _).
  intros Hx%IH; [|done]. rewrite Hperm. by right.
Qed.

Lemma CleanExpired_timed c now :
  timed c →
  timed (CleanExpired c now) ∧
  ∀ x, x ∈ expireHeap (CleanExpired c now) → now ≤ item_expireAt x.
Proof. intros Ht. by apply clean_timed. Qed.

Lemma step_timed c o c' : timed c → step c o = Some c' → timed c'.
Proof.
  intros Ht. destruct o as [k v ttl now|k now| |now]; simpl.
  - by apply Add_timed.
  - intros [= <-]. by apply Get_timed.
  - intros [= <-]. by apply RemoveOldest_timed.
  - intros [= <-]. by apply CleanExpired_timed.
Qed.

Lemma run_timed ops : ∀ c c', timed c → run ops c = Some c' → timed c'.
Proof.
  induction ops as [|o ops IH]; intros c c' Ht; simpl; [by intros [= <-]|].
  destruct (step c o) as [c1|] eqn:Hs; [|done].
  apply IH. by eapply step_timed.
Qed.

Lemma New_timed maxB onEv : timed (New (V:=V) maxB onEv).
Proof.
  split; [apply heap_ok_nil|]. split; [by intros e ?%elem_of_nil|constructor].
Qed.

(** *** What is on the heap *)

Lemma evict_heap fuel : ∀ c c', evict fuel c = Some c' → expireHeap c' = expireHeap c.
Proof.
  induction fuel as [|fuel IH]; intros c c'; simpl;
    destruct (_ && _); intros Hev; simplify_eq; try done.
  rewrite (IH _ _ Hev). unfold RemoveOldest. destruct (ll c) as [|e0 l0] eqn:Hl; [done|].
  destruct (ll c !! (length (ll c) - 1)%nat) as [kv|] eqn:Hi.
  - rewrite <- Hl. by destruct (removeElement_fields c _ kv Hi) as (_ & _ & _ & -> & _).
  - rewrite <- Hl. unfold removeElement. by rewrite Hi.
Qed.

Lemma step_heap c o c' x :
  timed c → step c o = Some c' → x ∈ expireHeap c' →
  x ∈ expireHeap c ∨ pushed [o] x.
Proof.
  intros Ht. destruct o as [k v ttl now|k now| |now]; simpl.
  - unfold Add. intros Hev. rewrite (evict_heap _ _ _ Hev), store_heap.
    case_decide as Hz; [by left|].
    destruct Ht as (Hok & _).
    destruct (Push_ok (expireHeap c) (mkItem (expiry ttl now) k) Hok) as [_ Hperm].
    rewrite Hperm. intros [->|?]%elem_of_cons; [|by left].
    right. exists v, ttl, now. simpl. split; [by left|done].
  - intros [= <-]. destruct (Get_sub c k now) as [-> _]. by left.
  - intros [= <-] Hx. left. revert Hx. unfold RemoveOldest.
    destruct (ll c) as [|e0 l0] eqn:Hl; [done|]. rewrite <- Hl.
    destruct (ll c !! (length (ll c) - 1)%nat) as [kv|] eqn:Hi.
    + by destruct (removeElement_fields c _ kv Hi) as (_ & _ & _ & -> & _).
    + unfold removeElement. by rewrite Hi.
  - intros [= <-]. left. by eapply clean_heap_sub.
Qed.

Lemma run_heap ops : ∀ c c' x,
  timed c → run ops c = Some c' → x ∈ expireHeap c' →
  x ∈ expireHeap c ∨ pushed ops x.
Proof.
  induction ops as [|o ops IH]; intros c c' x Ht; simpl.
  - intros [= <-]. by left.
  - destruct (step c o) as [c1|] eqn:Hs; [|done]. intros Hrun Hx.
    destruct (IH c1 c' x (step_timed _ _ _ Ht Hs) Hrun Hx)
      as [Hx1|(v & ttl & t & Hin & Hz & He)].
    + destruct (step_heap _ _ _ _ Ht Hs Hx1) as [?|(v & ttl & t & Hin & Hz & He)];
        [by left|]. right. exists v, ttl, t.
      apply list_elem_of_singleton in Hin. split; [|done]. rewrite <- Hin. by left.
    + right. exists v, ttl, t. split; [by right|done].
Qed.

Lemma timed_lookup c e :
  timed c → e ∈ ll c → ∃ i, lookup c (key e) = Some (i, e).
Proof.
  intros (_ & _ & Hnd) [i Hi]%list_elem_of_lookup_1. exists i.
  unfold lookup. apply list_find_Some.
  split; [done|]. split; [done|]. intros j y Hj Hlt Hk.
  assert (j = i); [|lia].
  eapply (NoDup_lookup (keys_of c)); [done|..]; unfold keys_of;
    rewrite list_lookup_fmap; [by rewrite Hj|by rewrite Hi; simpl; f_equal].
Qed.

(** X19.  In every store reached from a fresh one, the heap is in heap
    order, every entry with an expiry has its item on the heap, and every
    item on the heap was pushed by an [Add] of its key with that expiry. *)
Theorem expiry_heap_is_ordered_and_covers_the_entries maxB onEv
    (ops : list (op V)) c :
  run ops (New maxB onEv) = Some c →
  heap_ok (expireHeap c) ∧
  (∀ e, e ∈ ll c → expireAt e ≠ zeroTime →
        mkItem (expireAt e) (key e) ∈ expireHeap c) ∧
  (∀ x, x ∈ expireHeap c → pushed ops x).
Proof.
  intros Hrun.
  destruct (run_timed ops _ _ (New_timed maxB onEv) Hrun) as (Hok & Hcov & _).
  split; [done|]. split; [done|]. intros x Hx.
  destruct (run_heap ops _ _ x (New_timed maxB onEv) Hrun Hx) as [Hnil|?]; [|done].
  by apply elem_of_nil in Hnil.
Qed.

(** X20.  After [CleanExpired] on a store reached from a fresh one, no
    item left on the heap is due, no entry left has an expiry before
    [now], and a [Get] at [now] of any key left hits. *)
Theorem CleanExpired_removes_every_expired_entry maxB onEv
    (ops : list (op V)) c now :
  run ops (New maxB onEv) = Some c →
  let c' := CleanExpired c now in
  (∀ x, x ∈ expireHeap c' → now ≤ item_expireAt x) ∧
  (∀ e, e ∈ ll c' → expireAt e = zeroTime ∨ now ≤ expireAt e) ∧
  (∀ e, e ∈ ll c' → (Get c' (key e) now).2 = Some (value e)).
Proof.
  intros Hrun c'.
  pose proof (run_timed ops _ _ (New_timed maxB onEv) Hrun) as Ht.
  destruct (CleanExpired_timed c now Ht) as [Ht' Hdue]. fold c' in Ht', Hdue.
  assert (∀ e, e ∈ ll c' → expireAt e = zeroTime ∨ now ≤ expireAt e) as Hlive.
  { intros e He. destruct (decide (expireAt e = zeroTime)) as [?|Hz]; [by left|].
    right. destruct Ht' as (_ & Hcov & _).
    apply (Hdue _ (Hcov e He Hz)). }
  split; [done|]. split; [done|]. intros e He.
  destruct (timed_lookup c' e Ht' He) as [i Hlk]. unfold Get. rewrite Hlk.
  assert (negb (IsZero (expireAt e)) && After now (expireAt e) = false) as ->; [|done].
  unfold IsZero, After. destruct (Hlive e He) as [Hz|Hle].
  - by rewrite bool_decide_eq_true_2.
  - rewrite (bool_decide_eq_false_2 (expireAt e < now)) by lia. apply andb_false_r.
Qed.

(** X21.  [CleanExpired] on a store reached from a fresh one keeps every
    entry whose key no [Add] has given an expiry before [now]: it removes
    a key only on an item that is due. *)
Theorem CleanExpired_removes_only_keys_with_a_due_Add maxB onEv
    (ops : list (op V)) c now e :
  run ops (New maxB onEv) = Some c → e ∈ ll c →
  (∀ v ttl t, OpAdd (key e) v ttl t ∈ ops →
              expiry ttl t = zeroTime ∨ now ≤ expiry ttl t) →
  e ∈ ll (CleanExpired c now).
Proof.
  intros Hrun He Hadds.
  pose proof (run_timed ops _ _ (New_timed maxB onEv) Hrun) as Ht.
  apply clean_keeps; [done..|]. intros x Hx Hk.
  destruct (run_heap ops _ _ x (New_timed maxB onEv) Hrun Hx)
    as [Hnil|(v & ttl & t & Hin & Hz & Hat)]; [by apply elem_of_nil in Hnil|].
  rewrite Hk in Hin. destruct (Hadds v ttl t Hin) as [?|?]; [done|]. by rewrite Hat.
Qed.
End expiry.

(** X18.  The heap of expiry items with [heap.Push] and [heap.Pop]: on a
    heap in heap order, [Push] adds the item and no other and keeps the
    order; [Pop] on a heap that is not empty returns the item at the
    root, whose expiry is the earliest, removes that item and no other
    and keeps the order. *)
Theorem expireHeap_is_a_priority_queue (h : ExpireHeap.t) (x : expireItem) :
  heap_ok h →
  (heap_ok (Heap.Push h x) ∧ Heap.Push h x ≡ₚ x :: h) ∧
  (h ≠ [] →
   (Heap.Pop h).1 = h !!! 0%nat ∧
   heap_ok (Heap.Pop h).2 ∧
   h ≡ₚ (Heap.Pop h).1 :: (Heap.Pop h).2 ∧
   ∀ z, z ∈ h → item_expireAt (Heap.Pop h).1 ≤ item_expireAt z).
Proof.
  intros Hok. split; [by apply Push_ok|]. intros Hne.
  destruct (Pop_ok h Hok Hne) as (Hroot & Hok' & Hperm).
  do 3 (split; [done|]). intros z [k Hk]%list_elem_of_lookup_1.
  rewrite Hroot. pose proof (heap_ok_root h k Hok) as Hr. unfold at_index in Hr.
  rewrite (list_lookup_total_correct _ _ _ Hk) in Hr. apply Hr.
  by eapply lookup_lt_Some.
Qed.

(** *** The store on concrete operations *)

(** C3 on three insertions into a store of ten bytes. *)
Lemma nbytes_is_sum_of_live_entries_witness :
  total_bytes three_adds ≤ max_int64 ∧
  (0 ≤ 10 → is_Some (run three_adds (New 10 true))) ∧
  (∀ c, run three_adds (New 10 true) = Some c → nbytes c = live_bytes c).
Proof.
  split; [by vm_compute|].
  apply (nbytes_is_sum_of_live_entries 10 true three_adds). by vm_compute.
Defined.

(** C2 on a fourth insertion, which evicts. *)
Lemma Add_keeps_nbytes_within_maxBytes_witness :
  run three_adds (New 10 true) = Some after_three_adds ∧
  total_bytes three_adds + (len "d" + Len "123456") ≤ max_int64 ∧
  (0 < 10 → ∃ c', Add after_three_adds "d" "123456" 0 4 = Some c' ∧ nbytes c' ≤ 10).
Proof.
  split; [by vm_compute|]. split; [by vm_compute|].
  apply (Add_keeps_nbytes_within_maxBytes 10 true three_adds after_three_adds
           "d" "123456" 0 4); by vm_compute.
Defined.

(** C10 on an insertion of thirteen bytes into a store of ten. *)
Lemma Add_oversized_leaves_store_empty_witness :
  run three_adds (New 10 true) = Some after_three_adds ∧
  total_bytes three_adds + (len "big" + Len "0123456789") ≤ max_int64 ∧
  0 < 10 ∧ 10 < len "big" + Len "0123456789" ∧
  ∃ c', Add after_three_adds "big" "0123456789" 0 4 = Some c' ∧
        ll c' = [] ∧ nbytes c' = 0.
Proof.
  split; [by vm_compute|]. split; [by vm_compute|].
  split; [by vm_compute|]. split; [by vm_compute|].
  destruct (Add_oversized_leaves_store_empty 10 true three_adds after_three_adds
              "big" "0123456789" 0 4) as (c' & ? & ? & ? & _);
    [by vm_compute..|].
  exists c'. split; [assumption|]. split; assumption.
Defined.

(** C4.  The code breaks the claim: after [Add("k", "v", 10)] at time
    100 and [Add("k", "v", 0)] at time 105 the entry of "k" has no
    expiry and [Get] at time 200 hits, but [CleanExpired] at time 200
    pops the item the first [Add] left on the heap and removes "k",
    without the check of the entry's own expiry that [Get] makes. *)
Theorem CleanExpired_removes_key_readded_without_ttl :
  run readd_without_ttl (New 0 true) = Some readded ∧
  ll readded = [mkEntry "k" "v" zeroTime] ∧
  (Get readded "k" 200).2 = Some "v" ∧
  ll (CleanExpired readded 200) = [] ∧
  evicted (CleanExpired readded 200) = [("k", "v")].
Proof. by vm_compute. Qed.
(** X1 on the store after three insertions. *)
Lemma store_has_one_entry_per_key_witness :
  run three_adds (New 10 true) = Some after_three_adds ∧
  NoDup (keys_of after_three_adds).
Proof.
  split; [by vm_compute|].
  apply (store_has_one_entry_per_key 10 true three_adds after_three_adds).
  by vm_compute.
Defined.

(** X2: an entry of five bytes added with ttl 5 at time 10, read at
    time 15. *)
Lemma Add_then_Get_returns_the_value_witness :
  run three_adds (New 10 true) = Some after_three_adds ∧
  total_bytes three_adds + (len "d" + Len "1234") ≤ max_int64 ∧
  len "d" + Len "1234" ≤ 10 ∧ 15 ≤ 10 + 5 ∧
  ∃ c', Add after_three_adds "d" "1234" 5 10 = Some c' ∧
        (Get c' "d" 15).2 = Some "1234".
Proof.
  do 3 (split; [by vm_compute|]). split; [lia|].
  destruct (Add_then_Get_returns_the_value 10 true three_adds after_three_adds
              "d" "1234" 5 10 15) as (c' & HAdd & HGet & _);
    [by vm_compute|by vm_compute|right; by vm_compute|right; lia|].
  exists c'. split; assumption.
Defined.

(** X3: the same entry read at time 16. *)
Lemma Get_after_expiry_removes_the_entry_witness :
  run three_adds (New 10 true) = Some after_three_adds ∧
  total_bytes three_adds + (len "d" + Len "1234") ≤ max_int64 ∧
  len "d" + Len "1234" ≤ 10 ∧ 0 < 5 ∧ 10 + 5 ≠ 0 ∧ 10 + 5 < 16 ∧
  ∃ c', Add after_three_adds "d" "1234" 5 10 = Some c' ∧
        (Get c' "d" 16).2 = None ∧ ("d" ∉ keys_of (Get c' "d" 16).1).
Proof.
  do 3 (split; [by vm_compute|]). do 3 (split; [lia|]).
  destruct (Get_after_expiry_removes_the_entry 10 true three_adds after_three_adds
              "d" "1234" 5 10 16) as (c' & HAdd & HGet & _ & Hk & _);
    [by vm_compute|by vm_compute|right; by vm_compute|lia..|].
  exists c'. split; [assumption|]. split; assumption.
Defined.

(** X5 and X6 on a fourth insertion that evicts two entries. *)
Lemma Add_evicts_from_the_back_witness :
  Add after_three_adds "d" "123456" 0 4 = Some after_fourth_add ∧
  ∃ n, ll after_fourth_add = take n (ll (store after_three_adds "d" "123456" 0 4)).
Proof.
  split; [by vm_compute|].
  destruct (Add_evicts_from_the_back after_three_adds "d" "123456" 0 4
              after_fourth_add) as (n & _ & Hl & _); [by vm_compute|].
  exists n. exact Hl.
Defined.

Lemma Add_evicts_no_more_than_needed_witness :
  run three_adds (New 10 true) = Some after_three_adds ∧
  total_bytes three_adds + (len "d" + Len "123456") ≤ max_int64 ∧
  Add after_three_adds "d" "123456" 0 4 = Some after_fourth_add ∧
  (length (ll after_fourth_add)
   < length (ll (store after_three_adds "d" "123456" 0%Z 4%Z)))%nat ∧
  10 < lbytes (take (S (length (ll after_fourth_add)))
                    (ll (store after_three_adds "d" "123456" 0 4))).
Proof.
  do 3 (split; [by vm_compute|]).
  assert (length (ll after_fourth_add)
          < length (ll (store after_three_adds "d" "123456" 0%Z 4%Z)))%nat as Hlen
    by (vm_compute; lia).
  split; [exact Hlen|].
  apply (Add_evicts_no_more_than_needed 10 true three_adds after_three_adds
           "d" "123456" 0 4 after_fourth_add);
    [by vm_compute|by vm_compute|by vm_compute|exact Hlen].
Defined.

(** X7 on a fresh store made with [maxBytes = -1]. *)
Lemma Add_with_negative_maxBytes_never_returns_witness :
  run [] (New (-1) true) = Some (New (-1) true) ∧
  total_bytes [] + (len "k" + Len "v") ≤ max_int64 ∧ -1 < 0 ∧
  Add (New (-1) true) "k" "v" 0 1 = None.
Proof.
  split; [reflexivity|]. split; [by vm_compute|]. split; [lia|].
  apply (Add_with_negative_maxBytes_never_returns (-1) true []
           (New (-1) true) "k" "v" 0 1); [reflexivity|by vm_compute|lia].
Defined.

(** X8 on the store after three insertions. *)
Lemma RemoveOldest_removes_the_back_entry_witness :
  run three_adds (New 10 true) = Some after_three_adds ∧
  total_bytes three_adds ≤ max_int64 ∧
  ll after_three_adds = [mkEntry "c" "1" zeroTime] ++ [mkEntry "b" "12345" zeroTime] ∧
  ll (RemoveOldest after_three_adds) = [mkEntry "c" "1" zeroTime].
Proof.
  do 3 (split; [by vm_compute|]).
  destruct (RemoveOldest_removes_the_back_entry 10 true three_adds
              after_three_adds) as [_ Hback]; [by vm_compute..|].
  destruct (Hback [mkEntry "c" "1" zeroTime] (mkEntry "b" "12345" zeroTime))
    as [Hl _]; [by vm_compute|]. exact Hl.
Defined.

(** X18 on a heap of two items. *)
Lemma expireHeap_is_a_priority_queue_witness :
  heap_ok two_items ∧ two_items ≠ [] ∧
  (Heap.Pop two_items).1 = mkItem 102 "h" ∧
  heap_ok (Heap.Push two_items (mkItem 101 "g")).
Proof.
  assert (heap_ok two_items) as Hok.
  { intros k Hk. simpl in Hk. assert (k = 1%nat) as -> by lia. by vm_compute. }
  destruct (expireHeap_is_a_priority_queue two_items (mkItem 101 "g") Hok)
    as [[Hpush _] Hpop].
  destruct (Hpop ltac:(done)) as (Hroot & _).
  split; [exact Hok|]. split; [done|]. split; [exact Hroot|exact Hpush].
Defined.

(** X19, X20 and X21 on four entries with expiries, swept at time
    106. *)
Lemma expiry_heap_is_ordered_and_covers_the_entries_witness :
  run timed_adds (New 0 true) = Some after_timed_adds ∧
  heap_ok (expireHeap after_timed_adds).
Proof.
  split; [by vm_compute|].
  apply (expiry_heap_is_ordered_and_covers_the_entries 0 true timed_adds
           after_timed_adds). by vm_compute.
Defined.

Lemma CleanExpired_removes_every_expired_entry_witness :
  run timed_adds (New 0 true) = Some after_timed_adds ∧
  key <$> ll (CleanExpired after_timed_adds 106) = ["i"; "k"] ∧
  ∀ e, e ∈ ll (CleanExpired after_timed_adds 106) →
       expireAt e = zeroTime ∨ 106 ≤ expireAt e.
Proof.
  split; [by vm_compute|]. split; [by vm_compute|].
  apply (CleanExpired_removes_every_expired_entry 0 true timed_adds
           after_timed_adds 106). by vm_compute.
Defined.

Lemma CleanExpired_removes_only_keys_with_a_due_Add_witness :
  run timed_adds (New 0 true) = Some after_timed_adds ∧
  mkEntry "k" "v" 110 ∈ ll after_timed_adds ∧
  mkEntry "k" "v" 110 ∈ ll (CleanExpired after_timed_adds 106).
Proof.
  assert (mkEntry "k" "v" 110 ∈ ll after_timed_adds) as Hin
    by (vm_compute; do 3 right; left).
  split; [by vm_compute|]. split; [exact Hin|].
  apply (CleanExpired_removes_only_keys_with_a_due_Add 0 true timed_adds
           after_timed_adds 106 (mkEntry "k" "v" 110)); [by vm_compute|exact Hin|].
  intros v ttl t Hadd. simpl in Hadd.
  repeat (apply elem_of_cons in Hadd as [Heq|Hadd];
          [simplify_eq; right; by vm_compute|]).
  by apply elem_of_nil in Hadd.
Defined.

End LRUProofs.

Module SingleflightProofs.
Import Singleflight.

Section flight.
Context {A : Type}.
Variable key_of : nat → string.
Variable fn : nat → nat → result A.

Implicit Types (s : state A) (g : Group A) (p : pc A) (t c n : nat).

Local Abbreviation inv := (Singleflight.inv key_of fn).

(** *** What a point of [Do] says about the caller *)

(** *** The invariant of a run *)

Lemma inv_init : inv init.
Proof.
  split; simpl; try done.
  all: try (intros; by (rewrite ?lookup_nil in *; try discriminate)).
  - constructor.
  - intros t c Hin. by apply elem_of_nil in Hin.
Qed.

(** *** The statements of [Do] on the group *)

Lemma lookup_init_m g k : lookup (init_m g) k = lookup g k.
Proof.
  unfold lookup, init_m. simpl. destruct (m g); simpl; [done|].
  by rewrite lookup_empty.
Qed.

Lemma lookup_install g k c k' :
  is_Some (m g) →
  lookup (install g k c) k' = if decide (k = k') then Some c else lookup g k'.
Proof.
  intros [mp Hm]. unfold lookup, install. rewrite Hm. simpl.
  by rewrite lookup_insert.
Qed.

Lemma lookup_delete_key g k k' :
  lookup (delete_key g k) k' = if decide (k = k') then None else lookup g k'.
Proof.
  unfold lookup, delete_key. simpl. destruct (m g) as [mp|]; simpl.
  - by rewrite lookup_delete.
  - by case_decide.
Qed.

Lemma wg_of_lt g c : is_Some (wg_of g c) ↔ (c < length (calls g))%nat.
Proof. unfold wg_of. by rewrite fmap_is_Some, lookup_lt_is_Some. Qed.

Lemma calls_assign g c r c' :
  calls (assign g c r) !! c' =
    if decide (c = c')
    then (λ cl, mkCall (wg cl) r.1 r.2) <$> calls g !! c'
    else calls g !! c'.
Proof.
  unfold assign. simpl. case_decide as Hc.
  - subst. apply list_lookup_alter_eq.
  - by apply list_lookup_alter_ne.
Qed.

Lemma calls_Done g c c' :
  calls (Done g c) !! c' =
    if decide (c = c')
    then (λ cl, mkCall (wg cl - 1) (val cl) (err cl)) <$> calls g !! c'
    else calls g !! c'.
Proof.
  unfold Done. simpl. case_decide as Hc.
  - subst. apply list_lookup_alter_eq.
  - by apply list_lookup_alter_ne.
Qed.

Lemma calls_new g c' :
  calls (new_call g).2 !! c' =
    if decide (c' = length (calls g)) then Some (mkCall 1 None None)
    else calls g !! c'.
Proof.
  unfold new_call. simpl. case_decide as Hc.
  - subst. by rewrite (list_lookup_middle _ [] _ (length (calls g))).
  - destruct (decide (c' < length (calls g))%nat).
    + by rewrite lookup_app_l.
    + rewrite !lookup_ge_None_2; [done|lia|].
      rewrite length_app. simpl. lia.
Qed.

Ltac thread t0 t :=
  destruct (decide (t0 = t)) as [->|?];
  [rewrite ?fn_lookup_insert in *
  |rewrite ?fn_lookup_insert_ne in * by done].

Lemma lookup_Unlock g k : lookup (Unlock g) k = lookup g k.
Proof. done. Qed.
Lemma wg_of_Unlock g c : wg_of (Unlock g) c = wg_of g c.
Proof. done. Qed.
Lemma lookup_mk mu0 g k : lookup (mkGroup mu0 (m g) (calls g)) k = lookup g k.
Proof. done. Qed.
Lemma wg_of_mk mu0 m0 g c : wg_of (mkGroup mu0 m0 (calls g)) c = wg_of g c.
Proof. done. Qed.
Lemma wg_of_delete_key g k c : wg_of (delete_key g k) c = wg_of g c.
Proof. done. Qed.
Lemma lookup_assign g c r k : lookup (assign g c r) k = lookup g k.
Proof. done. Qed.
Lemma lookup_Done g c k : lookup (Done g c) k = lookup g k.
Proof. done. Qed.

Lemma armed_in_map p c : armed p c → in_map p c.
Proof. by destruct p. Qed.
Lemma in_map_owns p c : in_map p c → owns p c.
Proof. by destruct p. Qed.
Lemma owns_refers p c : owns p c → refers p c.
Proof. by destruct p. Qed.
Lemma released_refers p c : released p c → refers p c.
Proof. by destruct p. Qed.
Lemma before_fn_armed p c : before_fn p c → armed p c.
Proof. by destruct p. Qed.
Lemma holds_lock_Missing p : p = Missing → holds_lock p.
Proof. by intros ->. Qed.

Lemma wg_of_assign g c r c' : wg_of (assign g c r) c' = wg_of g c'.
Proof.
  unfold wg_of. rewrite calls_assign. case_decide; [|done].
  by destruct (calls g !! c').
Qed.

Lemma wg_of_Done g c c' :
  wg_of (Done g c) c' =
    if decide (c = c') then (λ n, n - 1)%nat <$> wg_of g c' else wg_of g c'.
Proof.
  unfold wg_of. rewrite calls_Done. case_decide; [|done].
  by destruct (calls g !! c').
Qed.

Lemma wg_of_snoc g c' mu0 m0 :
  wg_of (mkGroup mu0 m0 (calls g ++ [mkCall 1 None None])) c' =
    if decide (c' = length (calls g)) then Some 1%nat else wg_of g c'.
Proof.
  unfold wg_of. pose proof (calls_new g c') as Hn. simpl in *. rewrite Hn.
  by case_decide.
Qed.

Lemma waited_wg g c : waited g c = true → wg_of g c = Some 0%nat.
Proof.
  unfold waited, wg_of. destruct (calls g !! c) as [cl|]; simpl; [|done].
  intros Hw%bool_decide_eq_true. by rewrite Hw.
Qed.

Lemma read_released g c :
  wg_of g c = Some 0%nat →
  calls g !! c = Some (mkCall 0 (read g c).1 (read g c).2).
Proof.
  unfold wg_of, read. destruct (calls g !! c) as [[w v e]|]; simpl; [|done].
  by intros [= ->].
Qed.

Lemma wg_of_calls g c n : wg_of g c = Some n → ∃ cl, calls g !! c = Some cl ∧ wg cl = n.
Proof.
  unfold wg_of. destruct (calls g !! c) as [cl|]; simpl; [|done].
  intros [= <-]. by exists cl.
Qed.

Ltac simp :=
  rewrite ?lookup_Unlock, ?wg_of_Unlock, ?lookup_mk, ?wg_of_mk,
    ?wg_of_delete_key, ?lookup_assign, ?lookup_Done, ?lookup_init_m in *;
  simpl in *.

Ltac frame t :=
  try (let t0 := fresh "t0" in
       intros t0; intros; thread t0 t; simp; subst;
       solve [done | eauto | symmetry; eauto]);
  try done.

Ltac lock_field t Hmu :=
  let t0 := fresh "t0" in
  intros t0; thread t0 t; simpl;
  [naive_solver
  |match goal with
   | H : ∀ t, holds_lock _ ↔ _ |- _ => rewrite H; naive_solver
   end].

Ltac owner_field t Hpc :=
  let t0 := fresh "t0" in let Hin := fresh "Hin" in
  intros ? ? ?; simp;
  match goal with
  | H : ∀ k c, lookup _ k = Some c → _, Hk : lookup _ _ = Some _ |- _ =>
      destruct (H _ _ Hk) as (t0 & ? & Hin)
  end;
  exists t0; (split; [done|]);
  thread t0 t; [rewrite Hpc in Hin; simpl in *; by eauto|done].

Ltac unique_field t Hpc :=
  let t1 := fresh "t1" in let t2 := fresh "t2" in
  intros t1 t2 ?; thread t1 t; thread t2 t; simpl in *;
  try done; try (intros; subst; by (eauto || (symmetry; eauto))).

Ltac field t Hpc Hmu :=
  lazymatch goal with
  | |- ∀ t0, holds_lock _ ↔ _ => lock_field t Hmu
  | |- ∀ k c, lookup _ k = Some c → _ => owner_field t Hpc
  | |- ∀ t1 t2 c, owns _ c → owns _ c → _ => unique_field t Hpc
  end.

Lemma step_inv s t s' : inv s → step key_of fn t s = Some s' → inv s'.
Proof.
  intros [] Hstep. unfold step in Hstep.
  pose proof (inv_lock0 t) as Hlockt.
  pose proof (inv_unique0 t) as Hunit.
  pose proof (inv_owner_map0 t) as Hmapt.
  pose proof (inv_fresh0 t) as Hfresht.
  pose proof (inv_armed0 t) as Harmedt.
  pose proof (inv_released0 t) as Hreleasedt.
  pose proof (inv_before_fn0 t) as Hbeforet.
  destruct (pcs s t) eqn:Hpc; simpl in *; simplify_eq.
  - (* Idle: the call *)
    split; simpl; frame t; try field t Hpc Hpc.
  - (* Entered: the mutex is taken *)
    unfold Lock in Hstep. destruct (mu (grp s)) eqn:Hmu; simplify_eq/=.
    split; simpl; frame t; try field t Hpc Hmu.
  - (* Locked: the lookup *)
    rewrite lookup_init_m in Hstep.
    destruct (lookup (grp s) (key_of t)) as [c|] eqn:Hlk; simplify_eq.
    + split; simpl; frame t; try field t Hpc Hpc.
      * intros t0 H0. thread t0 t; [done|]. rewrite lookup_init_m.
        split; [by eexists|]. by apply inv_missing0.
      * intros t0 c0. thread t0 t; simpl; [intros <-|by eauto].
        destruct (inv_map_owner0 _ _ Hlk) as (t1 & _ & Hin).
        eapply inv_fresh0, owns_refers, in_map_owns, Hin.
    + split; simpl; frame t; try field t Hpc Hpc.
      intros t0 H0. rewrite lookup_init_m. split; [by eexists|].
      thread t0 t; [done|]. by apply inv_missing0.
  - (* Found: unlock *)
    split; simpl; frame t; try field t Hpc Hpc.
  - (* Waiting *)
    destruct (waited (grp s) c) eqn:Hw; simplify_eq.
    split; simpl; frame t; try field t Hpc Hpc.
    intros t0 c0. thread t0 t; simpl; [intros <-|by eauto].
    by apply waited_wg.
  - (* Woken: return *)
    split; simpl; frame t; try field t Hpc Hpc.
    intros t0 c0 r. thread t0 t; [|by eauto]. intros [= <- <-].
    apply read_released. by apply Hreleasedt.
  - (* Missing: new record, install *)
    destruct (inv_missing0 t Hpc) as [Hm Hnone].
    set (c := length (calls (grp s))).
    set (g1 := mkGroup (mu (grp s)) (m (grp s))
                 (calls (grp s) ++ [mkCall 1 None None])).
    assert (is_Some (m g1)) as Hm1 by done.
    assert (∀ t0, t0 ≠ t → pcs s t0 ≠ Missing) as Halone.
    { intros t0 Hne H0. apply Hne.
      assert (Some t0 = Some t) as [= ->]; [|done].
      rewrite <- (proj1 (inv_lock0 t0)), <- (proj1 (inv_lock0 t)); [done|..];
        [by rewrite Hpc|by rewrite H0]. }
    assert (∀ t0 c0, refers (pcs s t0) c0 → c0 ≠ c) as Hnew.
    { intros t0 c0 Hr%inv_fresh0. unfold c. lia. }
    split; simpl; frame t; try field t Hpc Hpc.
    + intros k c0. rewrite (lookup_install g1) by done. case_decide as Hk.
      * intros [= <-]. exists t. by rewrite fn_lookup_insert.
      * intros Hlk. destruct (inv_map_owner0 k c0 Hlk) as (t0 & Hk0 & Hin).
        exists t0. split; [done|]. thread t0 t; [by rewrite Hpc in Hin|done].
    + intros t0 c0. rewrite (lookup_install g1) by done.
      thread t0 t; simpl.
      * intros <-. by rewrite decide_True.
      * intros Hin. pose proof (inv_owner_map0 _ _ Hin) as Hlk.
        case_decide as Hk; [|done]. rewrite Hk in Hnone. congruence.
    + intros t0 H0. thread t0 t; [done|]. by destruct (Halone t0).
    + intros <- Ho%owns_refers. by destruct (Hnew _ _ Ho).
    + intros Ho%owns_refers <-. by destruct (Hnew _ _ Ho).
    + intros t0 c0. rewrite length_app. simpl. thread t0 t; simpl.
      * intros <-. unfold c. lia.
      * intros Hr%inv_fresh0. lia.
    + intros t0 c0. unfold install. simpl. rewrite wg_of_snoc.
      thread t0 t; simpl.
      * intros <-. by rewrite decide_True.
      * intros Ha. rewrite decide_False; [by eauto|].
        eapply Hnew, owns_refers, in_map_owns, armed_in_map, Ha.
    + intros t0 c0. unfold install. simpl. rewrite wg_of_snoc.
      thread t0 t; simpl; [done|].
      intros Hr. rewrite decide_False; [by eauto|].
      eapply Hnew, released_refers, Hr.
    + intros t0 c0 r. thread t0 t; [done|]. intros H0.
      apply lookup_app_l_Some. by eauto.
    + intros c0 cl Hc Hwg. apply (inv_result0 c0 cl); [|done].
      pose proof (calls_new (grp s) c0) as Hn. simpl in Hn.
      rewrite Hn in Hc. case_decide; [|done]. by simplify_eq.
    + intros t0 c0. thread t0 t; [done|]. intros H0.
      destruct (inv_assigned0 _ _ H0) as (n1 & cl & ? & ? & ?).
      exists n1, cl. split; [done|]. split; [|done].
      by apply lookup_app_l_Some.
    + intros t0 c0. thread t0 t; simpl; [|by eauto].
      intros <- (x & Hx & Hin)%list_elem_of_fmap. destruct x as [t1 c1].
      simpl in Hx. subst c1. apply inv_invoked_fresh0 in Hin. unfold c in Hin. lia.
    + intros t0 c0 Hin%inv_invoked_fresh0. rewrite length_app. simpl. lia.
  - (* Installed: unlock *)
    split; simpl; frame t; try field t Hpc Hpc.
  - (* Calling: fn is invoked *)
    assert (∀ t0 c0, t0 ≠ t → owns (pcs s t0) c0 → c0 ≠ c) as Hother.
    { intros t0 c0 Hne Ho ->. apply Hne. symmetry. by eapply Hunit. }
    split; simpl; frame t; try field t Hpc Hpc.
    + intros c0 cl Hc Hwg.
      destruct (inv_result0 c0 cl Hc Hwg) as (t1 & n1 & Hn & Hr).
      exists t1, n1. split; [|done]. by apply lookup_app_l_Some.
    + intros t0 c0. thread t0 t; [done|]. intros H0.
      destruct (inv_assigned0 _ _ H0) as (n1 & cl & ? & ? & ?).
      exists n1, cl. split; [|done]. by apply lookup_app_l_Some.
    + intros t0 c0 n1. thread t0 t.
      * intros [= <- <-]. by rewrite (list_lookup_middle _ [] _ (length (invoked s))).
      * intros H0. apply lookup_app_l_Some. by eauto.
    + rewrite fmap_app. apply NoDup_app. split; [done|]. split.
      * intros x Hx [->|[]%elem_of_nil]%elem_of_cons. by eapply Hbeforet.
      * apply NoDup_singleton.
    + intros t0 c0. thread t0 t; simpl; [done|]. intros Hb.
      rewrite fmap_app, elem_of_app. intros [Hin|Hin].
      * by eapply inv_before_fn0.
      * apply list_elem_of_singleton in Hin. simpl in Hin.
        eapply Hother; [done| |done].
        by apply in_map_owns, armed_in_map, before_fn_armed.
    + intros t0 c0 [Hin|Hin]%elem_of_app; [by eauto|].
      apply list_elem_of_singleton in Hin. simplify_eq. by apply Hfresht.
  - (* Running: fn returns *)
    pose proof (inv_running0 _ _ _ Hpc) as Hrun.
    pose proof (Harmedt c eq_refl) as Hwg.
    assert (∀ t0 c0, t0 ≠ t → owns (pcs s t0) c0 → c0 ≠ c) as Hother.
    { intros t0 c0 Hne Ho ->. apply Hne. symmetry. by eapply Hunit. }
    split; simpl; frame t; try field t Hpc Hpc.
    + intros t0 c0. rewrite length_alter. thread t0 t; simpl; by eauto.
    + intros t0 c0. rewrite wg_of_assign. thread t0 t; simpl; by eauto.
    + intros t0 c0. rewrite wg_of_assign. thread t0 t; simpl; by eauto.
    + intros t0 c0 r. thread t0 t; [done|]. intros H0.
      pose proof (inv_returned0 _ _ _ H0) as Hc.
      pose proof (calls_assign (grp s) c (fn t n) c0) as Ha. simpl in Ha.
      rewrite Ha. case_decide; [|done]. subst c0.
      unfold wg_of in Hwg. rewrite Hc in Hwg. done.
    + intros c0 cl.
      pose proof (calls_assign (grp s) c (fn t n) c0) as Ha. simpl in Ha.
      rewrite Ha. case_decide; [|by eauto]. subst c0.
      apply wg_of_calls in Hwg as (cl0 & -> & Hw). simpl.
      intros [= <-]. simpl. lia.
    + intros t0 c0.
      pose proof (calls_assign (grp s) c (fn t n) c0) as Ha. simpl in Ha.
      rewrite Ha. thread t0 t.
      * intros [= <-]. rewrite decide_True by done.
        apply wg_of_calls in Hwg as (cl0 & -> & Hw). simpl.
        eexists n, _. split; [done|]. split; [done|]. simpl.
        by destruct (fn t n).
      * intros H0. rewrite decide_False; [by eauto|]. intros ->.
        eapply Hother; [done| |done]. by rewrite H0.
    + intros t0 c0. rewrite length_alter. by eauto.
  - (* Assigned: Done *)
    destruct (inv_assigned0 _ _ Hpc) as (n1 & cl1 & Hinv & Hcl & Hres).
    pose proof (Harmedt c eq_refl) as Hwg.
    assert (wg cl1 = 1%nat) as Hwg1.
    { unfold wg_of in Hwg. rewrite Hcl in Hwg. by simplify_eq/=. }
    assert (∀ t0 c0, t0 ≠ t → owns (pcs s t0) c0 → c0 ≠ c) as Hother.
    { intros t0 c0 Hne Ho ->. apply Hne. symmetry. by eapply Hunit. }
    split; simpl; frame t; try field t Hpc Hpc.
    + intros t0 c0. rewrite length_alter. thread t0 t; simpl; by eauto.
    + intros t0 c0. rewrite wg_of_Done. thread t0 t; simpl; [done|].
      intros Ha. rewrite decide_False; [by eauto|]. intros ->.
      eapply Hother; [done| |done]. by apply in_map_owns, armed_in_map.
    + intros t0 c0. rewrite wg_of_Done. thread t0 t; simpl.
      * intros <-. rewrite decide_True by done. by rewrite Hwg.
      * intros Hr. rewrite decide_False; [by eauto|]. intros ->.
        rewrite (inv_released0 _ _ Hr) in Hwg. done.
    + intros t0 c0 r. thread t0 t; [done|]. intros H0.
      pose proof (inv_returned0 _ _ _ H0) as Hc.
      pose proof (calls_Done (grp s) c c0) as Ha. simpl in Ha.
      rewrite Ha. case_decide; [|done]. subst c0.
      rewrite Hc in Hcl. by simplify_eq.
    + intros c0 cl.
      pose proof (calls_Done (grp s) c c0) as Ha. simpl in Ha.
      rewrite Ha. case_decide; [|by eauto]. subst c0.
      rewrite Hcl. simpl. intros [= <-] _. simpl. by exists t, n1.
    + intros t0 c0.
      pose proof (calls_Done (grp s) c c0) as Ha. simpl in Ha.
      rewrite Ha. thread t0 t; [done|].
      intros H0. rewrite decide_False; [by eauto|]. intros ->.
      eapply Hother; [done| |done]. by rewrite H0.
    + intros t0 c0. rewrite length_alter. by eauto.
  - (* Relock *)
    unfold Lock in Hstep. destruct (mu (grp s)) eqn:Hmu; simplify_eq/=.
    split; simpl; frame t; try field t Hpc Hmu.
  - (* Deleting: delete *)
    pose proof (Hmapt c eq_refl) as Hlk.
    split; simpl; frame t; try field t Hpc Hpc.
    + intros k c0. rewrite lookup_delete_key. case_decide as Hk; [done|].
      intros Hlk0. destruct (inv_map_owner0 k c0 Hlk0) as (t0 & Hk0 & Hin).
      exists t0. split; [done|]. thread t0 t; [by destruct Hk|done].
    + intros t0 c0. rewrite lookup_delete_key. thread t0 t; simpl; [done|].
      intros Hin. pose proof (inv_owner_map0 _ _ Hin) as Hlk0.
      case_decide as Hk; [|done]. rewrite <- Hk, Hlk in Hlk0. simplify_eq.
      assert (t = t0); [|done]. eapply Hunit; [done|by apply in_map_owns].
    + intros t0 H0. thread t0 t; [done|].
      assert (Some t0 = Some t) as [= ->]; [|done].
      rewrite <- (proj1 (inv_lock0 t0)), <- (proj1 (inv_lock0 t)); [done|..];
        [by rewrite Hpc|by rewrite H0].
  - (* Deleted: unlock *)
    split; simpl; frame t; try field t Hpc Hpc.
  - (* Returning: return *)
    split; simpl; frame t; try field t Hpc Hpc.
    intros t0 c0 r. thread t0 t; [|by eauto]. intros [= <- <-].
    apply read_released. by apply Hreleasedt.
Qed.

Lemma exec_snoc sched t s :
  exec key_of fn (sched ++ [t]) s
  = default (exec key_of fn sched s) (step key_of fn t (exec key_of fn sched s)).
Proof. unfold exec. by rewrite foldl_app. Qed.

(** Every state a run reaches satisfies the invariant. *)
Lemma exec_inv sched : inv (exec key_of fn sched init).
Proof.
  induction sched as [|t sched IH] using rev_ind; [apply inv_init|].
  rewrite exec_snoc.
  destruct (step key_of fn t (exec key_of fn sched init)) as [s'|] eqn:Hstep;
    simpl; [by eapply step_inv|done].
Qed.

End flight.

(** *** Progress *)

Section progress.
Context {A : Type}.
Variable key_of : nat → string.
Variable fn : nat → nat → result A.

Implicit Types (s : state A) (g : Group A) (p : pc A) (t c n : nat).

Local Abbreviation inv := (Singleflight.inv key_of fn).
Local Abbreviation step := (Singleflight.step key_of fn).
Local Abbreviation exec := (Singleflight.exec key_of fn).

Ltac thread t0 t :=
  destruct (decide (t0 = t)) as [->|?];
  [rewrite ?fn_lookup_insert in *
  |rewrite ?fn_lookup_insert_ne in * by done].

Lemma live_init : live (@init A).
Proof. intros c n. unfold wg_of. simpl. by destruct c. Qed.

Lemma wg_of_Lock t g g' c : Lock t g = Some g' → wg_of g' c = wg_of g c.
Proof. unfold Lock. destruct (mu g); [done|]. by intros [= <-]. Qed.

Lemma wg_of_init_m g c : wg_of (init_m g) c = wg_of g c.
Proof. done. Qed.

(** A step that leaves the wait groups as they are, and the caller
    armed if it was. *)
Lemma live_frame s t p g :
  live s → (∀ c, wg_of g c = wg_of (grp s) c) →
  (∀ c, armed (pcs s t) c → armed p c) →
  live (goto s t p g).
Proof.
  intros Hl Hwg Harm c n. simpl. rewrite Hwg. intros [t0 H0]%Hl.
  exists t0. thread t0 t; [by apply Harm|done].
Qed.

Lemma step_live s t s' : inv s → live s → step t s = Some s' → live s'.
Proof.
  intros Hinv Hl Hstep. unfold Singleflight.step in Hstep.
  destruct (pcs s t) eqn:Hpc; simpl in *; simplify_eq.
  - apply live_frame; [done..|]. by rewrite Hpc.
  - destruct (Lock t (grp s)) as [g'|] eqn:HL; simplify_eq/=.
    apply live_frame; [done|intros c; by eapply wg_of_Lock|]. by rewrite Hpc.
  - destruct (lookup _ _); simplify_eq; (apply live_frame; [done..|]);
      by rewrite Hpc.
  - apply live_frame; [done..|]. by rewrite Hpc.
  - destruct (waited _ _); simplify_eq.
    apply live_frame; [done..|]. by rewrite Hpc.
  - apply live_frame; [done..|]. by rewrite Hpc.
  - (* Missing: the new record, armed by the caller *)
    intros c n. unfold wg_of. simpl.
    pose proof (calls_new (grp s) c) as Hn. simpl in Hn. rewrite Hn.
    case_decide as Hc.
    + intros _. exists t. rewrite fn_lookup_insert. by simpl.
    + intros [t0 H0]%Hl. exists t0. thread t0 t; [by rewrite Hpc in H0|done].
  - apply live_frame; [done..|]. by rewrite Hpc.
  - (* Calling *)
    intros c0 n. simpl. intros [t0 H0]%Hl. exists t0.
    thread t0 t; [by rewrite Hpc in H0|done].
  - apply live_frame; [done|intros c0; apply wg_of_assign|]. by rewrite Hpc.
  - (* Assigned: the signal *)
    intros c0 n0. simpl. rewrite wg_of_Done. case_decide as Hc.
    + subst c0. rewrite (inv_armed _ _ _ Hinv t c) by (by rewrite Hpc). done.
    + intros [t0 H0]%Hl. exists t0.
      thread t0 t; [rewrite Hpc in H0; by simpl in H0|done].
  - destruct (Lock t (grp s)) as [g'|] eqn:HL; simplify_eq/=.
    apply live_frame; [done|intros c0; by eapply wg_of_Lock|]. by rewrite Hpc.
  - apply live_frame; [done|intros c0; apply wg_of_delete_key|]. by rewrite Hpc.
  - apply live_frame; [done..|]. by rewrite Hpc.
  - apply live_frame; [done..|]. by rewrite Hpc.
Qed.

Lemma exec_live sched : live (exec sched init).
Proof.
  induction sched as [|t sched IH] using rev_ind; [apply live_init|].
  rewrite exec_snoc.
  destruct (Singleflight.step key_of fn t (exec sched init)) as [s'|] eqn:Hstep;
    simpl; [|done].
  eapply step_live; [apply exec_inv|done..].
Qed.

(** A caller that holds the mutex or has its wait group armed can
    take its step. *)
Lemma holds_lock_steps s t : holds_lock (pcs s t) → is_Some (step t s).
Proof.
  unfold Singleflight.step. destruct (pcs s t); simpl; try done.
  - intros _. by destruct (lookup _ _).
Qed.

Lemma armed_steps s t c : armed (pcs s t) c → is_Some (step t s).
Proof. unfold Singleflight.step. by destruct (pcs s t). Qed.

Lemma holds_lock_in_flight p : holds_lock p → in_flight p = true.
Proof. by destruct p. Qed.

Lemma armed_in_flight p c : armed p c → in_flight p = true.
Proof. by destruct p. Qed.

Lemma in_flight_progress s t :
  inv s → live s → in_flight (pcs s t) = true →
  ∃ t', in_flight (pcs s t') = true ∧ is_Some (step t' s).
Proof.
  intros Hinv Hl Hfl.
  assert (∀ p', pcs s t = p' → (p' = Entered ∨ ∃ c, p' = Relock c) →
            ∃ t', in_flight (pcs s t') = true ∧ is_Some (step t' s)) as Hlock.
  { intros p' Hp Hcase. destruct (mu (grp s)) as [t'|] eqn:Hmu.
    - apply (inv_lock _ _ _ Hinv) in Hmu. exists t'.
      split; [by apply holds_lock_in_flight|by apply holds_lock_steps].
    - exists t. split; [done|]. unfold Singleflight.step, Lock.
      rewrite Hp, Hmu. by destruct Hcase as [->|[c ->]]. }
  destruct (pcs s t) eqn:Hpc; try done;
    try (exists t; split; [by rewrite Hpc|];
         unfold Singleflight.step; rewrite Hpc; simpl; by eauto).
  - eapply Hlock; eauto.
  - exists t. split; [by rewrite Hpc|]. unfold Singleflight.step. rewrite Hpc.
    by destruct (lookup _ _).
  - (* Waiting *)
    destruct (waited (grp s) c) eqn:Hw.
    + exists t. split; [by rewrite Hpc|]. unfold Singleflight.step.
      rewrite Hpc, Hw. by eauto.
    + pose proof (inv_fresh _ _ _ Hinv t c) as Hc. rewrite Hpc in Hc.
      specialize (Hc eq_refl). apply wg_of_lt in Hc as [w Hwg].
      destruct w as [|w].
      { unfold waited, wg_of in *. destruct (calls (grp s) !! c) as [cl|];
          [|done]. simpl in Hwg. injection Hwg as Hwg. by rewrite Hwg in Hw. }
      destruct (Hl c w Hwg) as [t' Ht']. exists t'.
      split; [by eapply armed_in_flight|by eapply armed_steps].
  - eapply Hlock; eauto.
Qed.

(** *** Every call can return *)

Lemma todo_returned p : todo p = 0%nat → is_Some (returned p).
Proof. by destruct p. Qed.

Lemma step_todo s t s' :
  step t s = Some s' →
  (todo (pcs s' t) < todo (pcs s t))%nat ∧ ∀ t0, t0 ≠ t → pcs s' t0 = pcs s t0.
Proof.
  unfold Singleflight.step. intros Hstep.
  destruct (pcs s t) eqn:Hpc; simpl in *;
    repeat match goal with
           | H : context [Lock ?t ?g] |- _ => destruct (Lock t g)
           | H : context [lookup ?g ?k] |- _ => destruct (lookup g k)
           | H : context [waited ?g ?c] |- _ => destruct (waited g c)
           end;
    simplify_eq/=; rewrite ?fn_lookup_insert;
    (split; [simpl; lia|intros t0 ?; by rewrite fn_lookup_insert_ne]).
Qed.

Lemma pending_step T s t s' :
  step t s = Some s' → (pending T s' ≤ pending T s)%nat ∧
  (t ∈ T → (pending T s' < pending T s)%nat).
Proof.
  intros [Hlt Hsame]%step_todo. unfold pending.
  induction T as [|t0 T [IH1 IH2]]; csimpl.
  - split; [done|]. by intros ?%elem_of_nil.
  - destruct (decide (t0 = t)) as [->|Hne].
    + split; [lia|]. intros _. lia.
    + rewrite (Hsame t0 Hne). split; [lia|].
      intros [?|Hin]%elem_of_cons; [done|]. specialize (IH2 Hin). lia.
Qed.

Lemma pending_zero T s t : pending T s = 0%nat → t ∈ T → todo (pcs s t) = 0%nat.
Proof.
  unfold pending. induction T as [|t0 T IH]; csimpl.
  - by intros _ ?%elem_of_nil.
  - intros Hz [->|Hin]%elem_of_cons; [lia|]. apply IH; [lia|done].
Qed.

Lemma pending_pos T s : (0 < pending T s)%nat → ∃ t, t ∈ T ∧ (0 < todo (pcs s t))%nat.
Proof.
  unfold pending. induction T as [|t0 T IH]; csimpl; [lia|].
  intros Hp. destruct (decide (0 < todo (pcs s t0))%nat) as [?|?].
  - exists t0. split; [left|done].
  - destruct IH as (t & ? & ?); [lia|]. exists t. split; [by right|done].
Qed.

Lemma pending_le T s : (pending T s ≤ 12 * length T)%nat.
Proof.
  unfold pending. induction T as [|t T IH]; csimpl; [lia|].
  assert (todo (pcs s t) ≤ 12)%nat by (destruct (pcs s t); simpl; lia). lia.
Qed.

Lemma exec_cons t sched s :
  exec (t :: sched) s = exec sched (default s (step t s)).
Proof. done. Qed.

(** From a state of a run in which the callers in flight are among
    [T], a schedule over [T] brings every caller of [T] to its
    return. *)
Lemma drive T : ∀ n s,
  inv s → live s → (∀ t, in_flight (pcs s t) = true → t ∈ T) →
  (pending T s ≤ n)%nat →
  ∃ sched, (length sched ≤ n)%nat ∧ (∀ t, t ∈ sched → t ∈ T) ∧
           ∀ t, t ∈ T → is_Some (returned (pcs (exec sched s) t)).
Proof.
  induction n as [|n IH]; intros s Hinv Hl HT Hn.
  - exists []. split; [done|]. split; [by intros ? ?%elem_of_nil|].
    intros t Ht. apply todo_returned. apply (pending_zero T s); [lia|done].
  - destruct (decide (pending T s = 0)%nat) as [Hz|Hnz].
    { exists []. split; [simpl; lia|]. split; [by intros ? ?%elem_of_nil|].
      intros t Ht. apply todo_returned. by apply (pending_zero T s). }
    destruct (pending_pos T s) as (t & Ht & Htodo); [lia|].
    assert (∃ t', t' ∈ T ∧ is_Some (step t' s)) as (t' & Ht' & [s' Hs']).
    { destruct (in_flight (pcs s t)) eqn:Hfl.
      - destruct (in_flight_progress s t Hinv Hl Hfl) as (t' & Hfl' & Hst).
        exists t'. split; [by apply HT|done].
      - exists t. split; [done|]. unfold Singleflight.step.
        destruct (pcs s t); try done. simpl in Htodo. lia. }
    destruct (pending_step T s t' s' Hs') as [_ Hlt]. specialize (Hlt Ht').
    destruct (step_todo s t' s' Hs') as [_ Hsame].
    destruct (IH s') as (sched & Hlen & Hsub & Hret).
    + by eapply step_inv.
    + by eapply step_live.
    + intros t0 Hfl0. destruct (decide (t0 = t')) as [->|Hne]; [done|].
      apply HT. by rewrite <- (Hsame t0 Hne).
    + lia.
    + exists (t' :: sched). split; [simpl; lia|]. split.
      * intros t0 [->|?]%elem_of_cons; [done|by apply Hsub].
      * intros t0 Ht0. rewrite exec_cons, Hs'. by apply Hret.
Qed.

Lemma exec_idle sched t : t ∉ sched → pcs (exec sched init) t = Idle.
Proof.
  induction sched as [|t0 sched IH] using rev_ind; [done|].
  rewrite not_elem_of_app, list_elem_of_singleton. intros [Hin Hne].
  rewrite exec_snoc.
  destruct (Singleflight.step key_of fn t0 (exec sched init)) as [s'|] eqn:Hs;
    simpl; [|by apply IH].
  destruct (step_todo _ _ _ Hs) as [_ Hsame]. rewrite Hsame by done.
  by apply IH.
Qed.

(** X14.  In every state of every run of callers of [Do], at most one
    caller is between [g.mu.Lock()] and [g.mu.Unlock()]; and when no call
    is in flight, the mutex is free and the map holds no record. *)
Theorem Do_holds_the_mutex_alone_and_leaves_no_record sched :
  let s := exec sched init in
  (∀ t1 t2, holds_lock (pcs s t1) → holds_lock (pcs s t2) → t1 = t2) ∧
  ((∀ t, in_flight (pcs s t) = false) →
   mu (grp s) = None ∧ ∀ k, lookup (grp s) k = None).
Proof.
  intros s. pose proof (exec_inv key_of fn sched) as Hinv. fold s in Hinv.
  split.
  - intros t1 t2 H1%(inv_lock _ _ _ Hinv) H2%(inv_lock _ _ _ Hinv). congruence.
  - intros Hnone. split.
    + destruct (mu (grp s)) as [t|] eqn:Hmu; [|done].
      apply (inv_lock _ _ _ Hinv) in Hmu. apply holds_lock_in_flight in Hmu.
      by rewrite Hnone in Hmu.
    + intros k. destruct (lookup (grp s) k) as [c|] eqn:Hlk; [|done].
      destruct (inv_map_owner _ _ _ Hinv k c Hlk) as (t & _ & Hin).
      assert (in_flight (pcs s t) = true) as Hfl; [|by rewrite Hnone in Hfl].
      by destruct (pcs s t).
Qed.

End progress.

(** *** Duplicate suppression *)

Section suppression.
Context {A : Type}.
Variable key_of : nat → string.
Variable fn : nat → nat → result A.

Implicit Types (s : state A) (g : Group A) (p : pc A) (t c n : nat).

Local Abbreviation inv := (Singleflight.inv key_of fn).
Local Abbreviation step := (Singleflight.step key_of fn).
Local Abbreviation exec := (Singleflight.exec key_of fn).
Local Abbreviation suppressed := (Singleflight.suppressed key_of).

Ltac thread t0 t :=
  destruct (decide (t0 = t)) as [->|?];
  [rewrite ?fn_lookup_insert in *
  |rewrite ?fn_lookup_insert_ne in * by done].

Lemma roles_init : roles (@init A).
Proof. split; [by intros t c ?%elem_of_nil|done]. Qed.

Lemma roles_frame s t p g :
  roles s →
  (∀ c, after_fn (pcs s t) c ∨ (∃ r, pcs s t = Returned c r) →
        after_fn p c ∨ ∃ r, p = Returned c r) →
  (∀ c, after_fn p c → after_fn (pcs s t) c) →
  roles (goto s t p g).
Proof.
  intros [H1 H2] Hto Hfrom. split; simpl.
  - intros t0 c Hin. thread t0 t; [by apply Hto, H1|by apply H1].
  - intros t0 c. thread t0 t; [by intros ?%Hfrom%H2|by apply H2].
Qed.

Lemma step_roles s t s' : roles s → step t s = Some s' → roles s'.
Proof.
  intros Hr Hstep. unfold Singleflight.step in Hstep.
  destruct (pcs s t) eqn:Hpc; simpl in *;
    repeat match goal with
           | H : context [Lock ?t ?g] |- _ => destruct (Lock t g)
           | H : context [lookup ?g ?k] |- _ => destruct (lookup g k)
           | H : context [waited ?g ?c] |- _ => destruct (waited g c)
           end;
    simplify_eq/=;
    try (apply roles_frame; [done|rewrite Hpc; simpl..];
         [intros c' [?|[r ?]]; by (done || left || (right; eauto))
         |intros c'; by simpl]).
  - (* Calling *)
    destruct Hr as [H1 H2]. split; simpl.
    + intros t0 c0 [Hin|Hin%list_elem_of_singleton]%elem_of_app.
      * thread t0 t; [|by apply H1].
        destruct (H1 _ _ Hin) as [Ha|[r Ha]]; by rewrite Hpc in Ha.
      * simplify_eq. rewrite fn_lookup_insert. by left.
    + intros t0 c0. thread t0 t.
      * simpl. intros ->. apply elem_of_app. right. by left.
      * intros ?%H2. apply elem_of_app. by left.
  - (* Returning *)
    apply roles_frame; [done|rewrite Hpc; simpl..];
      [intros c' [->|[r ?]]; [right; eauto|done]|done].
Qed.

Lemma exec_roles sched : roles (exec sched init).
Proof.
  induction sched as [|t sched IH] using rev_ind; [apply roles_init|].
  rewrite exec_snoc.
  destruct (Singleflight.step key_of fn t (exec sched init)) as [s'|] eqn:Hstep;
    simpl; [by eapply step_roles|done].
Qed.

(** *** A caller that finds the record of a call in flight *)

Lemma step_invoked s t s' :
  step t s = Some s' →
  invoked s' = invoked s ∨
  ∃ c, pcs s t = Calling c ∧ invoked s' = invoked s ++ [(t, c)].
Proof.
  unfold Singleflight.step. intros Hstep.
  destruct (pcs s t) eqn:Hpc; simpl in *;
    repeat match goal with
           | H : context [Lock ?t ?g] |- _ => destruct (Lock t g)
           | H : context [lookup ?g ?k] |- _ => destruct (lookup g k)
           | H : context [waited ?g ?c] |- _ => destruct (waited g c)
           end;
    simplify_eq/=; eauto.
Qed.

Lemma step_lookup_unlocked s t s' k :
  step t s = Some s' → ¬ holds_lock (pcs s t) →
  lookup (grp s') k = lookup (grp s) k.
Proof.
  unfold Singleflight.step. intros Hstep Hno.
  destruct (pcs s t) eqn:Hpc; simpl in *; try done;
    repeat match goal with
           | H : context [Lock ?t ?g] |- _ =>
               unfold Lock in H; destruct (mu g)
           | H : context [waited ?g ?c] |- _ => destruct (waited g c)
           end;
    simplify_eq/=; try done.
Qed.

Lemma step_refers s t s' c :
  step t s = Some s' → refers (pcs s t) c → refers (pcs s' t) c.
Proof.
  unfold Singleflight.step. intros Hstep.
  destruct (pcs s t) eqn:Hpc; simpl in *; try done;
    repeat match goal with
           | H : context [Lock ?t ?g] |- _ => destruct (Lock t g)
           | H : context [waited ?g ?c] |- _ => destruct (waited g c)
           end;
    simplify_eq/=; by rewrite fn_lookup_insert.
Qed.

Lemma step_before_fn s t s' c :
  step t s = Some s' → before_fn (pcs s t) c →
  before_fn (pcs s' t) c ∨ (t, c) ∈ invoked s'.
Proof.
  unfold Singleflight.step. intros Hstep.
  destruct (pcs s t) eqn:Hpc; simpl in *; try done; simplify_eq/=;
    rewrite fn_lookup_insert; intros ->.
  - by left.
  - right. apply elem_of_app. right. by left.
Qed.

Lemma step_attached s t s' c :
  step t s = Some s' →
  (pcs s t = Locked ∧ lookup (grp s) (key_of t) = Some c) ∨ attached (pcs s t) c →
  attached (pcs s' t) c.
Proof.
  unfold Singleflight.step. intros Hstep [[Hpc Hlk]|Hat].
  - rewrite Hpc in Hstep. simpl in Hstep. rewrite lookup_init_m, Hlk in Hstep.
    simplify_eq/=. by rewrite fn_lookup_insert.
  - destruct (pcs s t) eqn:Hpc; simpl in *; try done;
      repeat match goal with
             | H : context [waited ?g ?c] |- _ => destruct (waited g c)
             end;
      simplify_eq/=; by rewrite fn_lookup_insert.
Qed.

Lemma step_suppressed t1 t2 c s t s' :
  t1 ≠ t2 → inv s → suppressed t1 t2 c s → step t s = Some s' →
  suppressed t1 t2 c s'.
Proof.
  intros Hne Hinv (Hno & Hat & Href & Hfn) Hstep.
  destruct (step_todo key_of fn s t s' Hstep) as [_ Hsame].
  assert (pcs s t2 ≠ Calling c → True) as _ by done.
  split; [|split; [|split]].
  - destruct (step_invoked _ _ _ Hstep) as [->|(c0 & Hpc & ->)]; [done|].
    rewrite fmap_app, not_elem_of_app. split; [done|]. simpl.
    rewrite list_elem_of_singleton. intros <-.
    destruct Hat as [[Hl _]|Hat]; rewrite Hpc in *; done.
  - destruct (decide (t = t2)) as [->|Hn2].
    + right. by eapply step_attached.
    + rewrite (Hsame t2) by done. destruct Hat as [[Hpc Hlk]|Hat]; [|by right].
      left. split; [done|]. rewrite <- Hlk.
      apply (step_lookup_unlocked s t); [done|]. intros Hh.
      apply (inv_lock _ _ _ Hinv) in Hh.
      assert (holds_lock (pcs s t2)) as Hh2 by by rewrite Hpc.
      apply (inv_lock _ _ _ Hinv) in Hh2. congruence.
  - destruct (decide (t = t1)) as [->|Hn1]; [by eapply step_refers|].
    by rewrite (Hsame t1).
  - destruct Hfn as [Hb|Hin].
    + destruct (decide (t = t1)) as [->|Hn1]; [by eapply step_before_fn|].
      left. by rewrite (Hsame t1).
    + right. destruct (step_invoked _ _ _ Hstep) as [->|(c0 & _ & ->)]; [done|].
      apply elem_of_app. by left.
Qed.

Lemma exec_suppressed t1 t2 c sched : ∀ s,
  t1 ≠ t2 → inv s → suppressed t1 t2 c s →
  inv (exec sched s) ∧ suppressed t1 t2 c (exec sched s).
Proof.
  induction sched as [|t sched IH]; intros s Hne Hinv Hs; [done|].
  rewrite exec_cons.
  destruct (Singleflight.step key_of fn t s) as [s'|] eqn:Hstep; simpl.
  - apply IH; [done|by eapply step_inv|by eapply step_suppressed].
  - by apply IH.
Qed.

Lemma invoked_once s t t' c :
  inv s → (t, c) ∈ invoked s → (t', c) ∈ invoked s → t = t'.
Proof.
  intros Hinv. pose proof (inv_once _ _ _ Hinv) as Hnd. revert Hnd.
  generalize (invoked s). intros l. induction l as [|[t0 c0] l IH]; simpl.
  - by intros _ ?%elem_of_nil.
  - intros [Hc0 Hnd]%NoDup_cons [Heq|Hin]%elem_of_cons [Heq'|Hin']%elem_of_cons;
      simplify_eq.
    + done.
    + destruct Hc0. by apply (list_elem_of_fmap_2 snd _ (t', c0)).
    + destruct Hc0. by apply (list_elem_of_fmap_2 snd _ (t, c0)).
    + by apply IH.
Qed.

(** C1, amended.  In every state [s] of every run of callers of [Do],
    under every schedule: [fn] has been invoked at most once for a
    call record; a caller that has returned with the values of a
    record has returned what the invocation of [fn] made for that
    record returned, so callers that share a record return the same
    pair; no two callers with the same key are inside [fn] at the
    same time.  Duplicate suppression: when caller [t2] has taken the
    mutex while the record [c] of caller [t1] is in the map under
    their key, then however the run goes on, [t2] does not invoke
    [fn], nobody but [t1] invokes [fn] for [c], and when [t2] returns,
    it returns the pair of [t1]'s one invocation, the same pair [t1]
    returns.  And the callers can always return: some continuation of
    the run brings any given callers to their return. *)
Theorem Do_suppresses_duplicate_calls sched :
  let s := exec sched init in
  NoDup (invoked s).*2 ∧
  (∀ t c r, pcs s t = Returned c r →
            ∃ t0 n, invoked s !! n = Some (t0, c) ∧ r = fn t0 n) ∧
  (∀ t t' c r r', pcs s t = Returned c r → pcs s t' = Returned c r' → r = r') ∧
  (∀ t t' c c' n n', pcs s t = Running c n → pcs s t' = Running c' n' →
                     key_of t = key_of t' → t = t') ∧
  (∀ t1 t2 c,
     in_map (pcs s t1) c → pcs s t2 = Locked → key_of t2 = key_of t1 →
     ∀ sched',
       let s' := exec sched' s in
       (t2 ∉ (invoked s').*1) ∧
       (∀ t0, (t0, c) ∈ invoked s' → t0 = t1) ∧
       ∀ c2 r2, pcs s' t2 = Returned c2 r2 →
                c2 = c ∧
                (∃ n, invoked s' !! n = Some (t1, c) ∧ r2 = fn t1 n) ∧
                ∀ c1 r1, pcs s' t1 = Returned c1 r1 → c1 = c ∧ r1 = r2) ∧
  (∀ T : list nat, ∃ sched',
     ∀ t, t ∈ T → is_Some (returned (pcs (exec sched' s) t))).
Proof.
  intros s. pose proof (exec_inv key_of fn sched) as Hinv. fold s in Hinv.
  assert (∀ s0 t c r, inv s0 → pcs s0 t = Returned c r →
            ∃ t0 n, invoked s0 !! n = Some (t0, c) ∧ r = fn t0 n) as Hres.
  { intros s0 t c r Hi Hr. apply (inv_returned _ _ _ Hi) in Hr.
    destruct (inv_result _ _ _ Hi _ _ Hr eq_refl) as (t0 & n & Hn & Hfn).
    exists t0, n. split; [done|]. rewrite <- Hfn. by destruct r. }
  assert (∀ s0 t t' c r r', inv s0 → pcs s0 t = Returned c r →
            pcs s0 t' = Returned c r' → r = r') as Hsame.
  { intros s0 t t' c r r' Hi H1 H2.
    apply (inv_returned _ _ _ Hi) in H1. apply (inv_returned _ _ _ Hi) in H2.
    rewrite H1 in H2. destruct r, r'. by simplify_eq/=. }
  split; [apply (inv_once _ _ _ Hinv)|].
  split; [intros t c r; by apply Hres|].
  split; [intros t t' c r r'; by apply Hsame|]. split; [|split].
  - intros t t' c c' n n' H1 H2 Hk.
    assert (lookup (grp s) (key_of t) = Some c) as L1
      by (apply (inv_owner_map _ _ _ Hinv); by rewrite H1).
    assert (lookup (grp s) (key_of t') = Some c') as L2
      by (apply (inv_owner_map _ _ _ Hinv); by rewrite H2).
    rewrite Hk, L2 in L1. simplify_eq.
    apply (inv_unique _ _ _ Hinv t t' c); [by rewrite H1|by rewrite H2].
  - intros t1 t2 c Hin Hpc Hk sched' s'.
    pose proof (exec_roles sched) as [Hr1 Hr2]. fold s in Hr1, Hr2.
    assert (t1 ≠ t2) as Hne by (intros ->; by rewrite Hpc in Hin).
    assert (suppressed t1 t2 c s) as Hs.
    { split; [|split; [|split]].
      - intros ((t & c0) & Ht & Hel)%list_elem_of_fmap. simpl in Ht. subst t2.
        destruct (Hr1 _ _ Hel) as [Ha|[r Ha]]; by rewrite Hpc in Ha.
      - left. split; [done|]. rewrite Hk. by apply (inv_owner_map _ _ _ Hinv).
      - by apply owns_refers, in_map_owns.
      - destruct (pcs s t1) eqn:Hp1; simpl in Hin; try done; subst;
          first [by left|right; apply Hr2; by rewrite Hp1]. }
    destruct (exec_suppressed t1 t2 c sched' s Hne Hinv Hs)
      as (Hinv' & Hno & Hat & Href & Hfn).
    fold s' in Hinv', Hno, Hat, Href, Hfn.
    assert (∀ t0, (t0, c) ∈ invoked s' → t0 = t1) as Honly.
    { intros t0 Hel. destruct Hfn as [Hb|Hel1].
      - apply (inv_before_fn _ _ _ Hinv') in Hb. destruct Hb.
        by apply (list_elem_of_fmap_2 snd _ (t0, c)).
      - by eapply invoked_once. }
    split; [done|]. split; [done|].
    intros c2 r2 Hret.
    assert (c2 = c) as ->.
    { destruct Hat as [[Hl _]|Hat]; rewrite Hret in *; [done|by simpl in Hat]. }
    split; [done|]. split.
    + destruct (Hres s' t2 c r2 Hinv' Hret) as (t0 & n & Hn & Hf).
      assert (t0 = t1) as -> by (apply Honly; by eapply list_elem_of_lookup_2).
      by exists n.
    + intros c1 r1 Hret1. rewrite Hret1 in Href. simpl in Href. subst c1.
      split; [done|]. by eapply Hsame.
  - intros T.
    destruct (drive key_of fn (T ++ sched) (12 * length (T ++ sched)) s)
      as (sched' & _ & _ & Hret).
    + done.
    + apply exec_live.
    + intros t Hfl. destruct (decide (t ∈ sched)) as [?|Hn]; [set_solver|].
      unfold s in Hfl. by rewrite (exec_idle key_of fn sched t Hn) in Hfl.
    + apply pending_le.
    + exists sched'. intros t Ht. apply Hret. set_solver.
Qed.
End suppression.

(** C1, as the specification states it, fails.  Caller 1 enters [Do]
    while caller 0 is inside [fn], and takes the mutex only after
    caller 0 has deleted the key: both calls are in flight after the
    first twelve steps, [fn] is invoked twice, and the two callers
    return different values. *)
Lemma Do_overlapping_calls_invoke_fn_twice :
  let mid := exec same_key count_fn (take 12 overlap_sched) init in
  let s := exec same_key count_fn overlap_sched init in
  in_flight (pcs mid 0%nat) = true ∧ in_flight (pcs mid 1%nat) = true ∧
  invoked s = [(0, 0); (1, 1)]%nat ∧
  returned (pcs s 0%nat) = Some (Some 0%nat, None) ∧
  returned (pcs s 1%nat) = Some (Some 1%nat, None).
Proof. vm_compute. done. Qed.
(** C1 on two callers of one key: caller 1 takes the mutex while caller
    0 is inside [fn]; it does not invoke [fn], and both return the pair
    of the one invocation. *)
Lemma Do_suppresses_duplicate_calls_witness :
  let s := exec same_key count_fn attach_sched init in
  let s' := exec same_key count_fn attach_rest s in
  in_map (pcs s 0%nat) 0%nat ∧ pcs s 1%nat = Locked ∧
  same_key 1%nat = same_key 0%nat ∧
  (1%nat ∉ (invoked s').*1) ∧
  invoked s' = [(0, 0)]%nat ∧
  returned (pcs s' 0%nat) = Some (Some 0%nat, None) ∧
  returned (pcs s' 1%nat) = Some (Some 0%nat, None).
Proof.
  intros s s'.
  assert (in_map (pcs s 0%nat) 0%nat) as H1 by (vm_compute; reflexivity).
  assert (pcs s 1%nat = Locked) as H2 by (vm_compute; reflexivity).
  destruct (Do_suppresses_duplicate_calls same_key count_fn attach_sched)
    as (_ & _ & _ & _ & Hsup & _).
  destruct (Hsup 0%nat 1%nat 0%nat H1 H2 eq_refl attach_rest) as (Hno & _ & _).
  split; [exact H1|]. split; [exact H2|]. split; [reflexivity|].
  split; [exact Hno|]. vm_compute. repeat split.
Defined.

End SingleflightProofs.

Module GeeCacheProofs.
Import GeeCache.
Import LRUProofs.

(** *** The loader between two calls *)

Lemma zero_at_rest : at_rest Singleflight.zero.
Proof. done. Qed.

Lemma landed_at_rest l key r : at_rest l → at_rest (landed l key r).
Proof.
  intros [_ Hl]. split; [done|]. intros k. unfold Singleflight.lookup. simpl.
  destruct (decide (k = key)) as [->|Hne].
  - by rewrite lookup_delete_eq.
  - rewrite lookup_delete_ne, lookup_insert_ne by done.
    specialize (Hl k). unfold Singleflight.lookup in Hl.
    destruct (Singleflight.m l); simpl in *; [done|]. apply lookup_empty.
Qed.

Lemma alter_snoc {A} (f : A → A) (l : list A) (x : A) :
  alter f (length l) (l ++ [x]) = l ++ [f x].
Proof. induction l as [|y l IH]; simpl; [done|]. f_equal. apply IH. Qed.

(** [Do] by a caller that runs alone on a loader at rest: it runs [fn]
    once, with the record installed, and returns what [fn] returned. *)
Lemma loader_Do_returns {X} key (fn : X → M (Singleflight.result ByteView * X))
    x g tr r x' g' tr' :
  at_rest (loader g) →
  fn x (with_loader g (flying (loader g) key)) tr = (Some ((r, x'), g'), tr') →
  loader g' = flying (loader g) key →
  loader_Do key fn x g tr =
    (Some ((r, x'), with_loader g' (landed (loader g) key r)), tr').
Proof.
  intros [Hmu Hm] Hfn Hl'. unfold loader_Do, mbind, M_bind.
  unfold loader_Lock at 1, Singleflight.Lock. rewrite Hmu. simpl.
  specialize (Hm key). unfold Singleflight.lookup in *. simpl.
  assert (default ∅ (Singleflight.m (loader g)) !! key = None) as Hk.
  { destruct (Singleflight.m (loader g)); simpl in *; [done|]. apply lookup_empty. }
  rewrite Hk. simpl.
  unfold flying, with_loader in Hfn. simpl in *.
  unfold with_loader, Singleflight.install, Singleflight.Unlock,
    Singleflight.init_m. simpl. rewrite Hfn. simpl.
  unfold loader_Lock, Singleflight.Lock. simpl.
  destruct g' as [n' gt' mc' p' l']. simpl in *. subst l'. simpl.
  unfold mret, M_ret, with_loader, landed, Singleflight.read. simpl.
  rewrite !alter_snoc. simpl.
  rewrite (list_lookup_middle _ [] _ (length (Singleflight.calls (loader g))))
    by done.
  by destruct r.
Qed.

(** When [fn] does not return, [Do] does not return. *)
Lemma loader_Do_stuck {X} key (fn : X → M (Singleflight.result ByteView * X))
    x g tr tr' :
  at_rest (loader g) →
  fn x (with_loader g (flying (loader g) key)) tr = (None, tr') →
  loader_Do key fn x g tr = (None, tr').
Proof.
  intros [Hmu Hm] Hfn. unfold loader_Do, mbind, M_bind.
  unfold loader_Lock at 1, Singleflight.Lock. rewrite Hmu. simpl.
  specialize (Hm key). unfold Singleflight.lookup in *. simpl.
  assert (default ∅ (Singleflight.m (loader g)) !! key = None) as Hk.
  { destruct (Singleflight.m (loader g)); simpl in *; [done|]. apply lookup_empty. }
  rewrite Hk. simpl.
  unfold flying, with_loader in Hfn. simpl in *.
  unfold with_loader, Singleflight.install, Singleflight.Unlock,
    Singleflight.init_m. simpl. by rewrite Hfn.
Qed.

(** *** Where a load goes *)

Ltac run :=
  unfold mbind, M_bind, mret, M_ret, this, PickPeer, getFromPeer, peer_Get,
    log_Println, getter_Get, emit, populateCache, mainCache_add; simpl.

(** The function literal of [load] on a load that goes to the local
    data source: it returns what [getLocally] returns. *)
Lemma load_fn_local key now g tr tr1 :
  local_load g tr key = Some tr1 →
  ∃ vars, vars.1 = mkByteView "" ∧
    load_fn key now (mkByteView "", None) g tr =
      match getLocally key now g tr1 with
      | (Some ((v, e), g'), tr') => (Some ((Some v, e, vars), g'), tr')
      | (None, tr') => (None, tr')
      end.
Proof.
  unfold local_load, load_fn. run.
  destruct (peers g) as [p|]; simpl.
  - destruct (p tr key) as [peer|]; simpl.
    + destruct (peer (tr ++ [EvPickPeer key]) (mkRequest (name g) key))
        as [res [e|]] eqn:Hpeer; simpl; [|done].
      intros ?; simplify_eq. exists (mkByteView "", Some e). split; [done|].
      run. rewrite Hpeer. simpl. rewrite <- !app_assoc. simpl.
      unfold peer_failed.
      destruct (getLocally _ _ _ _) as [[[[v e'] g']|] tr']; done.
    + intros ?; simplify_eq. exists (mkByteView "", None). split; [done|].
      destruct (getLocally _ _ _ _) as [[[[v e'] g']|] tr']; done.
  - intros ?; simplify_eq. exists (mkByteView "", None). split; [done|].
    destruct (getLocally _ _ _ _) as [[[[v e'] g']|] tr']; done.
Qed.

Lemma load_fn_remote key now g tr res :
  remote_load g tr key = Some res →
  load_fn key now (mkByteView "", None) g tr =
    (Some ((Some (mkByteView (Response_Value res)), None,
            (mkByteView (Response_Value res), None)), g),
     tr ++ [EvPickPeer key; EvPeerGet (mkRequest (name g) key)]).
Proof.
  unfold remote_load, load_fn. run.
  destruct (peers g) as [p|]; simpl; [|done].
  destruct (p tr key) as [peer|]; simpl; [|done].
  destruct (peer (tr ++ [EvPickPeer key]) (mkRequest (name g) key))
    as [res' [e|]] eqn:Hpeer; simpl; [done|].
  intros ?; simplify_eq. run. rewrite Hpeer. simpl. by rewrite <- !app_assoc.
Qed.

Lemma getLocally_error key now g tr bytes e :
  getter g tr key = (bytes, Some e) →
  getLocally key now g tr = (Some ((mkByteView "", Some e), g), tr ++ [EvGetter key]).
Proof. intros Hg. unfold getLocally. run. by rewrite Hg. Qed.

Lemma getLocally_success key now g tr bytes :
  getter g tr key = (bytes, None) →
  getLocally key now g tr =
    match cache_add (mainCache g) key (mkByteView bytes) 0 now with
    | Some c => (Some ((mkByteView bytes, None), with_mainCache g c),
                 tr ++ [EvGetter key])
    | None => (None, tr ++ [EvGetter key])
    end.
Proof.
  intros Hg. unfold getLocally. run. rewrite Hg. simpl.
  unfold cloneBytes. by destruct (cache_add _ _ _ _ _).
Qed.

(** [getLocally] makes the call to the getter its first event. *)
Lemma getLocally_events key now g tr :
  ∃ rest, (getLocally key now g tr).2 = tr ++ EvGetter key :: rest.
Proof.
  destruct (getter g tr key) as [bytes [e|]] eqn:Hg.
  - rewrite (getLocally_error _ _ _ _ _ _ Hg). by exists [].
  - rewrite (getLocally_success _ _ _ _ _ Hg).
    destruct (cache_add _ _ _ _ _); by exists [].
Qed.

(** *** The methods on a group between two calls *)

Lemma NewGroup_ok name cacheBytes getter g :
  NewGroup name cacheBytes getter = Some g → group_ok g.
Proof.
  unfold NewGroup. destruct getter; intros ?; simplify_eq.
  split; [apply zero_at_rest|]. simpl. constructor.
Qed.

Lemma cache_get_store c key now :
  store_of (cache_get c key now).1 = (LRU.Get (store_of c) key now).1 ∧
  (cache_get c key now).2 = (LRU.Get (store_of c) key now).2.
Proof. unfold cache_get. by destruct (LRU.Get _ _ _). Qed.

Lemma Get_unfold key now g tr :
  key ≠ "" →
  Get key now g tr =
    match (cache_get (mainCache g) key now).2 with
    | Some v => (Some ((v, None),
                       with_mainCache g (cache_get (mainCache g) key now).1),
                 tr ++ [EvLog "[GeeCache] hit"])
    | None => load key now
                (with_mainCache g (cache_get (mainCache g) key now).1) tr
    end.
Proof.
  intros Hk. unfold Get. rewrite decide_False by done.
  unfold mbind, M_bind, mainCache_get.
  destruct (cache_get (mainCache g) key now) as [c [v|]]; simpl; [|done].
  run. done.
Qed.

Lemma load_local_error key now g tr tr1 bytes e :
  at_rest (loader g) → local_load g tr key = Some tr1 →
  getter g tr1 key = (bytes, Some e) →
  load key now g tr =
    (Some ((mkByteView "", Some e),
           with_loader g (landed (loader g) key (Some (mkByteView ""), Some e))),
     tr1 ++ [EvGetter key]).
Proof.
  intros Hrest Hlocal Hget. unfold load.
  destruct (load_fn_local key now (with_loader g (flying (loader g) key))
              tr tr1 Hlocal) as (vars & Hv & Hfn).
  rewrite (getLocally_error key now (with_loader g (flying (loader g) key))
             tr1 bytes e Hget) in Hfn.
  unfold mbind, M_bind.
  rewrite (loader_Do_returns _ _ _ _ _ _ _ _ _ Hrest Hfn eq_refl).
  destruct vars as [value err]. simpl in *. by subst value.
Qed.

Lemma load_remote key now g tr res :
  at_rest (loader g) → remote_load g tr key = Some res →
  load key now g tr =
    (Some ((mkByteView (Response_Value res), None),
           with_loader g (landed (loader g) key
                            (Some (mkByteView (Response_Value res)), None))),
     tr ++ [EvPickPeer key; EvPeerGet (mkRequest (name g) key)]).
Proof.
  intros Hrest Hremote. unfold load.
  pose proof (load_fn_remote key now (with_loader g (flying (loader g) key))
                tr res Hremote) as Hfn.
  unfold mbind, M_bind.
  by rewrite (loader_Do_returns _ _ _ _ _ _ _ _ _ Hrest Hfn eq_refl).
Qed.

Lemma getLocally_loader key now g tr r g' tr' :
  getLocally key now g tr = (Some (r, g'), tr') → loader g' = loader g.
Proof.
  destruct (getter g tr key) as [bytes [e|]] eqn:Hg.
  - rewrite (getLocally_error _ _ _ _ _ _ Hg). by intros ?; simplify_eq.
  - rewrite (getLocally_success _ _ _ _ _ Hg).
    destruct (cache_add _ _ _ _ _); intros ?; by simplify_eq.
Qed.

(** A load that goes to the local data source calls the getter. *)
Lemma load_local_events key now g tr tr1 :
  at_rest (loader g) → local_load g tr key = Some tr1 →
  ∃ rest, (load key now g tr).2 = tr1 ++ EvGetter key :: rest.
Proof.
  intros Hrest Hlocal. unfold load.
  destruct (load_fn_local key now (with_loader g (flying (loader g) key))
              tr tr1 Hlocal) as (vars & Hv & Hfn).
  destruct (getLocally_events key now (with_loader g (flying (loader g) key)) tr1)
    as [rest Hev].
  exists rest. unfold mbind, M_bind.
  destruct (getLocally _ _ _ _) as [[[[v e'] g']|] tr'] eqn:Hloc; simpl in *.
  - apply getLocally_loader in Hloc.
    rewrite (loader_Do_returns _ _ _ _ _ _ _ _ _ Hrest Hfn Hloc).
    destruct vars as [value err]. simpl. by destruct e'.
  - by rewrite (loader_Do_stuck _ _ _ _ _ _ Hrest Hfn).
Qed.

Lemma landed_ok g c key r :
  group_ok g →
  NoDup (LRU.keys_of (store_of c)) →
  group_ok (with_loader (with_mainCache g c) (landed (loader g) key r)).
Proof. intros [Hrest _] Hnd. split; [by apply landed_at_rest|done]. Qed.

Lemma cache_get_NoDup c key now :
  NoDup (LRU.keys_of (store_of c)) →
  NoDup (LRU.keys_of (store_of (cache_get c key now).1)).
Proof.
  intros Hnd. destruct (cache_get_store c key now) as [-> _].
  by apply Get_NoDup.
Qed.

Lemma cache_get_miss_lookup c key now :
  NoDup (LRU.keys_of (store_of c)) → (cache_get c key now).2 = None →
  LRU.lookup (store_of (cache_get c key now).1) key = None.
Proof.
  intros Hnd. destruct (cache_get_store c key now) as [-> ->].
  by apply Get_miss_lookup.
Qed.

Lemma cache_get_absent c key now :
  LRU.lookup (store_of c) key = None →
  store_of (cache_get c key now).1 = store_of c ∧ (cache_get c key now).2 = None.
Proof.
  intros Hlk. destruct (cache_get_store c key now) as [-> ->].
  by rewrite (Get_absent _ _ _ Hlk).
Qed.

(** C5, amended.  On a group between two calls, for a key whose [Get]
    misses the cache and whose load goes to the local data source: when
    the getter returns an error [e], [Get] returns the empty [ByteView]
    and [e]; the load leaves the cache as the lookup of [Get] left it
    (all of it unchanged when the key had no element, without the
    expired element of the key otherwise), no element for the key is
    there, and a later [Get] of the key whose load goes to the local
    data source calls the getter again. *)
Theorem Get_getter_error_is_not_cached g tr key now tr1 bytes e :
  key ≠ "" → group_ok g →
  (cache_get (mainCache g) key now).2 = None →
  local_load g tr key = Some tr1 →
  getter g tr1 key = (bytes, Some e) →
  ∃ g',
    Get key now g tr =
      (Some ((mkByteView "", Some e), g'), tr1 ++ [EvGetter key]) ∧
    mainCache g' = (cache_get (mainCache g) key now).1 ∧
    (LRU.lookup (store_of (mainCache g)) key = None →
     store_of (mainCache g') = store_of (mainCache g)) ∧
    LRU.lookup (store_of (mainCache g')) key = None ∧
    group_ok g' ∧
    ∀ now2 tr2 tr3,
      local_load g' tr2 key = Some tr3 →
      ∃ rest, (Get key now2 g' tr2).2 = tr3 ++ EvGetter key :: rest.
Proof.
  intros Hkey [Hrest Hnd] Hmiss Hlocal Hget.
  set (c1 := (cache_get (mainCache g) key now).1).
  exists (with_loader (with_mainCache g c1)
            (landed (loader g) key (Some (mkByteView ""), Some e))).
  assert (LRU.lookup (store_of c1) key = None) as Hgone
    by by apply cache_get_miss_lookup.
  assert (group_ok (with_loader (with_mainCache g c1)
            (landed (loader g) key (Some (mkByteView ""), Some e)))) as Hok.
  { apply landed_ok; [done|]. by apply cache_get_NoDup. }
  split; [|split; [done|split; [|split; [done|split; [done|]]]]].
  - rewrite Get_unfold, Hmiss by done. fold c1.
    by rewrite (load_local_error key now (with_mainCache g c1) tr tr1 bytes e).
  - intros Habs. by destruct (cache_get_absent _ key now Habs) as [Heq _].
  - intros now2 tr2 tr3 Hlocal2.
    rewrite Get_unfold by done. simpl.
    destruct (cache_get_absent c1 key now2 Hgone) as [_ ->].
    apply load_local_events; [|done]. simpl. apply landed_at_rest, Hrest.
Qed.

(** C9, amended.  On a group between two calls, for a key whose [Get]
    misses the cache: when a remote peer answers, [Get] returns the
    value of the peer's response and the load leaves the cache as the
    lookup of [Get] left it (all of it unchanged when the key had no
    element, without the expired element of the key otherwise), with no
    element for the key; when the load goes to the local data source
    and the getter answers, the bytes are added to the cache with
    ttl = 0. *)
Theorem Get_from_peer_does_not_populate g tr key now :
  key ≠ "" → group_ok g →
  (cache_get (mainCache g) key now).2 = None →
  (∀ res,
     remote_load g tr key = Some res →
     ∃ g',
       Get key now g tr =
         (Some ((mkByteView (Response_Value res), None), g'),
          tr ++ [EvPickPeer key; EvPeerGet (mkRequest (name g) key)]) ∧
       mainCache g' = (cache_get (mainCache g) key now).1 ∧
       (LRU.lookup (store_of (mainCache g)) key = None →
        store_of (mainCache g') = store_of (mainCache g)) ∧
       LRU.lookup (store_of (mainCache g')) key = None) ∧
  (∀ tr1 bytes,
     local_load g tr key = Some tr1 →
     getter g tr1 key = (bytes, None) →
     match cache_add (cache_get (mainCache g) key now).1 key
                     (mkByteView bytes) 0 now with
     | Some c =>
         ∃ g', Get key now g tr =
                 (Some ((mkByteView bytes, None), g'), tr1 ++ [EvGetter key]) ∧
               mainCache g' = c
     | None => Get key now g tr = (None, tr1 ++ [EvGetter key])
     end).
Proof.
  intros Hkey [Hrest Hnd] Hmiss.
  set (c1 := (cache_get (mainCache g) key now).1).
  split.
  - intros res Hremote.
    exists (with_loader (with_mainCache g c1)
              (landed (loader g) key
                 (Some (mkByteView (Response_Value res)), None))).
    split; [|split; [done|split]].
    + rewrite Get_unfold, Hmiss by done. fold c1.
      by rewrite (load_remote key now (with_mainCache g c1) tr res).
    + intros Habs. by destruct (cache_get_absent _ key now Habs) as [Heq _].
    + by apply cache_get_miss_lookup.
  - intros tr1 bytes Hlocal Hget.
    rewrite Get_unfold, Hmiss by done. fold c1.
    destruct (load_fn_local key now
                (with_loader (with_mainCache g c1) (flying (loader g) key))
                tr tr1 Hlocal) as (vars & Hv & Hfn).
    rewrite (getLocally_success key now
               (with_loader (with_mainCache g c1) (flying (loader g) key))
               tr1 bytes Hget) in Hfn.
    simpl in Hfn. unfold load, mbind, M_bind.
    destruct (cache_add c1 key _ 0 now) as [c|].
    + eexists. split.
      * rewrite (loader_Do_returns key (load_fn key now) _
                   (with_mainCache g c1) tr _ _ _ _ Hrest Hfn eq_refl).
        destruct vars as [value err]. simpl. reflexivity.
      * done.
    + by rewrite (loader_Do_stuck key (load_fn key now) _
                    (with_mainCache g c1) tr _ Hrest Hfn).
Qed.

(** *** The cache of a group across calls *)





(** An entry that fits is at the front after [add], and a lookup of its
    key before its LRU.expiry finds it. *)
Lemma cache_add_get ops c key bytes ttl now :
  cache_reached ops c →
  LRU.total_bytes ops + (LRU.len key + ByteView_Len (mkByteView bytes)) ≤ max_int64 →
  fits c key bytes →
  ∃ c', cache_add c key (mkByteView bytes) ttl now = Some c' ∧
        NoDup (LRU.keys_of (store_of c')) ∧
        ∀ now2, ttl ≤ 0 ∨ now2 ≤ now + ttl →
                (cache_get c' key now2).2 = Some (mkByteView bytes).
Proof.
  intros Hr Hb Hfit.
  destruct (Add_front _ _ _ _ key (mkByteView bytes) ttl now Hr Hb Hfit)
    as (l' & rest & HAdd & Hl & _).
  destruct (reachable_accounted _ _ _ _ Hr) as (_ & _ & Hnd).
  { pose proof (LRU.Len_nonneg (mkByteView bytes)). pose proof (len_nonneg key).
    simpl in *. lia. }
  exists (mkcache (cacheBytes c) (Some l')). split; [|split].
  - unfold cache_add. by rewrite HAdd.
  - simpl. by eapply Add_NoDup.
  - intros now2 Hlive. destruct (cache_get_store (mkcache (cacheBytes c) (Some l')) key now2)
      as [_ ->].
    change (store_of (mkcache (cacheBytes c) (Some l'))) with l'. unfold LRU.Get.
    pose proof (lookup_front l' _ rest Hl) as Hlk. simpl in Hlk. rewrite Hlk.
    simpl.
    assert (negb (LRU.IsZero (LRU.expiry ttl now)) && LRU.After now2 (LRU.expiry ttl now)
            = false) as ->; [|done].
    unfold LRU.expiry, LRU.IsZero, LRU.After, LRU.Time_Add, LRU.zeroTime.
    destruct (bool_decide (0 < ttl)) eqn:Httl.
    + apply bool_decide_eq_true in Httl.
      rewrite (bool_decide_eq_false_2 (now + ttl < now2)) by lia.
      apply andb_false_r.
    + by rewrite bool_decide_eq_true_2.
Qed.

Lemma Get_hit key now g tr v :
  key ≠ "" → (cache_get (mainCache g) key now).2 = Some v →
  Get key now g tr =
    (Some ((v, None), with_mainCache g (cache_get (mainCache g) key now).1),
     tr ++ [EvLog "[GeeCache] hit"]).
Proof. intros Hk Hv. rewrite Get_unfold by done. by rewrite Hv. Qed.

Lemma Get_local_success g tr key now tr1 bytes c :
  key ≠ "" → at_rest (loader g) →
  (cache_get (mainCache g) key now).2 = None →
  local_load g tr key = Some tr1 →
  getter g tr1 key = (bytes, None) →
  cache_add (cache_get (mainCache g) key now).1 key (mkByteView bytes) 0 now = Some c →
  Get key now g tr =
    (Some ((mkByteView bytes, None),
           with_loader (with_mainCache g c)
             (landed (loader g) key (Some (mkByteView bytes), None))),
     tr1 ++ [EvGetter key]).
Proof.
  intros Hkey Hrest Hmiss Hlocal Hget Hadd.
  set (c1 := (cache_get (mainCache g) key now).1) in *.
  rewrite Get_unfold, Hmiss by done. fold c1.
  destruct (load_fn_local key now
              (with_loader (with_mainCache g c1) (flying (loader g) key))
              tr tr1 Hlocal) as (vars & Hv & Hfn).
  rewrite (getLocally_success key now
             (with_loader (with_mainCache g c1) (flying (loader g) key))
             tr1 bytes Hget) in Hfn.
  simpl in Hfn. rewrite Hadd in Hfn. unfold load, mbind, M_bind.
  rewrite (loader_Do_returns key (load_fn key now) _
             (with_mainCache g c1) tr _ _ _ _ Hrest Hfn eq_refl).
  by destruct vars as [value err].
Qed.


(** X16.  After [Set] of a value that fits the cache, a [Get] of the key
    no later than the LRU.expiry (any time when [ttl <= 0]) returns the value
    from the cache, without a call of the getter or a peer. *)
Theorem Set_then_Get_hits_the_cache g ops tr key value ttl now :
  key ≠ "" → cache_reached ops (mainCache g) →
  LRU.total_bytes ops + (LRU.len key + ByteView_Len (mkByteView value)) ≤ max_int64 →
  fits (mainCache g) key value →
  ∃ g', Group_Set key value ttl now g tr = (Some ((), g'), tr) ∧
        ∀ now2 tr2, ttl ≤ 0 ∨ now2 ≤ now + ttl →
          ∃ g'', Get key now2 g' tr2 =
                   (Some ((mkByteView value, None), g''),
                    tr2 ++ [EvLog "[GeeCache] hit"]).
Proof.
  intros Hkey Hr Hb Hfit.
  destruct (cache_add_get ops (mainCache g) key value ttl now Hr Hb Hfit)
    as (c & Hadd & _ & Hhit).
  exists (with_mainCache g c). split.
  - unfold Group_Set, mainCache_add, cloneBytes. by rewrite Hadd.
  - intros now2 tr2 Hlive. eexists. apply Get_hit; [done|]. by apply Hhit.
Qed.

(** X17.  When the peer picked for a key fails, [Get] logs the failure
    and goes to the local getter: it returns the getter's error, not the
    peer's, or the getter's bytes, which it adds to the cache with
    ttl = 0. *)
Theorem Get_falls_back_when_the_peer_fails g tr key now p peer res e bytes err :
  key ≠ "" → group_ok g →
  (cache_get (mainCache g) key now).2 = None →
  peers g = Some p → p tr key = Some peer →
  peer (tr ++ [EvPickPeer key]) (mkRequest (name g) key) = (res, Some e) →
  getter g (tr ++ [EvPickPeer key; EvPeerGet (mkRequest (name g) key); peer_failed e])
         key = (bytes, err) →
  let tr' := tr ++ [EvPickPeer key; EvPeerGet (mkRequest (name g) key);
                    peer_failed e; EvGetter key] in
  match err with
  | Some e' => ∃ g', Get key now g tr = (Some ((mkByteView "", Some e'), g'), tr')
  | None =>
      match cache_add (cache_get (mainCache g) key now).1 key (mkByteView bytes) 0 now with
      | Some c => ∃ g', Get key now g tr = (Some ((mkByteView bytes, None), g'), tr') ∧
                        mainCache g' = c
      | None => True
      end
  end.
Proof.
  intros Hkey [Hrest _] Hmiss Hp Hpick Hpeer Hget tr'.
  assert (local_load g tr key =
            Some (tr ++ [EvPickPeer key; EvPeerGet (mkRequest (name g) key);
                         peer_failed e])) as Hlocal.
  { unfold local_load. by rewrite Hp, Hpick, Hpeer. }
  destruct err as [e'|].
  - eexists. rewrite Get_unfold, Hmiss by done.
    erewrite (load_local_error key now _ tr _ bytes e'); [|done|exact Hlocal|done].
    unfold tr'. by rewrite <- app_assoc.
  - destruct (cache_add _ _ _ _ _) as [c|] eqn:Hadd; [|done].
    eexists. split.
    + erewrite (Get_local_success g tr key now _ bytes c);
        [|done|done|done|exact Hlocal|done|done].
      unfold tr'. by rewrite <- app_assoc.
    + done.
Qed.

(** *** Groups on concrete calls *)

Lemma fresh_group_ok getter : group_ok (fresh_group getter).
Proof. split; [apply zero_at_rest|constructor]. Qed.

Lemma peered_group_ok getter : group_ok (peered_group getter).
Proof. split; [apply zero_at_rest|constructor]. Qed.

(** C5, as the specification states it, fails: the lookup of [Get]
    removes the expired element of the key before the load, so after
    the getter's error the cache is not what it was. *)
Lemma Get_getter_error_changes_cache :
  let g := after_Set (fresh_group failing_getter) in
  let r := Get "k" 200 g [] in
  LRU.key <$> LRU.ll (store_of (mainCache g)) = ["k"] ∧
  fst <$> r.1 = Some (mkByteView "", Some "boom") ∧
  r.2 = [EvGetter "k"] ∧
  LRU.ll (store_of (mainCache (group_after r g))) = [] ∧
  mainCache (group_after r g) ≠ mainCache g.
Proof. vm_compute. repeat split; done. Qed.

(** C9, as the specification states it, fails: the lookup of [Get]
    removes the expired element of the key before the peer is asked,
    so the cache is modified although the peer's value is not added. *)
Lemma Get_from_peer_changes_cache :
  let g := after_Set (peered_group failing_getter) in
  let r := Get "k" 200 g [] in
  LRU.key <$> LRU.ll (store_of (mainCache g)) = ["k"] ∧
  fst <$> r.1 = Some (mkByteView "remote", None) ∧
  r.2 = [EvPickPeer "k"; EvPeerGet (mkRequest "scores" "k")] ∧
  LRU.ll (store_of (mainCache (group_after r g))) = [] ∧
  mainCache (group_after r g) ≠ mainCache g.
Proof. vm_compute. repeat split; done. Qed.

(** C5 on a fresh group whose data source fails. *)
Lemma Get_getter_error_is_not_cached_witness :
  let g := fresh_group failing_getter in
  "k" ≠ "" ∧ group_ok g ∧ (cache_get (mainCache g) "k" 1).2 = None ∧
  local_load g [] "k" = Some [] ∧ getter g [] "k" = ("", Some "boom") ∧
  ∃ g', Get "k" 1 g [] = (Some ((mkByteView "", Some "boom"), g'), [EvGetter "k"]) ∧
        LRU.lookup (store_of (mainCache g')) "k" = None.
Proof.
  intros g.
  split; [done|]. split; [apply fresh_group_ok|]. do 3 (split; [reflexivity|]).
  destruct (Get_getter_error_is_not_cached g [] "k" 1 [] "" "boom")
    as (g' & HGet & _ & _ & Hlk & _);
    [done|apply fresh_group_ok|reflexivity..|].
  exists g'. split; assumption.
Defined.

(** C9 on a fresh group with a peer that answers. *)
Lemma Get_from_peer_does_not_populate_witness :
  let g := peered_group local_getter in
  "k" ≠ "" ∧ group_ok g ∧ (cache_get (mainCache g) "k" 1).2 = None ∧
  remote_load g [] "k" = Some (mkResponse "remote") ∧
  ∃ g', Get "k" 1 g [] =
          (Some ((mkByteView "remote", None), g'),
           [EvPickPeer "k"; EvPeerGet (mkRequest "scores" "k")]) ∧
        LRU.lookup (store_of (mainCache g')) "k" = None.
Proof.
  intros g.
  split; [done|]. split; [apply peered_group_ok|]. do 2 (split; [reflexivity|]).
  destruct (Get_from_peer_does_not_populate g [] "k" 1) as [Hremote _];
    [done|apply peered_group_ok|reflexivity|].
  destruct (Hremote (mkResponse "remote") eq_refl) as (g' & HGet & _ & _ & Hlk).
  exists g'. split; assumption.
Defined.

(** X16 on a fresh group: [Set] with ttl 10 at time 100, [Get] at time
    105. *)
Lemma Set_then_Get_hits_the_cache_witness :
  let g := fresh_group failing_getter in
  "k" ≠ "" ∧ cache_reached [] (mainCache g) ∧ fits (mainCache g) "k" "v" ∧
  ∃ g', Group_Set "k" "v" 10 100 g [] = (Some ((), g'), []) ∧
        ∃ g'', Get "k" 105 g' [] =
                 (Some ((mkByteView "v", None), g''), [EvLog "[GeeCache] hit"]).
Proof.
  intros g.
  assert (fits (mainCache g) "k" "v") as Hfit by (right; by vm_compute).
  split; [done|]. split; [reflexivity|]. split; [exact Hfit|].
  destruct (Set_then_Get_hits_the_cache g [] [] "k" "v" 10 100)
    as (g' & HSet & Hhit); [done|reflexivity|by vm_compute|exact Hfit|].
  exists g'. split; [exact HSet|]. apply (Hhit 105 []). right. lia.
Defined.

(** X17 on a group whose peer and getter both fail. *)
Lemma Get_falls_back_when_the_peer_fails_witness :
  let g := broken_group failing_getter in
  "k" ≠ "" ∧ group_ok g ∧ (cache_get (mainCache g) "k" 1).2 = None ∧
  ∃ g', Get "k" 1 g [] =
          (Some ((mkByteView "", Some "boom"), g'),
           [EvPickPeer "k"; EvPeerGet (mkRequest "scores" "k");
            peer_failed "down"; EvGetter "k"]).
Proof.
  intros g.
  split; [done|]. split; [split; [apply zero_at_rest|constructor]|].
  split; [reflexivity|].
  exact (Get_falls_back_when_the_peer_fails g [] "k" 1 broken_picker broken_peer
           (mkResponse "") "down" "" (Some "boom")
           ltac:(done) (conj zero_at_rest (NoDup_nil_2 : NoDup [])) eq_refl eq_refl
           eq_refl eq_refl eq_refl).
Defined.

End GeeCacheProofs.
